(** * Ambient noise mixer: signal shaping, encoding and channel control

    A shallow embedding of [app/test.py].  NumPy arrays are lists of IEEE-754
    binary floating-point numbers ([spec_float] of the Standard Library, with
    its correctly rounded operations), Python dictionaries are finite maps
    keyed by strings, exceptions are an explicit error type, and the objects
    the program mutates (standard output, the random source, the mixer, the
    channels) are threaded through as explicit state. *)

From Stdlib Require Import ZArith Lia Bool Ascii String SpecFloat.
From stdpp Require Import gmap strings list pretty.

Local Open Scope Z_scope.

(** ** IEEE-754 binary formats *)

Module IEEE.

(** A NumPy dtype of floating kind: bits of precision and the exponent of
    the infinities. *)
Record dtype := Dtype { prec : Z; emax : Z }.

Definition float32 : dtype := Dtype 24 128.
Definition float64 : dtype := Dtype 53 1024.

Definition mul (t : dtype) : spec_float -> spec_float -> spec_float :=
  SFmul (prec t) (emax t).
Definition div (t : dtype) : spec_float -> spec_float -> spec_float :=
  SFdiv (prec t) (emax t).
Definition add (t : dtype) : spec_float -> spec_float -> spec_float :=
  SFadd (prec t) (emax t).

(** Conversion of an integer, rounding to nearest even. *)
Definition of_Z (t : dtype) (z : Z) : spec_float :=
  binary_normalize (prec t) (emax t) z 0 false.

(** Conversion between formats ([astype] to a floating dtype). *)
Definition cast (t : dtype) (x : spec_float) : spec_float :=
  match x with
  | S754_finite s m e => binary_round (prec t) (emax t) s m e
  | _ => x
  end.

Definition is_nan (x : spec_float) : bool :=
  match x with S754_nan => true | _ => false end.

Definition is_finite (x : spec_float) : bool :=
  match x with S754_zero _ | S754_finite _ _ _ => true | _ => false end.

(** The number a finite value stands for, as a signed mantissa and a binary
    exponent: [m * 2^e]. *)
Definition dyadic (x : spec_float) : Z * Z :=
  match x with
  | S754_finite s m e => (cond_Zopp s (Zpos m), e)
  | _ => (0, 0)
  end.

(** Both mantissas brought to the smaller exponent, then compared. *)
Definition dyadic_compare (a b : Z * Z) : comparison :=
  let k := Z.min (snd a) (snd b) in
  Z.compare (fst a * 2 ^ (snd a - k)) (fst b * 2 ^ (snd b - k)).

(** IEEE comparison: by numeric value; unordered with a NaN. *)
Definition compare (x y : spec_float) : option comparison :=
  match x, y with
  | S754_nan, _ | _, S754_nan => None
  | S754_infinity s1, S754_infinity s2 =>
      Some (match s1, s2 with
            | true, false => Lt
            | false, true => Gt
            | _, _ => Eq
            end)
  | S754_infinity s, _ => Some (if s then Lt else Gt)
  | _, S754_infinity s => Some (if s then Gt else Lt)
  | _, _ => Some (dyadic_compare (dyadic x) (dyadic y))
  end.

Definition eqb (x y : spec_float) : bool :=
  match compare x y with Some Eq => true | _ => false end.
Definition ltb (x y : spec_float) : bool :=
  match compare x y with Some Lt => true | _ => false end.
Definition leb (x y : spec_float) : bool :=
  match compare x y with Some (Lt | Eq) => true | _ => false end.
Definition gtb (x y : spec_float) : bool := ltb y x.
Definition geb (x y : spec_float) : bool := leb y x.

(** Rounding toward zero to an integer; nothing for infinities and NaN. *)
Definition trunc (x : spec_float) : option Z :=
  match x with
  | S754_zero _ => Some 0
  | S754_finite s m e =>
      Some (cond_Zopp s (if 0 <=? e then Zpos m * 2 ^ e
                         else Zpos m / 2 ^ (- e)))
  | _ => None
  end.

(** Rounding to the nearest integer, ties to even ([round], [np.round]). *)
Definition round_half_even (x : spec_float) : option Z :=
  match x with
  | S754_zero _ => Some 0
  | S754_finite s m e =>
      Some (cond_Zopp s
              (if 0 <=? e then Zpos m * 2 ^ e
               else
                 let d := 2 ^ (- e) in
                 let q := Zpos m / d in
                 let r := Zpos m mod d in
                 match Z.compare (2 * r) d with
                 | Lt => q
                 | Gt => q + 1
                 | Eq => if Z.even q then q else q + 1
                 end))
  | _ => None
  end.

(** Where [m + a/b] lies between [m] and [m + 1]: the position rounding
    looks at. *)
Definition loc_of (a b : Z) : location :=
  if a =? 0 then loc_Exact else loc_Inexact (2 * a ?= b).

(** A well-formed finite or zero value of the format. *)
Definition finite_in (t : dtype) (x : spec_float) : bool :=
  is_finite x && valid_binary (prec t) (emax t) x.

End IEEE.

(** ** Python values, exceptions and mutable state *)

Inductive exn :=
  | KeyError (key : string)
  | TypeError (msg : string)
  | ValueError (msg : string)
  | OverflowError (msg : string)
  | MemoryError (msg : string)
  | ZeroDivisionError (msg : string)
  | PygameError (msg : string)
  | TclError (msg : string).

Inductive result (A : Type) :=
  | Ok (a : A)
  | Raise (e : exn).
Arguments Ok {A} a.
Arguments Raise {A} e.

(** A computation that reads and updates a state [S] and either returns or
    raises; the state it leaves behind is kept in both cases. *)
Definition M (S A : Type) : Type := S -> result A * S.

Definition ret {S A} (a : A) : M S A := fun s => (Ok a, s).
Definition raise {S A} (e : exn) : M S A := fun s => (Raise e, s).
Definition bind {S A B} (m : M S A) (f : A -> M S B) : M S B :=
  fun s => match m s with
           | (Ok a, s') => f a s'
           | (Raise e, s') => (Raise e, s')
           end.
Definition lift {S A} (r : result A) : M S A := fun s => (r, s).
Definition get {S} : M S S := fun s => (Ok s, s).
Definition modify {S} (f : S -> S) : M S unit := fun s => (Ok tt, f s).

(** [try: m except ValueError as err: h err]. *)
Definition try_except_ValueError {S A} (m : M S A) (h : string -> M S A) : M S A :=
  fun s => match m s with
           | (Raise (ValueError err), s') => h err s'
           | r => r
           end.

Global Instance M_bind {S} : MBind (M S) := fun A B f m => bind m f.
Global Instance M_ret {S} : MRet (M S) := fun A a => ret a.

(** ** Python scalars *)

Module Py.
Import IEEE.

(** [float] is binary64. *)
Definition float_of_int (z : Z) : spec_float := of_Z float64 z.

Definition zero : spec_float := S754_zero false.
Definition one : spec_float := Eval vm_compute in float_of_int 1.
Definition hundred : spec_float := Eval vm_compute in float_of_int 100.
(** The literal [0.1]: the binary64 value nearest to one tenth. *)
Definition tenth : spec_float :=
  Eval vm_compute in div float64 (float_of_int 1) (float_of_int 10).

Definition float_mul : spec_float -> spec_float -> spec_float := mul float64.

(** [float(z)] on an [int]: the nearest binary64 value, refused when that
    would be an infinity. *)
Definition float (z : Z) : result spec_float :=
  let x := float_of_int z in
  if is_finite x then Ok x
  else Raise (OverflowError "int too large to convert to float").

(** [x / y] on floats. *)
Definition truediv (x y : spec_float) : result spec_float :=
  if eqb y zero then Raise (ZeroDivisionError "float division by zero")
  else Ok (div float64 x y).

(** [int(x)]: truncation toward zero. *)
Definition int (x : spec_float) : result Z :=
  match x with
  | S754_nan => Raise (ValueError "cannot convert float NaN to integer")
  | S754_infinity _ =>
      Raise (OverflowError "cannot convert float infinity to integer")
  | _ => Ok (default 0 (trunc x))
  end.

(** [round(x)] to an integer: to nearest, ties to even. *)
Definition round (x : spec_float) : result Z :=
  match x with
  | S754_nan => Raise (ValueError "cannot convert float NaN to integer")
  | S754_infinity _ =>
      Raise (OverflowError "cannot convert float infinity to integer")
  | _ => Ok (default 0 (round_half_even x))
  end.

(** The builtins [min(a, b)] and [max(a, b)]: the first argument is kept
    unless the second compares strictly below (above) it. *)
Definition min (a b : spec_float) : spec_float := if ltb b a then b else a.
Definition max (a b : spec_float) : spec_float := if gtb b a then b else a.

(** Values a profile dictionary holds. *)
Inductive value (G : Type) :=
  | Str (s : string)
  | Callable (g : G).
Arguments Str {G} s.
Arguments Callable {G} g.

(** [d[key]]. *)
Definition getitem {V} (d : gmap string V) (key : string) : result V :=
  match d !! key with
  | Some v => Ok v
  | None => Raise (KeyError key)
  end.
End Py.

(** ** NumPy arrays *)

Module Np.
Import IEEE.

(** One-dimensional float arrays; the dtype travels with the operations. *)
Abbreviation ndarray := (list spec_float).

(** Arrays of one axis ([shape (n,)]) or of frames of [cols] entries
    ([shape (n, cols)]). *)
Inductive shaped (A : Type) :=
  | Flat (l : list A)
  | Grid (cols : Z) (rows : list (list A)).
Arguments Flat {A} l.
Arguments Grid {A} cols rows.

Definition shaped_map {A B} (f : A -> B) (a : shaped A) : shaped B :=
  match a with
  | Flat l => Flat (fmap (M:=list) f l)
  | Grid c rows => Grid c (fmap (M:=list) (fmap (M:=list) f) rows)
  end.

Definition shaped_entries {A} (a : shaped A) : list A :=
  match a with
  | Flat l => l
  | Grid _ rows => concat rows
  end.

(** [repr(a.shape)]. *)
Definition shape_repr {A} (a : shaped A) : string :=
  match a with
  | Flat l => "(" +:+ pretty (Z.of_nat (length l)) +:+ ",)"
  | Grid c rows =>
      "(" +:+ pretty (Z.of_nat (length rows)) +:+ ", " +:+ pretty c +:+ ")"
  end.

(** What creating an array depends on beyond the size asked for: how many
    bytes the process can still get, and what NumPy raises when asked for
    more (a [MemoryError], or a [ValueError] when the byte count itself
    does not fit the index type). *)
Record memory := Memory {
  available : N;
  alloc_error : Z -> exn }.

(** The largest value of the index type [npy_intp]. *)
Definition max_intp : Z := 2 ^ 63 - 1.

(** Bytes per element: 2, 4 or 8 for binary16, binary32 and binary64. *)
Definition itemsize (t : dtype) : Z :=
  if prec t <=? 11 then 2 else if prec t <=? 24 then 4 else 8.

(** Creating an array of [size] elements of dtype [t] ([np.empty],
    [np.ones]): the size is converted to the index type, must not be
    negative, and the bytes must be there. *)
Definition allocate (m : memory) (t : dtype) (size : Z) : result unit :=
  if (size <? - max_intp - 1) || (max_intp <? size)
  then Raise (ValueError "Maximum allowed dimension exceeded")
  else if size <? 0
  then Raise (ValueError "negative dimensions are not allowed")
  else if Z.of_N (available m) <? itemsize t * size
  then Raise (alloc_error m size)
  else Ok tt.

(** [np.ones(size, dtype=t)]. *)
Definition ones (m : memory) (t : dtype) (size : Z) : result ndarray :=
  match allocate m t size with
  | Ok _ => Ok (replicate (Z.to_nat size) (of_Z t 1))
  | Raise e => Raise e
  end.

(** [np.maximum] and [np.minimum]: a NaN operand wins. *)
Definition maximum (a b : spec_float) : spec_float :=
  if is_nan a || geb a b then a else b.
Definition minimum (a b : spec_float) : spec_float :=
  if is_nan a || leb a b then a else b.

Definition clip (x lo hi : spec_float) : spec_float :=
  minimum (maximum x lo) hi.

Definition abs (a : ndarray) : ndarray := SFabs <$> a.

(** [np.max]: no identity, so an empty array is refused. *)
Definition max (a : ndarray) : result spec_float :=
  match a with
  | [] => Raise (ValueError
      "zero-size array to reduction operation maximum which has no identity")
  | x :: rest => Ok (foldl maximum x rest)
  end.

(** [np.linspace(start, stop, num, dtype=t)] for a positive or zero [num]:
    computed in binary64 and converted at the end. *)
Definition linspace (start stop : spec_float) (num : Z) (t : dtype) : ndarray :=
  let dt := float64 in
  let div_ := num - 1 in
  let delta := SFsub (prec dt) (emax dt) stop start in
  let y := of_Z dt <$> seqZ 0 num in
  let y :=
    if 0 <? div_ then
      let step := div dt delta (of_Z dt div_) in
      if eqb step (S754_zero false)
      then (fun v => mul dt (div dt v (of_Z dt div_)) delta) <$> y
      else (fun v => mul dt v step) <$> y
    else (fun v => mul dt v delta) <$> y in
  let y := (fun v => add dt v start) <$> y in
  let y := if 1 <? num then take (length y - 1) y ++ [stop] else y in
  cast t <$> y.

(** [np.convolve(a, v, mode="same")]: the operands are swapped so that [a]
    is the longer one, then the full discrete convolution is cut to the
    centred window as long as [a].  Each entry is accumulated from zero
    along increasing indices of [a], product and sum rounded one after the
    other, as NumPy's own loops do. *)
Definition dot_at (t : dtype) (a v : ndarray) (k : nat) : spec_float :=
  foldl (fun acc i =>
           match a !! i, v !! (k - i)%nat with
           | Some x, Some w => if (i <=? k)%nat then add t acc (mul t x w) else acc
           | _, _ => acc
           end)
        (S754_zero false) (seq 0 (length a)).

Definition convolve_same (t : dtype) (a v : ndarray) : result ndarray :=
  let '(a, v) := if (length a <? length v)%nat then (v, a) else (a, v) in
  match a, v with
  | [], _ => Raise (ValueError "a cannot be empty")
  | _, [] => Raise (ValueError "v cannot be empty")
  | _, _ =>
      let full := dot_at t a v <$> seq 0 (length a + length v - 1) in
      Ok (take (length a) (drop ((length v - 1) / 2)%nat full))
  end.

(** [np.tile(raw[:, None], (1, cols))]. *)
Definition tile_columns {A} (raw : list A) (cols : Z) : shaped A :=
  Grid cols ((fun x => replicate (Z.to_nat cols) x) <$> raw).

Definition wrap16 (z : Z) : Z := (z + 32768) mod 65536 - 32768.

(** [astype(np.int16)] on a float: truncation toward zero when the result
    fits.  For NaN, infinities and values outside the 16-bit range C leaves
    the conversion undefined; [undefined] is what the platform delivers
    there, stored in 16 bits. *)
Definition astype_int16 (undefined : spec_float -> Z) (x : spec_float) : Z :=
  match trunc x with
  | Some z =>
      if (-32768 <=? z) && (z <=? 32767) then z else wrap16 (undefined x)
  | None => wrap16 (undefined x)
  end.

(** The random source: an unbounded supply of standard normal variates. *)
Definition rng : Type := nat -> spec_float.

(** [np.random.normal(0, 1, size)]: the output array is created first,
    then filled from the source. *)
Definition random_normal (m : memory) (size : Z) : M rng ndarray :=
  match allocate m float64 size with
  | Raise e => raise e
  | Ok _ =>
      fun g =>
        let n := Z.to_nat size in
        (Ok (g <$> seq 0 n), fun i => g (n + i)%nat)
  end.
End Np.

(** ** Paths *)

(** [pathlib] on a POSIX system: a path is the string [str] gives for it. *)
Module Path.

(** The pieces of [s] between slashes; [piece] is the one being read. *)
Fixpoint split (s : string) (piece : string) : list string :=
  match s with
  | EmptyString => [piece]
  | String c rest =>
      if Ascii.eqb c "/"%char then piece :: split rest ""
      else split rest (piece +:+ String c "")
  end.

(** The components pathlib keeps: empty pieces and ["."] are dropped. *)
Definition parts (s : string) : list string :=
  List.filter (fun p => negb (String.eqb p "") && negb (String.eqb p "."))
              (split s "").

Definition leading_slash (s : string) : bool :=
  match s with
  | String c _ => Ascii.eqb c "/"%char
  | EmptyString => false
  end.

(** The root of a POSIX path: a slash, or two when the string starts with
    exactly two; none for a relative path. *)
Definition root (s : string) : string :=
  match s with
  | String _ rest =>
      if leading_slash s then
        match rest with
        | String _ rest' =>
            if leading_slash rest && negb (leading_slash rest') then "//"
            else "/"
        | EmptyString => "/"
        end
      else ""
  | EmptyString => ""
  end.

Fixpoint ends_with_slash (s : string) : bool :=
  match s with
  | EmptyString => false
  | String c EmptyString => Ascii.eqb c "/"%char
  | String _ rest => ends_with_slash rest
  end.

(** [str(base / s)] where [base] is the string of an absolute path: an
    absolute [s] replaces [base], a relative one is appended component by
    component. *)
Definition join (base s : string) : string :=
  if leading_slash s then root s +:+ String.concat "/" (parts s)
  else
    match parts s with
    | [] => base
    | ps =>
        (if ends_with_slash base then base else base +:+ "/")
        +:+ String.concat "/" ps
    end.

End Path.

Global Instance result_bind : MBind result :=
  fun A B f r => match r with Ok a => f a | Raise e => Raise e end.
Global Instance result_ret : MRet result := fun A a => Ok a.

(** ** The program: signal generation and shaping *)

Import IEEE.

Definition SAMPLE_RATE : Z := 44100.
Definition BUFFER_SECONDS : spec_float := Eval vm_compute in Py.float_of_int 8.

(** A played sound: decoded from a file, or built from an integer array. *)
Inductive sound :=
  | FileSound (path : string)
  | ArraySound (buf : Np.shaped Z).

(** A mixer channel: the sound bound to it, the gain last handed to
    [set_volume], and whether it is looping. *)
Record channel := Channel {
  chan_sound : sound;
  chan_volume : spec_float;
  chan_looping : bool }.

(** Everything the process mutates. *)
Record world := World {
  stdout : list string;
  random : Np.rng;
  mixer_initialized : bool;
  window_destroyed : bool;
  sounds : gmap string sound;
  channels : gmap string channel;
  volume_vars : gmap string spec_float;
  value_labels : gmap string string }.

Definition print (line : string) : M world unit :=
  modify (fun w => World (stdout w ++ [line]) (random w) (mixer_initialized w)
                     (window_destroyed w) (sounds w) (channels w)
                     (volume_vars w) (value_labels w)).

(** Run a computation on the random source inside the process. *)
Definition with_random {A} (m : M Np.rng A) : M world A :=
  fun w => let '(r, g) := m (random w) in
           (r, World (stdout w) g (mixer_initialized w) (window_destroyed w)
                 (sounds w) (channels w) (volume_vars w) (value_labels w)).

Definition generate_white_noise (m : Np.memory) (duration_seconds : spec_float)
  : M Np.rng Np.ndarray :=
  sample_count ←
    lift (Py.int (Py.float_mul (Py.float_of_int SAMPLE_RATE) duration_seconds));
  Np.random_normal m sample_count.

(** Result dtype of an operation on two float arrays. *)
Definition promote (t1 t2 : dtype) : dtype :=
  if prec t1 <? prec t2 then t2 else t1.

Definition moving_average (m : Np.memory) (t : dtype) (signal : Np.ndarray)
    (window_size : Z) : result Np.ndarray :=
  if window_size <=? 1 then Ok signal
  else
    ones ← Np.ones m float32 window_size;
    divisor ← Py.float window_size;
    let kernel := (fun x => div float32 x (cast float32 divisor)) <$> ones in
    let rt := promote t float32 in
    Np.convolve_same rt (cast rt <$> signal) (cast rt <$> kernel).

(** [min(int(fade_duration * SAMPLE_RATE), len(samples) // 2)]. *)
Definition fade_length (samples : Np.ndarray) (fade_duration : spec_float)
  : result Z :=
  n ← Py.int (Py.float_mul fade_duration (Py.float_of_int SAMPLE_RATE));
  Ok (Z.min n (Z.of_nat (length samples) / 2)).

(** The array is updated in place and returned; the value here is its
    content after both slice assignments. *)
Definition apply_fade_edges (t : dtype) (samples : Np.ndarray)
    (fade_duration : spec_float) : result Np.ndarray :=
  fade_len ← fade_length samples fade_duration;
  if fade_len <=? 0 then Ok samples
  else
    let fade_in := Np.linspace Py.zero Py.one fade_len t in
    let fade_out := reverse fade_in in
    let k := Z.to_nat fade_len in
    let samples := zip_with (mul t) (take k samples) fade_in ++ drop k samples in
    let rest := (length samples - k)%nat in
    Ok (take rest samples ++ zip_with (mul t) (drop rest samples) fade_out).

Definition normalize (t : dtype) (samples : Np.ndarray) : result Np.ndarray :=
  peak ← Np.max (Np.abs samples);
  if eqb peak Py.zero then Ok samples
  else Ok ((fun x => div t x peak) <$> samples).

(** ** The program: sound profiles and the mixer *)

(** What the process finds around it: where it is installed, which files
    exist and decode, what the mixer reports and which arrays it accepts. *)
Record host := Host {
  (* str(BASE_DIR): the resolved directory of the script *)
  base_dir : string;
  (* Path.exists() *)
  path_exists : string -> bool;
  (* the pygame.error of pygame.mixer.Sound(path), if it raises *)
  decode_error : string -> option string;
  (* the pygame.error of pygame.mixer.init(), if it raises *)
  init_error : option string;
  (* what pygame.mixer.get_init() reports once the mixer is initialised *)
  mixer_format : Z * Z * Z;
  (* the ValueError of pygame.sndarray.make_sound(array), if it raises *)
  make_sound_error : Np.shaped Z -> option string;
  (* what astype(np.int16) delivers where C leaves the conversion undefined *)
  int16_undefined : spec_float -> Z }.

Definition generator : Type := M world Np.ndarray.
Abbreviation profile := (gmap string (Py.value generator)).

Definition SOUNDS_DIR (h : host) : string := Path.join (base_dir h) "sounds-wav".

Definition entry (name filename : string) : profile :=
  <["name" := Py.Str name]> (<["filename" := Py.Str filename]> ∅).

Definition SOUND_PROFILES : list profile :=
  [ entry "Birds" "birds.wav";
    entry "Crickets" "cricket.wav";
    entry "Fire" "fire.wav";
    entry "Rainfall" "rain.wav";
    entry "Singing Bowl" "singingbowl.wav";
    entry "Ocean Waves" "waves.wav";
    entry "Wind" "wind.wav";
    entry "Coffee Shop" "coffeeshop.wav" ].

Definition as_str {G} (v : Py.value G) : result string :=
  match v with
  | Py.Str s => Ok s
  | Py.Callable _ => Raise (TypeError "expected str, not function")
  end.

(** How a value appears inside an f-string. *)
Definition format_value {G} (v : Py.value G) : string :=
  match v with
  | Py.Str s => s
  | Py.Callable _ => "<function>"
  end.

Definition call {G} (v : Py.value G) : result G :=
  match v with
  | Py.Callable g => Ok g
  | Py.Str _ => Raise (TypeError "'str' object is not callable")
  end.

(** Sounds and the methods of a [pygame.mixer.Channel] need an initialised
    mixer. *)
Definition mixer_init_check : M world unit :=
  w ← get;
  if mixer_initialized w then ret tt
  else raise (PygameError "mixer not initialized").

(** [pygame.mixer.get_init()]: nothing before the mixer is initialised. *)
Definition mixer_get_init (h : host) : M world (option (Z * Z * Z)) :=
  w ← get;
  ret (if mixer_initialized w then Some (mixer_format h) else None).

(** [pygame.sndarray.make_sound(array)]. *)
Definition make_sound (h : host) (a : Np.shaped Z) : M world sound :=
  mixer_init_check;;
  match make_sound_error h a with
  | Some err => raise (ValueError err)
  | None => ret (ArraySound a)
  end.

(** [np.clip(samples * 32767, -32768, 32767).astype(np.int16)], one entry. *)
Definition to_int16 (h : host) (x : spec_float) : Z :=
  Np.astype_int16 (int16_undefined h)
    (Np.clip (mul float32 x (of_Z float32 32767))
             (of_Z float32 (-32768)) (of_Z float32 32767)).

(** Truncation toward zero, kept within the 16-bit range; the infinities go
    to the ends of the range. *)
Definition saturate16 (p : spec_float) : Z :=
  match p with
  | S754_infinity s => if s then -32768 else 32767
  | _ => Z.max (-32768) (Z.min 32767 (default 0 (trunc p)))
  end.

Definition _create_sound (h : host) (g : Py.value generator) : M world sound :=
  produce ← lift (call g);
  generated ← produce;
  let raw := cast float32 <$> generated in
  normalized ← lift (normalize float32 raw);
  raw ← lift (apply_fade_edges float32 normalized Py.tenth);
  init_info ← mixer_get_init h;
  let channels :=
    match init_info with
    | None => 2
    | Some (_, _, channels) => channels
    end in
  let samples :=
    if channels <=? 1 then Np.Flat raw else Np.tile_columns raw channels in
  try_except_ValueError
    (make_sound h (Np.shaped_map (to_int16 h) samples))
    (fun err =>
       print ("[AudioGen] Failed to create sound (channels=" +:+ pretty channels
              +:+ ", shape=" +:+ Np.shape_repr samples +:+ "): " +:+ err
              +:+ ". Attempting emergency mono fallback.");;
       let mono := cast float32 <$> raw in
       make_sound h (Np.Flat (to_int16 h <$> mono))).

(** The shaping [_create_sound] applies to what the generator returned:
    conversion to binary32, [normalize], then [apply_fade_edges] with its
    default duration. *)
Definition shaped_for_playback (generated : Np.ndarray) : result Np.ndarray :=
  normalized ← normalize float32 (cast float32 <$> generated);
  apply_fade_edges float32 normalized Py.tenth.

(** The channel count of the initialised mixer, for which [_create_sound]
    shapes the array. *)
Definition mixer_channels (h : host) : Z :=
  let '(_, _, channels) := mixer_format h in channels.

(** The line printed when the first [make_sound] raises [ValueError]. *)
Definition fallback_diagnostic (channels : Z) (samples : Np.shaped spec_float)
    (err : string) : string :=
  "[AudioGen] Failed to create sound (channels=" +:+ pretty channels
  +:+ ", shape=" +:+ Np.shape_repr samples +:+ "): " +:+ err
  +:+ ". Attempting emergency mono fallback.".

Definition _load_sound (h : host) (p : profile) : M world sound :=
  filename ← lift (Py.getitem p "filename" ≫= as_str);
  let file_path := Path.join (SOUNDS_DIR h) filename in
  loaded ←
    (if path_exists h file_path then
       match decode_error h file_path with
       | None => ret (Some (FileSound file_path))
       | Some err =>
           print ("Unable to load " +:+ file_path +:+ ": " +:+ err
                  +:+ ". Falling back to generated audio.");;
           ret None
       end
     else
       name ← lift (Py.getitem p "name");
       print ("Missing audio file for " +:+ format_value name +:+ ": expected "
              +:+ file_path +:+ ".");;
       ret None);
  match loaded with
  | Some s => ret s
  | None =>
      fallback ← lift (Py.getitem p "fallback");
      _create_sound h fallback
  end.

Definition set_channels (f : gmap string channel -> gmap string channel)
  : M world unit :=
  modify (fun w => World (stdout w) (random w) (mixer_initialized w)
                     (window_destroyed w) (sounds w) (f (channels w))
                     (volume_vars w) (value_labels w)).

Definition channel_play (name : string) (s : sound) : M world unit :=
  mixer_init_check;;
  set_channels (fun cs =>
    <[name := Channel s (default Py.one (chan_volume <$> cs !! name)) true]> cs).

Definition channel_set_volume (name : string) (volume : spec_float) : M world unit :=
  mixer_init_check;;
  set_channels (alter (fun c => Channel (chan_sound c) volume (chan_looping c)) name).

Definition channel_stop (name : string) : M world unit :=
  mixer_init_check;;
  set_channels (alter (fun c => Channel (chan_sound c) (chan_volume c) false) name).

Definition mixer_quit : M world unit :=
  modify (fun w => World (stdout w) (random w) false (window_destroyed w)
                     (sounds w) (channels w) (volume_vars w) (value_labels w)).

Definition master_destroy : M world unit :=
  w ← get;
  if window_destroyed w
  then raise (TclError
    "can't invoke 'destroy' command: application has been destroyed")
  else modify (fun w => World (stdout w) (random w) (mixer_initialized w) true
                          (sounds w) (channels w) (volume_vars w)
                          (value_labels w)).

Definition _init_audio (h : host) : M world unit :=
  match init_error h with
  | Some err => raise (PygameError err)
  | None =>
      modify (fun w => World (stdout w) (random w) true (window_destroyed w)
                         (sounds w) (channels w) (volume_vars w)
                         (value_labels w))
  end.

(** [for x in xs: body x]. *)
Fixpoint for_each {S A} (xs : list A) (body : A -> M S unit) : M S unit :=
  match xs with
  | [] => ret tt
  | x :: rest => body x;; for_each rest body
  end.

Definition half : spec_float :=
  Eval vm_compute in div float64 (Py.float_of_int 1) (Py.float_of_int 2).
Definition fifty : spec_float := Eval vm_compute in Py.float_of_int 50.

Definition _build_sounds (h : host) : M world unit :=
  for_each SOUND_PROFILES (fun p =>
    s ← _load_sound h p;
    name ← lift (Py.getitem p "name" ≫= as_str);
    channel_play name s;;
    channel_set_volume name half;;
    modify (fun w => World (stdout w) (random w) (mixer_initialized w)
                       (window_destroyed w) (<[name := s]> (sounds w))
                       (channels w) (volume_vars w) (value_labels w))).

Definition _build_ui : M world unit :=
  for_each SOUND_PROFILES (fun p =>
    name ← lift (Py.getitem p "name" ≫= as_str);
    modify (fun w => World (stdout w) (random w) (mixer_initialized w)
                       (window_destroyed w) (sounds w) (channels w)
                       (<[name := fifty]> (volume_vars w))
                       (<[name := "50%"]> (value_labels w)))).

(** [AmbientMixerApp.__init__], from an empty application object. *)
Definition __init__ (h : host) : M world unit :=
  modify (fun w => World (stdout w) (random w) (mixer_initialized w)
                     (window_destroyed w) ∅ ∅ ∅ ∅);;
  _init_audio h;;
  _build_sounds h;;
  _build_ui.

(** [max(0.0, min(raw_value / 100.0, 1.0))], the division done. *)
Definition clamped_gain (raw_value : spec_float) : spec_float :=
  Py.max Py.zero (Py.min (div float64 raw_value Py.hundred) Py.one).

Definition on_volume_change (name : string) (raw_value : spec_float) : M world unit :=
  quotient ← lift (Py.truediv raw_value Py.hundred);
  let volume := Py.max Py.zero (Py.min quotient Py.one) in
  w ← get;
  (if bool_decide (is_Some (channels w !! name))
   then channel_set_volume name volume else ret tt);;
  w ← get;
  if bool_decide (is_Some (value_labels w !! name)) then
    percent ← lift (Py.int (Py.float_mul volume Py.hundred));
    modify (fun w => World (stdout w) (random w) (mixer_initialized w)
                       (window_destroyed w) (sounds w) (channels w)
                       (volume_vars w)
                       (<[name := pretty percent +:+ "%"]> (value_labels w)))
  else ret tt.

Definition on_close : M world unit :=
  w ← get;
  for_each (map_to_list (channels w)).*1 channel_stop;;
  mixer_quit;;
  master_destroy.


(** ** Notions the statements are written with *)

(** A channel after [stop]: same sound and gain, no longer looping. *)
Definition stopped (c : channel) : channel :=
  Channel (chan_sound c) (chan_volume c) false.

(** The world with its channel table replaced. *)
Definition with_channels (w : world) (cs : gmap string channel) : world :=
  World (stdout w) (random w) (mixer_initialized w) (window_destroyed w)
        (sounds w) cs (volume_vars w) (value_labels w).

(** The number one with the shortest mantissa; it compares equal to
    [Py.one]. *)
Definition unit_float : spec_float := S754_finite false 1 0.

(** The magnitude of a value is not above one. *)
Definition within_unit (x : spec_float) : Prop :=
  leb (SFabs x) unit_float = true.

(** Unfolds the sequencing of the state and error monad. *)
Ltac run_monad :=
  cbv beta iota delta
    [mbind mret M_bind M_ret result_bind result_ret bind ret raise lift get
     modify print try_except_ValueError].

(** ** Surroundings used in the examples *)

(** Every sound file is present and decodes; a stereo mixer. *)
Definition host_with_files : host :=
  Host "/app" (fun _ => true) (fun _ => None) None (44100, -16, 2)
       (fun _ => None) (fun _ => 0).

(** No sound file is present. *)
Definition host_without_files : host :=
  Host "/app" (fun _ => false) (fun _ => None) None (44100, -16, 2)
       (fun _ => None) (fun _ => 0).


(** A fixed supply of variates: these twelve values, then zeros. *)
Definition noise_table : list spec_float :=
  Eval vm_compute in
    of_Z float64 <$> [-3; 5; 2; -7; 1; 4; -6; 3; 0; -2; 6; -1].

(** A process that has not started anything yet. *)
Definition fresh_world : world :=
  World [] (fun i => default (S754_zero false) (noise_table !! i))
        false false ∅ ∅ ∅ ∅.

(** The process once [_init_audio] has run: the mixer is initialised and
    nothing is loaded yet. *)
Definition audio_ready : world :=
  World [] (random fresh_world) true false ∅ ∅ ∅ ∅.

(** Room for 2^30 bytes of arrays; a larger request gets a [MemoryError]. *)
Definition roomy : Np.memory :=
  Np.Memory (2 ^ 30) (fun _ => MemoryError "Unable to allocate the array").

(** The process once [__init__] has run with every file in place. *)
Definition running_world : world := snd (__init__ host_with_files fresh_world).

(** A generator of 2^-12 s of white noise: ten samples. *)
Definition short_noise : Py.value generator :=
  Py.Callable
    (with_random
       (generate_white_noise roomy (S754_finite false 4503599627370496 (-64)))).


(** A generator of zero seconds of white noise: no sample. *)
Definition no_noise : Py.value generator :=
  Py.Callable (with_random (generate_white_noise roomy Py.zero)).

(** ** The script around the application *)

(** How the process ends: [main] returns, [sys.exit(code)] is called, or an
    exception is left unhandled. *)
Inductive termination :=
  | Returned
  | SystemExit (code : Z)
  | Uncaught (e : exn).

(** [main()].  [tk_error] is the [TclError] of [tk.Tk()], if it raises;
    [mainloop] is what the callbacks run by [root.mainloop()] do to the
    application until the window is gone (Tk reports an exception raised in
    a callback and carries on, so none leaves [mainloop]). *)
Definition main (tk_error : option string) (h : host) (mainloop : world -> world)
  : world -> termination * world :=
  fun w =>
    match tk_error with
    | Some err =>
        (SystemExit 1, snd (print ("Unable to start the GUI: " +:+ err) w))
    | None =>
        match __init__ h w with
        | (Ok _, w') => (Returned, mainloop w')
        | (Raise e, w') => (Uncaught e, w')
        end
    end.

(** The [if __name__ == "__main__"] block: [pygame.error] is reported and
    turned into exit status 1; anything else passes. *)
Definition script (tk_error : option string) (h : host)
    (mainloop : world -> world) : world -> termination * world :=
  fun w =>
    match main tk_error h mainloop w with
    | (Uncaught (PygameError err), w') =>
        (SystemExit 1, snd (print ("Audio subsystem error: " +:+ err) w'))
    | r => r
    end.

(** The one event of a short run: the user closes the window, and Tk calls
    the [WM_DELETE_WINDOW] handler. *)
Definition window_closed : world -> world := fun w => snd (on_close w).

(** The application state after one more profile has been loaded from its
    file and set playing. *)
Definition with_loaded (h : host) (w : world) (p : string * string) : world :=
  let s := FileSound (SOUNDS_DIR h +:+ "/" +:+ p.2) in
  World (stdout w) (random w) (mixer_initialized w) (window_destroyed w)
        (<[p.1 := s]> (sounds w))
        (<[p.1 := Channel s half true]> (channels w))
        (volume_vars w) (value_labels w).

(** The mixer cannot be opened. *)
Definition host_without_audio : host :=
  Host "/app" (fun _ => true) (fun _ => None) (Some "No available audio device")
       (44100, -16, 2) (fun _ => None) (fun _ => 0).

(** Every file is present except [fire.wav]. *)
Definition host_missing_fire : host :=
  Host "/app" (fun path => negb (String.eqb path "/app/sounds-wav/fire.wav"))
       (fun _ => None) None (44100, -16, 2) (fun _ => None) (fun _ => 0).
(** * Properties *)

(** ** Rounding in a binary format

    The facts about [binary_round_aux] the program's arithmetic relies on:
    what it keeps of the exact value, and that it stays within any bound the
    format can represent. *)

Module Rounding.

Lemma digits2_pos_bounds (p : positive) :
  2 ^ (Zpos (digits2_pos p) - 1) <= Zpos p < 2 ^ Zpos (digits2_pos p).
Proof.
  induction p as [p IH | p IH |]; simpl digits2_pos.
  - rewrite Pos2Z.inj_succ. change (Z.pos p~1) with (2 * Z.pos p + 1).
    replace (Z.succ (Zpos (digits2_pos p)) - 1) with (Z.succ (Zpos (digits2_pos p) - 1)) by lia.
    rewrite !Z.pow_succ_r by lia. lia.
  - rewrite Pos2Z.inj_succ. change (Z.pos p~0) with (2 * Z.pos p).
    replace (Z.succ (Zpos (digits2_pos p)) - 1) with (Z.succ (Zpos (digits2_pos p) - 1)) by lia.
    rewrite !Z.pow_succ_r by lia. lia.
  - simpl. lia.
Qed.

Lemma Zdigits2_nonneg (m : Z) : 0 <= Zdigits2 m.
Proof. destruct m; simpl; lia. Qed.

Lemma Zdigits2_bounds (m : Z) :
  0 < m -> 2 ^ (Zdigits2 m - 1) <= m < 2 ^ Zdigits2 m.
Proof. destruct m; try lia. intros _. apply digits2_pos_bounds. Qed.

Lemma Zdigits2_pos (m : Z) : 0 < m -> 0 < Zdigits2 m.
Proof. destruct m; simpl; lia. Qed.

(** The number of digits is fixed by the power of two above. *)
Lemma Zdigits2_le (m d : Z) : 0 <= d -> 0 <= m < 2 ^ d -> Zdigits2 m <= d.
Proof.
  intros Hd [Hm0 Hm].
  destruct (Z.eq_dec m 0) as [-> | Hne]; [simpl; lia |].
  destruct (Z_le_gt_dec (Zdigits2 m) d) as [|Hgt]; [assumption | exfalso].
  assert (H := Zdigits2_bounds m ltac:(lia)).
  assert (2 ^ d <= 2 ^ (Zdigits2 m - 1)) by (apply Z.pow_le_mono_r; lia).
  lia.
Qed.

Lemma Zdigits2_ge (m d : Z) : 0 <= d -> 2 ^ d <= m -> d < Zdigits2 m.
Proof.
  intros Hd Hm.
  assert (0 < 2 ^ d) by (apply Z.pow_pos_nonneg; lia).
  assert (H' := Zdigits2_bounds m ltac:(lia)).
  destruct (Z_lt_le_dec d (Zdigits2 m)) as [|Hle]; [assumption | exfalso].
  assert (2 ^ Zdigits2 m <= 2 ^ d) by (apply Z.pow_le_mono_r; lia).
  lia.
Qed.

Lemma Zdigits2_mono (m n : Z) : 0 <= m <= n -> Zdigits2 m <= Zdigits2 n.
Proof.
  intros [Hm Hmn].
  destruct (Z.eq_dec n 0) as [-> | Hn].
  - replace m with 0 by lia. lia.
  - apply Zdigits2_le; [apply Zdigits2_nonneg |].
    pose proof (Zdigits2_bounds n ltac:(lia)). lia.
Qed.

Lemma iter_pos_iter {A} (f : A -> A) (p : positive) (x : A) :
  @SpecFloat.iter_pos A f p x = Pos.iter f x p.
Proof.
  revert x. induction p as [p IH | p IH |]; intros x; simpl.
  - rewrite !IH. rewrite <- !Pos.iter_swap. reflexivity.
  - rewrite !IH. reflexivity.
  - reflexivity.
Qed.

(** *** Shifting right keeps track of what is cut off

    A mantissa [m] with location [loc_of a b] stands for [m + a/b]; one
    shift halves it. *)

Lemma loc_of_exact (b : Z) : loc_of 0 b = loc_Exact.
Proof. reflexivity. Qed.

Lemma shr_1_loc (m a b : Z) :
  0 <= m -> 0 <= a < b ->
  shr_1 (shr_record_of_loc m (loc_of a b)) =
  shr_record_of_loc (m / 2) (loc_of (m mod 2 * b + a) (2 * b)).
Proof.
  intros Hm Hab.
  assert (Hq : m = 2 * (m / 2) + m mod 2) by (apply Z.div_mod; lia).
  assert (Hr : 0 <= m mod 2 < 2) by (apply Z.mod_pos_bound; lia).
  assert (Hbit : m mod 2 = 0 \/ m mod 2 = 1) by lia.
  destruct m as [|p|p]; [| |lia].
  - change (0 / 2) with 0. change (0 mod 2) with 0.
    replace (0 * b + a) with a by lia.
    unfold loc_of. destruct (Z.eqb_spec a 0) as [->|Ha]; [reflexivity|].
    replace (2 * a ?= 2 * b) with Lt by (symmetry; apply Z.compare_lt_iff; lia).
    destruct (2 * a ?= b); reflexivity.
  - destruct p as [p|p|].
    + assert (Hd : Z.pos p~1 / 2 = Z.pos p)
        by (symmetry; apply Z.div_unique with (r := 1); lia).
      assert (Hm1 : Z.pos p~1 mod 2 = 1)
        by (symmetry; apply Z.mod_unique with (q := Z.pos p); lia).
      rewrite Hd, Hm1. unfold loc_of.
      destruct (Z.eqb_spec (1 * b + a) 0) as [|_]; [lia|].
      destruct (Z.eqb_spec a 0) as [->|Ha].
      * replace (2 * (1 * b + 0) ?= 2 * b) with Eq
          by (symmetry; apply Z.compare_eq_iff; lia).
        reflexivity.
      * replace (2 * (1 * b + a) ?= 2 * b) with Gt
          by (symmetry; apply Z.compare_gt_iff; lia).
        destruct (2 * a ?= b); reflexivity.
    + assert (Hd : Z.pos p~0 / 2 = Z.pos p)
        by (symmetry; apply Z.div_unique with (r := 0); lia).
      assert (Hm1 : Z.pos p~0 mod 2 = 0)
        by (symmetry; apply Z.mod_unique with (q := Z.pos p); lia).
      rewrite Hd, Hm1. replace (0 * b + a) with a by lia. unfold loc_of.
      destruct (Z.eqb_spec a 0) as [->|Ha]; [reflexivity|].
      replace (2 * a ?= 2 * b) with Lt by (symmetry; apply Z.compare_lt_iff; lia).
      destruct (2 * a ?= b); reflexivity.
    + change (1 / 2) with 0. change (1 mod 2) with 1. unfold loc_of.
      destruct (Z.eqb_spec (1 * b + a) 0) as [|_]; [lia|].
      destruct (Z.eqb_spec a 0) as [->|Ha].
      * replace (2 * (1 * b + 0) ?= 2 * b) with Eq
          by (symmetry; apply Z.compare_eq_iff; lia).
        reflexivity.
      * replace (2 * (1 * b + a) ?= 2 * b) with Gt
          by (symmetry; apply Z.compare_gt_iff; lia).
        destruct (2 * a ?= b); reflexivity.
Qed.

Lemma shr_iter_loc (n : nat) (m a b : Z) :
  0 <= m -> 0 <= a < b ->
  Nat.iter n shr_1 (shr_record_of_loc m (loc_of a b)) =
  shr_record_of_loc (m / 2 ^ Z.of_nat n)
    (loc_of (m mod 2 ^ Z.of_nat n * b + a) (2 ^ Z.of_nat n * b)).
Proof.
  intros Hm Hab. induction n as [|n IH].
  - simpl. rewrite Z.div_1_r, Z.mod_1_r. f_equal. f_equal; lia.
  - rewrite Nat2Z.inj_succ, Z.pow_succ_r by lia.
    assert (Hp : 0 < 2 ^ Z.of_nat n) by (apply Z.pow_pos_nonneg; lia).
    assert (Hr : 0 <= m mod 2 ^ Z.of_nat n < 2 ^ Z.of_nat n)
      by (apply Z.mod_pos_bound; lia).
    simpl Nat.iter. rewrite IH.
    rewrite shr_1_loc.
    + rewrite Z.div_div by lia.
      replace (2 ^ Z.of_nat n * 2) with (2 * 2 ^ Z.of_nat n) by lia.
      f_equal. f_equal; [|lia].
      rewrite (Z.mul_comm 2 (2 ^ Z.of_nat n)), Z.rem_mul_r by lia. lia.
    + apply Z.div_pos; lia.
    + nia.
Qed.

Lemma shr_loc (m a b e n : Z) :
  0 <= m -> 0 <= a < b ->
  shr (shr_record_of_loc m (loc_of a b)) e n =
  (shr_record_of_loc (m / 2 ^ Z.max 0 n)
     (loc_of (m mod 2 ^ Z.max 0 n * b + a) (2 ^ Z.max 0 n * b)),
   e + Z.max 0 n).
Proof.
  intros Hm Hab. destruct n as [|p|p]; simpl shr.
  - change (Z.max 0 0) with 0. simpl (2 ^ 0).
    rewrite Z.div_1_r, Z.mod_1_r, Z.add_0_r. do 3 f_equal; lia.
  - rewrite iter_pos_iter, Pos2Nat.inj_iter.
    change (nat_rect (fun _ => shr_record) ?x (fun _ => shr_1) ?k)
      with (Nat.iter k shr_1 x).
    rewrite shr_iter_loc by assumption.
    rewrite positive_nat_Z. replace (Z.max 0 (Z.pos p)) with (Z.pos p) by lia.
    reflexivity.
  - replace (Z.max 0 (Z.neg p)) with 0 by lia. simpl (2 ^ 0).
    rewrite Z.div_1_r, Z.mod_1_r, Z.add_0_r. do 3 f_equal; lia.
Qed.

Lemma shr_m_of_loc (m : Z) (l : location) : shr_m (shr_record_of_loc m l) = m.
Proof. destruct l as [|[]]; reflexivity. Qed.

Lemma loc_of_shr_record_of_loc (m : Z) (l : location) :
  loc_of_shr_record (shr_record_of_loc m l) = l.
Proof. destruct l as [|[]]; reflexivity. Qed.

(** Rounding to nearest even moves up by at most one, and only from the
    upper half. *)
Lemma round_nearest_even_loc (m a b : Z) :
  0 <= a < b ->
  let r := round_nearest_even m (loc_of a b) in
  m <= r <= m + 1 /\ (r = m + 1 -> b <= 2 * a) /\ (r = m -> 2 * a <= b).
Proof.
  intros Hab. unfold loc_of, round_nearest_even.
  destruct (Z.eqb_spec a 0) as [->|Ha]; [lia|].
  destruct (Z.compare_spec (2 * a) b) as [He|Hl|Hg].
  - destruct (Z.even m); lia.
  - lia.
  - lia.
Qed.

Lemma Zdigits2_div_pow2 (m n : Z) :
  0 <= n -> 2 ^ n <= m -> Zdigits2 (m / 2 ^ n) = Zdigits2 m - n.
Proof.
  intros Hn Hm.
  assert (Hp : 0 < 2 ^ n) by (apply Z.pow_pos_nonneg; lia).
  assert (Hd := Zdigits2_ge m n Hn Hm).
  assert (Hb := Zdigits2_bounds m ltac:(lia)).
  set (d := Zdigits2 m) in *.
  assert (Hlo : 2 ^ (d - 1 - n) <= m / 2 ^ n).
  { apply Z.div_le_lower_bound; [lia|].
    rewrite <- Z.pow_add_r by lia. replace (n + (d - 1 - n)) with (d - 1) by lia.
    lia. }
  assert (Hhi : m / 2 ^ n < 2 ^ (d - n)).
  { apply Z.div_lt_upper_bound; [lia|].
    rewrite <- Z.pow_add_r by lia. replace (n + (d - n)) with d by lia. lia. }
  assert (0 <= m / 2 ^ n) by (apply Z.div_pos; lia).
  apply Z.le_antisymm.
  - apply Zdigits2_le; lia.
  - assert (d - 1 - n < Zdigits2 (m / 2 ^ n)) by (apply Zdigits2_ge; lia). lia.
Qed.

Lemma pow2_pos (n : Z) : 0 <= n -> 0 < 2 ^ n.
Proof. intros. apply Z.pow_pos_nonneg; lia. Qed.

Lemma pow2_split (a b : Z) : 0 <= b <= a -> 2 ^ a = 2 ^ (a - b) * 2 ^ b.
Proof.
  intros. rewrite <- Z.pow_add_r by lia. f_equal. lia.
Qed.

(** Comparing at any exponent below both gives the same answer. *)
Lemma dyadic_compare_scale (c m1 e1 m2 e2 : Z) :
  c <= e1 -> c <= e2 ->
  dyadic_compare (m1, e1) (m2, e2) =
  (m1 * 2 ^ (e1 - c) ?= m2 * 2 ^ (e2 - c)).
Proof.
  intros H1 H2. unfold dyadic_compare. simpl fst. simpl snd.
  set (k := Z.min e1 e2).
  assert (Hk : c <= k) by (unfold k; lia).
  rewrite (pow2_split (e1 - c) (k - c)) by (unfold k; lia).
  rewrite (pow2_split (e2 - c) (k - c)) by (unfold k; lia).
  replace (e1 - c - (k - c)) with (e1 - k) by lia.
  replace (e2 - c - (k - c)) with (e2 - k) by lia.
  rewrite !Z.mul_assoc.
  apply Zmult_compare_compat_r. pose proof (pow2_pos (k - c)). lia.
Qed.

Lemma dyadic_compare_refl' (a : Z * Z) : dyadic_compare a a = Eq.
Proof. unfold dyadic_compare. apply Z.compare_refl. Qed.

Lemma digits_le_of_scaled (m1 e1 m2 e2 c : Z) :
  0 < m1 -> 0 < m2 -> c <= e1 -> c <= e2 ->
  m1 * 2 ^ (e1 - c) <= m2 * 2 ^ (e2 - c) ->
  Zdigits2 m1 + e1 <= Zdigits2 m2 + e2.
Proof.
  intros H1 H2 Hc1 Hc2 Hle.
  pose proof (Zdigits2_bounds m1 H1) as B1.
  pose proof (Zdigits2_bounds m2 H2) as B2.
  pose proof (Zdigits2_pos m1 H1) as P1.
  pose proof (Zdigits2_pos m2 H2) as P2.
  pose proof (pow2_pos (e1 - c) ltac:(lia)) as Q1.
  pose proof (pow2_pos (e2 - c) ltac:(lia)) as Q2.
  assert (Hlt : 2 ^ (Zdigits2 m1 - 1 + (e1 - c)) < 2 ^ (Zdigits2 m2 + (e2 - c))).
  { rewrite !Z.pow_add_r by lia. nia. }
  apply Z.pow_lt_mono_r_iff in Hlt; lia.
Qed.

Lemma new_location_loc_of (nb k : Z) :
  0 <= k < nb -> new_location nb k = loc_of k nb.
Proof.
  intros Hk. unfold new_location, new_location_even, new_location_odd, loc_of.
  pose proof (Zmod_even nb) as Hev.
  pose proof (Z.div_mod nb 2 ltac:(lia)) as Hdm.
  destruct (Z.even nb); destruct (Z.eqb_spec k 0); try reflexivity.
  f_equal.
  destruct (Z.compare_spec (2 * k + 1) nb);
    symmetry; [apply Z.compare_lt_iff | apply Z.compare_lt_iff
              | apply Z.compare_gt_iff]; lia.
Qed.

Lemma iter_xO_pow2 (p d : positive) :
  Z.pos (Pos.iter xO p d) = Z.pos p * 2 ^ Z.pos d.
Proof.
  apply (Pos.iter_ind _ xO p (fun d a => Z.pos a = Z.pos p * 2 ^ Z.pos d)).
  - change (Z.pos p~0) with (2 * Z.pos p). rewrite Z.pow_1_r. lia.
  - intros d' a' IH. change (Z.pos a'~0) with (2 * Z.pos a').
    rewrite Pos2Z.inj_succ, Z.pow_succ_r, IH by lia. ring.
Qed.

Lemma Zdigits2_mul_pow2 (m n : Z) :
  0 < m -> 0 <= n -> Zdigits2 (m * 2 ^ n) = Zdigits2 m + n.
Proof.
  intros Hm Hn.
  pose proof (pow2_pos n Hn) as Hp.
  pose proof (Zdigits2_bounds m Hm) as Hb.
  pose proof (Zdigits2_pos m Hm) as Hd.
  apply Z.le_antisymm.
  - apply Zdigits2_le; [lia|]. rewrite Z.pow_add_r by lia. nia.
  - assert (Zdigits2 m - 1 + n < Zdigits2 (m * 2 ^ n)).
    { apply Zdigits2_ge; [lia|]. rewrite Z.pow_add_r by lia. nia. }
    lia.
Qed.

(** [shl_align] lowers the exponent to the target when it lies below. *)
Lemma shl_align_spec (p : positive) (e e' : Z) :
  let e2 := Z.min e e' in
  exists p', shl_align p e e' = (p', e2) /\ Z.pos p' = Z.pos p * 2 ^ (e - e2).
Proof.
  unfold shl_align. destruct (e' - e) as [|d|d] eqn:Hd; cbv zeta.
  - exists p. replace (Z.min e e') with e by lia.
    rewrite Z.sub_diag. simpl (2 ^ 0). split; [reflexivity | lia].
  - exists p. replace (Z.min e e') with e by lia.
    rewrite Z.sub_diag. simpl (2 ^ 0). split; [reflexivity | lia].
  - exists (Pos.iter xO p d). replace (Z.min e e') with e' by lia.
    split; [reflexivity|]. rewrite iter_xO_pow2. f_equal. f_equal. lia.
Qed.

Section Format.
Variables prec emax : Z.
Hypothesis Hprec : 0 < prec.
Hypothesis Hemax : prec < emax.

Local Abbreviation fexp := (SpecFloat.fexp prec emax).
Local Abbreviation emin := (SpecFloat.emin prec emax).

Lemma fexp_mono (x y : Z) : x <= y -> fexp x <= fexp y.
Proof. unfold SpecFloat.fexp. lia. Qed.

Lemma fexp_step (x : Z) : fexp (x + 1) <= fexp x + 1.
Proof. unfold SpecFloat.fexp. lia. Qed.

Lemma fexp_emin (x : Z) : emin <= fexp x.
Proof. unfold SpecFloat.fexp. lia. Qed.

Lemma fexp_cases (x : Z) : fexp x = x - prec \/ fexp x = emin.
Proof. unfold SpecFloat.fexp. lia. Qed.

Lemma shr_fexp_loc (m e a b : Z) :
  0 <= m -> 0 <= a < b ->
  let k := Z.max 0 (fexp (Zdigits2 m + e) - e) in
  shr_fexp prec emax m e (loc_of a b) =
  (shr_record_of_loc (m / 2 ^ k) (loc_of (m mod 2 ^ k * b + a) (2 ^ k * b)),
   e + k).
Proof. intros Hm Hab k. unfold shr_fexp. apply shr_loc; assumption. Qed.

Lemma binary_round_aux_unfold (s : bool) (m e a b : Z) :
  0 <= m -> 0 <= a < b ->
  let k1 := Z.max 0 (fexp (Zdigits2 m + e) - e) in
  let e1 := e + k1 in
  let mr := round_nearest_even (m / 2 ^ k1)
              (loc_of (m mod 2 ^ k1 * b + a) (2 ^ k1 * b)) in
  let k2 := Z.max 0 (fexp (Zdigits2 mr + e1) - e1) in
  binary_round_aux prec emax s m e (loc_of a b) =
  match mr / 2 ^ k2 with
  | Z0 => S754_zero s
  | Zpos p =>
      if e1 + k2 <=? emax - prec then S754_finite s p (e1 + k2)
      else S754_infinity s
  | Zneg _ => S754_nan
  end.
Proof.
  intros Hm Hab k1 e1 mr k2. unfold binary_round_aux.
  rewrite shr_fexp_loc by assumption. cbv zeta. cbv iota.
  rewrite shr_m_of_loc, loc_of_shr_record_of_loc.
  fold k1 e1 mr.
  assert (Hp : 0 < 2 ^ k1) by (apply Z.pow_pos_nonneg; lia).
  assert (Hm1 : 0 <= m / 2 ^ k1) by (apply Z.div_pos; lia).
  assert (Hr : 0 <= m mod 2 ^ k1 < 2 ^ k1) by (apply Z.mod_pos_bound; lia).
  assert (Hmr : 0 <= mr).
  { pose proof (round_nearest_even_loc (m / 2 ^ k1)
                  (m mod 2 ^ k1 * b + a) (2 ^ k1 * b) ltac:(nia)) as H.
    cbv zeta in H. fold mr in H. lia. }
  change loc_Exact with (loc_of 0 1).
  rewrite shr_fexp_loc by lia. cbv zeta. cbv iota.
  rewrite shr_m_of_loc. fold k2. reflexivity.
Qed.

(** What [binary_round_aux] returns for the exact value [(m + a/b) * 2^e],
    when [e] is not above the exponent the format gives that value: the
    mantissa is cut at that exponent, moved up by at most one, and the
    result is in canonical form. *)
Lemma binary_round_aux_spec (s : bool) (m e a b : Z) :
  0 <= m -> 0 <= a < b -> e <= fexp (Zdigits2 m + e) ->
  let e1 := fexp (Zdigits2 m + e) in
  let k1 := e1 - e in
  let m1 := m / 2 ^ k1 in
  let a1 := m mod 2 ^ k1 * b + a in
  let b1 := 2 ^ k1 * b in
  exists mr m2 e2,
    m1 <= mr <= m1 + 1 /\ (mr = m1 + 1 -> b1 <= 2 * a1) /\
    (mr = m1 -> 2 * a1 <= b1) /\
    e1 <= e2 <= e1 + 1 /\ mr = m2 * 2 ^ (e2 - e1) /\ 0 <= m2 /\
    (0 < m2 -> fexp (Zdigits2 m2 + e2) = e2) /\
    binary_round_aux prec emax s m e (loc_of a b) =
    match m2 with
    | Zpos p =>
        if e2 <=? emax - prec then S754_finite s p e2 else S754_infinity s
    | _ => S754_zero s
    end.
Proof.
  intros Hm Hab Hexp e1 k1 m1 a1 b1.
  rewrite binary_round_aux_unfold by assumption. cbv zeta.
  replace (Z.max 0 (fexp (Zdigits2 m + e) - e)) with k1 by (unfold k1, e1; lia).
  replace (e + k1) with e1 by (unfold k1; lia).
  fold m1 a1 b1.
  assert (Hk1 : 0 <= k1) by (unfold k1, e1; lia).
  assert (Hp : 0 < 2 ^ k1) by (apply Z.pow_pos_nonneg; lia).
  assert (Hm1 : 0 <= m1) by (apply Z.div_pos; lia).
  assert (Hr : 0 <= m mod 2 ^ k1 < 2 ^ k1) by (apply Z.mod_pos_bound; lia).
  assert (Hab1 : 0 <= a1 < b1) by (unfold a1, b1; nia).
  pose proof (round_nearest_even_loc m1 a1 b1 Hab1) as Hrne. cbv zeta in Hrne.
  set (mr := round_nearest_even m1 (loc_of a1 b1)) in *.
  destruct Hrne as (Hmr & Hup & Hdown).
  set (D := Zdigits2 m1).
  assert (HD : 0 <= D) by apply Zdigits2_nonneg.
  assert (HA : fexp (D + e1) <= e1 /\ (0 < m1 -> fexp (D + e1) = e1) /\
               (m1 = 0 -> e1 = emin)).
  { destruct (Z_le_gt_dec (2 ^ k1) m) as [Hbig | Hsmall].
    - assert (HDeq : D = Zdigits2 m - k1) by (apply Zdigits2_div_pow2; assumption).
      assert (0 < m1).
      { apply Z.div_str_pos; lia. }
      replace (D + e1) with (Zdigits2 m + e) by (unfold k1 in HDeq; lia).
      fold e1. lia.
    - assert (Hz : m1 = 0) by (apply Z.div_small; lia).
      assert (HD0 : D = 0) by (unfold D; rewrite Hz; reflexivity).
      rewrite HD0. pose proof (fexp_emin (Zdigits2 m + e)) as Hge. fold e1 in Hge.
      assert (Hd : Zdigits2 m <= k1) by (apply Zdigits2_le; lia).
      assert (He1 : e1 = emin).
      { destruct (fexp_cases (Zdigits2 m + e)) as [Hc | Hc]; fold e1 in Hc; [|exact Hc].
        unfold k1 in Hd. lia. }
      split; [|split]; [| lia | auto].
      destruct (fexp_cases (0 + e1)) as [Hc | Hc]; lia. }
  destruct HA as (HA1 & HA2 & HA3).
  assert (Hm1D : m1 < 2 ^ D).
  { destruct (Z.eq_dec m1 0) as [Hz | Hnz].
    - rewrite Hz. apply Z.pow_pos_nonneg; lia.
    - apply Zdigits2_bounds. lia. }
  assert (HDr : Zdigits2 mr <= D + 1).
  { apply Zdigits2_le; [lia|]. rewrite Z.pow_add_r, Z.pow_1_r by lia. lia. }
  pose proof (fexp_mono _ _ (proj1 (Z.add_le_mono_r _ _ e1) HDr)) as Hf1.
  pose proof (fexp_step (D + e1)) as Hf2.
  replace (D + e1 + 1) with (D + 1 + e1) in Hf2 by lia.
  set (k2 := Z.max 0 (fexp (Zdigits2 mr + e1) - e1)).
  destruct (Z.eq_dec k2 0) as [Hk2 | Hk2].
  - (* no second shift *)
    exists mr, mr, e1.
    rewrite Hk2, Z.add_0_r. simpl (2 ^ 0). rewrite Z.div_1_r.
    replace (e1 - e1) with 0 by lia. simpl (2 ^ 0).
    repeat split; try lia; try assumption.
    + intros Hpos. apply Z.le_antisymm; [unfold k2 in Hk2; lia|].
      destruct (Z.eq_dec m1 0) as [Hz | Hnz].
      * rewrite (HA3 Hz). apply fexp_emin.
      * rewrite <- (HA2 ltac:(lia)) at 1. apply fexp_mono.
        pose proof (Zdigits2_mono m1 mr ltac:(lia)). fold D in H. lia.
    + destruct mr; try reflexivity. lia.
  - (* the mantissa reached the next power of two *)
    assert (Hk21 : fexp (Zdigits2 mr + e1) = e1 + 1) by (unfold k2 in *; lia).
    assert (HDr' : Zdigits2 mr = D + 1).
    { destruct (Z_le_gt_dec (Zdigits2 mr) D) as [Hle | Hgt]; [|lia].
      pose proof (fexp_mono _ _ (proj1 (Z.add_le_mono_r _ _ e1) Hle)). lia. }
    assert (Hmrpos : 0 < mr).
    { destruct (Z.eq_dec mr 0) as [Hz | Hnz]; [|lia].
      rewrite Hz in HDr'. simpl in HDr'. lia. }
    pose proof (Zdigits2_bounds mr Hmrpos) as Hb. rewrite HDr' in Hb.
    replace (D + 1 - 1) with D in Hb by lia.
    assert (Hmr2 : mr = 2 ^ D) by lia.
    assert (HD1 : 1 <= D).
    { destruct (Z.eq_dec D 0) as [HD0 | HDn]; [|lia]. exfalso.
      rewrite HDr', HD0 in Hk21. rewrite HD0 in HA1.
      unfold SpecFloat.fexp in Hk21, HA1. lia. }
    assert (Hk2' : k2 = 1) by (unfold k2; lia).
    assert (Hhalf : mr / 2 ^ k2 = 2 ^ (D - 1)).
    { rewrite Hk2', Hmr2, Z.pow_1_r.
      replace D with (Z.succ (D - 1)) at 1 by lia.
      rewrite Z.pow_succ_r by lia. rewrite Z.mul_comm, Z.div_mul by lia.
      reflexivity. }
    assert (Hpw : 0 < 2 ^ (D - 1)) by (apply Z.pow_pos_nonneg; lia).
    exists mr, (2 ^ (D - 1)), (e1 + 1).
    rewrite Hhalf, Hk2'.
    replace (e1 + 1 - e1) with 1 by lia. rewrite Z.pow_1_r.
    repeat split; try lia; try assumption.
    + rewrite Hmr2. replace D with (Z.succ (D - 1)) at 1 by lia.
      rewrite Z.pow_succ_r by lia. lia.
    + intros _.
      assert (HDh : Zdigits2 (2 ^ (D - 1)) = D).
      { apply Z.le_antisymm.
        - apply Zdigits2_le; [lia|]. split; [lia|].
          apply Z.pow_lt_mono_r; lia.
        - pose proof (Zdigits2_ge (2 ^ (D - 1)) (D - 1) ltac:(lia) ltac:(lia)).
          lia. }
      rewrite HDh. rewrite HDr' in Hk21.
      replace (D + (e1 + 1)) with (D + 1 + e1) by lia. exact Hk21.
    + destruct (2 ^ (D - 1)); try reflexivity; lia.
Qed.

(** A canonical mantissa within range rounds to itself. *)
Lemma binary_round_aux_exact (s : bool) (p : positive) (e : Z) :
  bounded prec emax p e = true ->
  binary_round_aux prec emax s (Zpos p) e loc_Exact = S754_finite s p e.
Proof.
  unfold bounded, canonical_mantissa. intros Hb.
  apply andb_true_iff in Hb. destruct Hb as [Hc He].
  apply Z.eqb_eq in Hc. apply Z.leb_le in He.
  unfold binary_round_aux, shr_fexp. simpl Zdigits2.
  rewrite Hc, Z.sub_diag. simpl. rewrite Hc, Z.sub_diag. simpl.
  destruct (Z.leb_spec e (emax - prec)); [reflexivity | lia].
Qed.

(** The result is always a well-formed value of the format. *)
Lemma binary_round_aux_valid (s : bool) (m e a b : Z) :
  0 <= m -> 0 <= a < b -> e <= fexp (Zdigits2 m + e) ->
  valid_binary prec emax (binary_round_aux prec emax s m e (loc_of a b)) = true.
Proof.
  intros Hm Hab Hexp.
  destruct (binary_round_aux_spec s m e a b Hm Hab Hexp)
    as (mr & m2 & e2 & _ & _ & _ & _ & _ & Hm2 & Hcan & ->).
  destruct m2 as [|p|p]; try reflexivity.
  destruct (Z.leb_spec e2 (emax - prec)) as [Hle|Hgt]; [|reflexivity].
  simpl. unfold bounded, canonical_mantissa.
  specialize (Hcan ltac:(lia)). simpl in Hcan.
  apply andb_true_iff. split; [apply Z.eqb_eq | apply Z.leb_le]; assumption.
Qed.

(** Rounding stays below every bound that lies on the format's grid:
    for an exact value [(m + a/b) * 2^e] not above [mb * 2^eb], so is
    the rounded one, and it does not overflow. *)
Lemma binary_round_aux_upper (s : bool) (m e a b mb eb c : Z) :
  0 <= m -> 0 <= a < b -> e <= fexp (Zdigits2 m + e) ->
  0 < mb -> fexp (Zdigits2 mb + eb) <= eb -> eb <= emax - prec ->
  c <= e -> c <= eb ->
  (m * b + a) * 2 ^ (e - c) <= mb * 2 ^ (eb - c) * b ->
  exists m2 e2,
    0 <= m2 /\
    binary_round_aux prec emax s m e (loc_of a b) =
      match m2 with
      | Zpos p => S754_finite s p e2
      | _ => S754_zero s
      end /\
    (0 < m2 -> fexp (Zdigits2 m2 + e2) = e2 /\ e2 <= eb) /\
    dyadic_compare (m2, e2) (mb, eb) <> Gt.
Proof.
  intros Hm Hab Hexp Hmb Hgrid Hbnd Hce Hceb Hle.
  destruct (binary_round_aux_spec s m e a b Hm Hab Hexp)
    as (mr & m2 & e2 & Hmr & Hup & _ & He2 & Hmr2 & Hm2 & Hcan & Hres).
  cbv zeta in *.
  set (e1 := fexp (Zdigits2 m + e)) in *.
  set (k1 := e1 - e) in *.
  assert (Hk1 : 0 <= k1) by (unfold k1; lia).
  pose proof (pow2_pos k1 Hk1) as Hp1.
  pose proof (pow2_pos (e - c) ltac:(lia)) as Hpc.
  pose proof (Z.div_mod m (2 ^ k1) ltac:(lia)) as Hdm.
  pose proof (Z.mod_pos_bound m (2 ^ k1) Hp1) as Hrm.
  set (m1 := m / 2 ^ k1) in *. set (r1 := m mod 2 ^ k1) in *.
  assert (Hm1 : 0 <= m1) by (apply Z.div_pos; lia).
  (* the bound lies on the grid the value is rounded on *)
  assert (He1 : e1 <= eb).
  { destruct (Z.eq_dec m 0) as [Hz | Hnz].
    - assert (e1 = emin).
      { unfold e1. rewrite Hz. simpl Zdigits2.
        destruct (fexp_cases (0 + e)) as [Hc | Hc]; [|exact Hc].
        unfold e1 in Hexp. rewrite Hz in Hexp. simpl Zdigits2 in Hexp. lia. }
      pose proof (fexp_emin (Zdigits2 mb + eb)). lia.
    - assert (Hmle : m * 2 ^ (e - c) <= mb * 2 ^ (eb - c)).
      { pose proof (pow2_pos (eb - c) ltac:(lia)). nia. }
      pose proof (digits_le_of_scaled m e mb eb c ltac:(lia) Hmb Hce Hceb Hmle).
      pose proof (fexp_mono _ _ H). unfold e1. lia. }
  (* the bound, counted in units of the grid *)
  set (K := mb * 2 ^ (eb - e1)).
  assert (HK : (m * b + a) <= K * (2 ^ k1 * b)).
  { unfold K. rewrite (pow2_split (eb - c) (e - c)) in Hle by lia.
    replace (eb - c - (e - c)) with (eb - e) in Hle by lia.
    rewrite (pow2_split (eb - e) k1) in Hle by (unfold k1; lia).
    replace (eb - e - k1) with (eb - e1) in Hle by (unfold k1; lia).
    nia. }
  assert (HmrK : mr <= K).
  { set (B1 := 2 ^ k1 * b) in *.
    assert (HB1 : 0 < B1) by (unfold B1; nia).
    assert (HK' : m1 * B1 + (r1 * b + a) <= K * B1).
    { replace (m1 * B1 + (r1 * b + a)) with (m * b + a); [exact HK|].
      unfold B1. rewrite Hdm at 1. ring. }
    assert (Hr1 : 0 <= r1 * b + a) by nia.
    destruct (Z.eq_dec mr (m1 + 1)) as [Hplus | Hsame].
    - specialize (Hup Hplus).
      assert (m1 * B1 < K * B1) by lia.
      apply Z.mul_lt_mono_pos_r in H; lia.
    - assert (mr = m1) by lia.
      assert (m1 * B1 <= K * B1) by lia.
      apply Z.mul_le_mono_pos_r in H0; lia. }
  assert (Hcmp : dyadic_compare (m2, e2) (mb, eb) <> Gt).
  { rewrite (dyadic_compare_scale e1) by lia.
    unfold K in HmrK. rewrite Hmr2 in HmrK.
    intros Hgt. apply Z.compare_gt_iff in Hgt. lia. }
  exists m2, e2. split; [exact Hm2|]. split; [|split; [|exact Hcmp]].
  - rewrite Hres. destruct m2 as [|p|p]; try reflexivity.
    destruct (Z.leb_spec e2 (emax - prec)) as [Hok|Hov]; [reflexivity|].
    exfalso. specialize (Hcan ltac:(lia)).
    rewrite (dyadic_compare_scale e1) in Hcmp by lia.
    assert (Hsc : Z.pos p * 2 ^ (e2 - e1) <= mb * 2 ^ (eb - e1)).
    { destruct (Z.compare_spec (Z.pos p * 2 ^ (e2 - e1)) (mb * 2 ^ (eb - e1)));
        first [lia | congruence]. }
    pose proof (digits_le_of_scaled (Z.pos p) e2 mb eb e1
                  ltac:(lia) Hmb ltac:(lia) He1 Hsc) as Hd.
    pose proof (fexp_mono _ _ Hd). lia.
  - intros Hpos. specialize (Hcan Hpos). split; [exact Hcan|].
    rewrite (dyadic_compare_scale e1) in Hcmp by lia.
    assert (Hsc : m2 * 2 ^ (e2 - e1) <= mb * 2 ^ (eb - e1)).
    { destruct (Z.compare_spec (m2 * 2 ^ (e2 - e1)) (mb * 2 ^ (eb - e1)));
        first [lia | congruence]. }
    pose proof (digits_le_of_scaled m2 e2 mb eb e1
                  Hpos Hmb ltac:(lia) He1 Hsc) as Hd.
    pose proof (fexp_mono _ _ Hd). lia.
Qed.

Lemma emin_nonpos : emin <= 0.
Proof. unfold SpecFloat.emin. lia. Qed.

Lemma bounded_spec (p : positive) (e : Z) :
  bounded prec emax p e = true <->
  fexp (Zdigits2 (Z.pos p) + e) = e /\ e <= emax - prec.
Proof.
  unfold bounded, canonical_mantissa. rewrite andb_true_iff, Z.eqb_eq, Z.leb_le.
  reflexivity.
Qed.

(** The exponent of a product of two well-formed values is not above
    the one the format gives the product. *)
Lemma mul_exp_ok (p1 p2 : positive) (e1 e2 : Z) :
  bounded prec emax p1 e1 = true -> bounded prec emax p2 e2 = true ->
  e1 + e2 <= fexp (Zdigits2 (Z.pos (p1 * p2)) + (e1 + e2)).
Proof.
  intros H1 H2. apply bounded_spec in H1, H2.
  destruct H1 as [C1 _], H2 as [C2 _].
  pose proof (Zdigits2_bounds (Z.pos p1) ltac:(lia)) as B1.
  pose proof (Zdigits2_bounds (Z.pos p2) ltac:(lia)) as B2.
  pose proof (Zdigits2_pos (Z.pos p1) ltac:(lia)) as P1.
  pose proof (Zdigits2_pos (Z.pos p2) ltac:(lia)) as P2.
  assert (HD : Zdigits2 (Z.pos p1) - 1 + (Zdigits2 (Z.pos p2) - 1)
               < Zdigits2 (Z.pos (p1 * p2))).
  { apply Zdigits2_ge; [lia|]. rewrite Z.pow_add_r by lia.
    rewrite Pos2Z.inj_mul. nia. }
  pose proof emin_nonpos.
  unfold SpecFloat.fexp in *. lia.
Qed.

Lemma div_core_spec (p1 p2 : positive) (e1 e2 : Z) :
  let e' := Z.min (fexp (Zdigits2 (Z.pos p1) + e1 - (Zdigits2 (Z.pos p2) + e2)))
                  (e1 - e2) in
  let s := e1 - e2 - e' in
  let q := (Z.pos p1 * 2 ^ s) / Z.pos p2 in
  let r := (Z.pos p1 * 2 ^ s) mod Z.pos p2 in
  SFdiv_core_binary prec emax (Z.pos p1) e1 (Z.pos p2) e2
    = (q, e', loc_of r (Z.pos p2)) /\
  0 <= s /\ 0 <= q /\ 0 <= r < Z.pos p2 /\
  q * Z.pos p2 + r = Z.pos p1 * 2 ^ s /\
  e' <= fexp (Zdigits2 q + e') /\
  fexp (Zdigits2 (Z.pos p1) + e1 - (Zdigits2 (Z.pos p2) + e2))
    <= fexp (Zdigits2 q + e').
Proof.
  intros e' s q r.
  assert (Hs : 0 <= s) by (unfold s, e'; lia).
  pose proof (pow2_pos s Hs) as Hps.
  assert (Hr : 0 <= r < Z.pos p2) by (apply Z.mod_pos_bound; lia).
  assert (Hq : 0 <= q) by (apply Z.div_pos; lia).
  assert (Hqr : q * Z.pos p2 + r = Z.pos p1 * 2 ^ s).
  { unfold q, r. pose proof (Z.div_mod (Z.pos p1 * 2 ^ s) (Z.pos p2) ltac:(lia)).
    lia. }
  assert (Hmono : fexp (Zdigits2 (Z.pos p1) + e1 - (Zdigits2 (Z.pos p2) + e2))
                  <= fexp (Zdigits2 q + e')); [|
  assert (He'q : e' <= fexp (Zdigits2 q + e')) by (unfold e' in *; lia)].
  2: repeat split; try assumption; try lia.
  2: { unfold SFdiv_core_binary. fold e'. fold s.
    assert (Hm' : match s with
                  | Z.pos _ => Z.shiftl (Z.pos p1) s
                  | 0 => Z.pos p1
                  | Z.neg _ => 0
                  end = Z.pos p1 * 2 ^ s).
    { destruct s as [|s'|s'] eqn:Es; [simpl; lia | | lia].
      apply Z.shiftl_mul_pow2. lia. }
    rewrite Hm'.
    assert (Hde : Z.div_eucl (Z.pos p1 * 2 ^ s) (Z.pos p2) = (q, r)).
    { unfold q, r, Z.div, Z.modulo.
      destruct (Z.div_eucl (Z.pos p1 * 2 ^ s) (Z.pos p2)). reflexivity. }
    rewrite Hde. rewrite new_location_loc_of by assumption. reflexivity. }
  { (* the quotient has at least the digits the exponent was chosen for *)
    set (d1 := Zdigits2 (Z.pos p1)) in *. set (d2 := Zdigits2 (Z.pos p2)) in *.
    pose proof (Zdigits2_bounds (Z.pos p1) ltac:(lia)) as B1. fold d1 in B1.
    pose proof (Zdigits2_bounds (Z.pos p2) ltac:(lia)) as B2. fold d2 in B2.
    pose proof (Zdigits2_pos (Z.pos p1) ltac:(lia)) as P1. fold d1 in P1.
    pose proof (Zdigits2_pos (Z.pos p2) ltac:(lia)) as P2. fold d2 in P2.
    assert (HD : d1 + s - d2 <= Zdigits2 q).
    { destruct (Z_le_gt_dec (d1 + s - d2) 0) as [Hsmall | Hbig].
      - pose proof (Zdigits2_nonneg q). lia.
      - assert (2 ^ (d1 - 1 + s - d2) <= q).
        { unfold q. apply Z.div_le_lower_bound; [lia|].
          pose proof (pow2_pos (d1 - 1 + s - d2) ltac:(lia)).
          assert (Z.pos p2 * 2 ^ (d1 - 1 + s - d2)
                  <= 2 ^ d2 * 2 ^ (d1 - 1 + s - d2)) by nia.
          rewrite <- Z.pow_add_r in H0 by lia.
          replace (d2 + (d1 - 1 + s - d2)) with (d1 - 1 + s) in H0 by lia.
          rewrite Z.pow_add_r in H0 by lia. nia. }
        pose proof (Zdigits2_ge q (d1 - 1 + s - d2) ltac:(lia) H). lia. }
    replace (d1 + e1 - (d2 + e2)) with (d1 + s - d2 + e') by (unfold s; lia).
    apply fexp_mono. lia. }
Qed.

(** From mantissa and exponent back to floating-point values. *)
Lemma below_bound (s : bool) (m2 e2 : Z) (pb : positive) (eb : Z) (r : spec_float) :
  0 <= m2 ->
  r = match m2 with
      | Zpos p => S754_finite s p e2
      | _ => S754_zero s
      end ->
  (0 < m2 -> fexp (Zdigits2 m2 + e2) = e2 /\ e2 <= eb) ->
  eb <= emax - prec ->
  dyadic_compare (m2, e2) (Z.pos pb, eb) <> Gt ->
  is_finite r = true /\ valid_binary prec emax r = true /\
  leb (SFabs r) (S754_finite false pb eb) = true /\
  (r = S754_zero s \/ exists p e, r = S754_finite s p e).
Proof.
  intros Hm2 -> Hcan Heb Hcmp. destruct m2 as [|p|p]; [| |lia].
  - repeat split; [|left; reflexivity].
    unfold leb, compare, SFabs, dyadic, dyadic_compare.
    cbn [fst snd cond_Zopp].
    pose proof (pow2_pos (eb - Z.min 0 eb) ltac:(lia)).
    destruct (Z.compare_spec (0 * 2 ^ (0 - Z.min 0 eb))
                (Z.pos pb * 2 ^ (eb - Z.min 0 eb))); first [reflexivity | lia].
  - destruct (Hcan ltac:(lia)) as [Hc He]. repeat split.
    + simpl. apply bounded_spec. split; [exact Hc | lia].
    + unfold leb, compare, SFabs, dyadic. cbn [cond_Zopp].
      destruct (dyadic_compare (Z.pos p, e2) (Z.pos pb, eb)); congruence.
    + right. eauto.
Qed.

Lemma SFmul_valid (x y : spec_float) :
  valid_binary prec emax x = true -> valid_binary prec emax y = true ->
  valid_binary prec emax (SFmul prec emax x y) = true.
Proof.
  intros Hx Hy.
  destruct x as [sx|sx| |sx p1 e1], y as [sy|sy| |sy p2 e2]; try reflexivity.
  simpl in Hx, Hy. unfold SFmul. change loc_Exact with (loc_of 0 1).
  apply binary_round_aux_valid; [lia | lia |].
  apply mul_exp_ok; assumption.
Qed.

(** A product of well-formed values stays below every representable
    bound on the exact product. *)
Lemma SFmul_upper (sx sy : bool) (p1 p2 pb : positive) (e1 e2 eb : Z) :
  bounded prec emax p1 e1 = true -> bounded prec emax p2 e2 = true ->
  fexp (Zdigits2 (Z.pos pb) + eb) <= eb -> eb <= emax - prec ->
  dyadic_compare (Z.pos p1 * Z.pos p2, e1 + e2) (Z.pos pb, eb) <> Gt ->
  let r := SFmul prec emax (S754_finite sx p1 e1) (S754_finite sy p2 e2) in
  is_finite r = true /\ valid_binary prec emax r = true /\
  leb (SFabs r) (S754_finite false pb eb) = true /\
  (r = S754_zero (xorb sx sy) \/ exists p e, r = S754_finite (xorb sx sy) p e).
Proof.
  intros H1 H2 Hgrid Heb Hcmp r.
  pose proof (mul_exp_ok p1 p2 e1 e2 H1 H2) as Hexp.
  set (c := Z.min (e1 + e2) eb).
  rewrite (dyadic_compare_scale c) in Hcmp by (unfold c; lia).
  assert (Hle : (Z.pos (p1 * p2) * 1 + 0) * 2 ^ (e1 + e2 - c)
                <= Z.pos pb * 2 ^ (eb - c) * 1).
  { rewrite Pos2Z.inj_mul.
    destruct (Z.compare_spec (Z.pos p1 * Z.pos p2 * 2 ^ (e1 + e2 - c))
                (Z.pos pb * 2 ^ (eb - c))); first [lia | congruence]. }
  destruct (binary_round_aux_upper (xorb sx sy) (Z.pos (p1 * p2)) (e1 + e2)
              0 1 (Z.pos pb) eb c ltac:(lia) ltac:(lia) Hexp ltac:(lia)
              Hgrid Heb ltac:(unfold c; lia) ltac:(unfold c; lia) Hle)
    as (m2 & e2' & Hm2 & Hres & Hcan & Hc).
  apply (below_bound (xorb sx sy) m2 e2' pb eb); assumption.
Qed.

Lemma SFdiv_valid (x y : spec_float) :
  valid_binary prec emax (SFdiv prec emax x y) = true.
Proof.
  destruct x as [sx|sx| |sx p1 e1], y as [sy|sy| |sy p2 e2]; try reflexivity.
  unfold SFdiv.
  destruct (div_core_spec p1 p2 e1 e2) as (Hcore & Hs & Hq & Hr & Hqr & Hexp & _).
  cbv zeta in Hcore. rewrite Hcore.
  apply binary_round_aux_valid; assumption.
Qed.

(** A quotient stays below every representable bound on the exact
    quotient: [|x| <= B * |y|] gives [|x / y| <= B]. *)
Lemma SFdiv_upper (sx sy : bool) (p1 p2 pb : positive) (e1 e2 eb : Z) :
  fexp (Zdigits2 (Z.pos pb) + eb) <= eb -> eb <= emax - prec ->
  dyadic_compare (Z.pos p1, e1) (Z.pos pb * Z.pos p2, eb + e2) <> Gt ->
  let r := SFdiv prec emax (S754_finite sx p1 e1) (S754_finite sy p2 e2) in
  is_finite r = true /\ valid_binary prec emax r = true /\
  leb (SFabs r) (S754_finite false pb eb) = true /\
  (r = S754_zero (xorb sx sy) \/ exists p e, r = S754_finite (xorb sx sy) p e).
Proof.
  intros Hgrid Heb Hcmp r. unfold r, SFdiv.
  destruct (div_core_spec p1 p2 e1 e2) as (Hcore & Hs & Hq & Hr & Hqr & Hexp & _).
  cbv zeta in Hcore, Hs, Hq, Hr, Hqr, Hexp. rewrite Hcore.
  set (e' := Z.min (fexp (Zdigits2 (Z.pos p1) + e1 - (Zdigits2 (Z.pos p2) + e2)))
                   (e1 - e2)) in *.
  set (s := e1 - e2 - e') in *.
  set (q := Z.pos p1 * 2 ^ s / Z.pos p2) in *.
  set (rm := (Z.pos p1 * 2 ^ s) mod Z.pos p2) in *.
  set (c := Z.min e' eb).
  rewrite (dyadic_compare_scale (c + e2)) in Hcmp by (unfold c, e'; lia).
  assert (Hle : (q * Z.pos p2 + rm) * 2 ^ (e' - c)
                <= Z.pos pb * 2 ^ (eb - c) * Z.pos p2).
  { rewrite Hqr. rewrite <- Z.mul_assoc, <- Z.pow_add_r by (unfold c; lia).
    replace (s + (e' - c)) with (e1 - (c + e2)) by (unfold s; lia).
    replace (eb + e2 - (c + e2)) with (eb - c) in Hcmp by lia.
    destruct (Z.compare_spec (Z.pos p1 * 2 ^ (e1 - (c + e2)))
                (Z.pos pb * Z.pos p2 * 2 ^ (eb - c))); first [lia | congruence]. }
  destruct (binary_round_aux_upper (xorb sx sy) q e' rm (Z.pos p2)
              (Z.pos pb) eb c Hq Hr Hexp ltac:(lia) Hgrid Heb
              ltac:(unfold c; lia) ltac:(unfold c; lia) Hle)
    as (m2 & e2' & Hm2 & Hres & Hcan & Hc).
  apply (below_bound (xorb sx sy) m2 e2' pb eb); assumption.
Qed.

(** The quotient is less than one unit in the last place above the exact
    one, and its exponent is at least the one chosen for the division. *)
Lemma SFdiv_error (sx sy s : bool) (p1 p2 pr : positive) (e1 e2 er : Z) :
  SFdiv prec emax (S754_finite sx p1 e1) (S754_finite sy p2 e2)
    = S754_finite s pr er ->
  dyadic_compare ((Z.pos pr - 1) * Z.pos p2, er + e2) (Z.pos p1, e1) <> Gt /\
  fexp (Zdigits2 (Z.pos p1) + e1 - (Zdigits2 (Z.pos p2) + e2)) <= er.
Proof.
  unfold SFdiv.
  destruct (div_core_spec p1 p2 e1 e2)
    as (Hcore & Hs & Hq & Hr & Hqr & Hexp & Hmono).
  cbv zeta in Hcore, Hs, Hq, Hr, Hqr, Hexp, Hmono. rewrite Hcore.
  set (e' := Z.min (fexp (Zdigits2 (Z.pos p1) + e1 - (Zdigits2 (Z.pos p2) + e2)))
                   (e1 - e2)) in *.
  set (sh := e1 - e2 - e') in *.
  set (q := Z.pos p1 * 2 ^ sh / Z.pos p2) in *.
  set (rm := (Z.pos p1 * 2 ^ sh) mod Z.pos p2) in *.
  destruct (binary_round_aux_spec (xorb sx sy) q e' rm (Z.pos p2) Hq Hr Hexp)
    as (mr & m2 & e2' & Hmr & _ & _ & He2 & Hmr2 & Hm2 & _ & Hres).
  cbv zeta in *. rewrite Hres. intros Heq.
  destruct m2 as [|p|p]; try discriminate.
  destruct (e2' <=? emax - prec); try discriminate.
  injection Heq as _ -> ->.
  set (e1c := fexp (Zdigits2 q + e')) in *.
  set (k1 := e1c - e') in *.
  assert (Hk1 : 0 <= k1) by (unfold k1; lia).
  pose proof (pow2_pos k1 Hk1) as Hp1.
  pose proof (pow2_pos sh Hs) as Hps.
  pose proof (pow2_pos (er - e1c) ltac:(lia)) as Hp2.
  pose proof (Z.div_mod q (2 ^ k1) ltac:(lia)) as Hdm.
  pose proof (Z.mod_pos_bound q (2 ^ k1) Hp1) as Hrm.
  split; [|lia].
  rewrite (dyadic_compare_scale (e' + e2)) by (unfold e', e1c in *; lia).
  replace (er + e2 - (e' + e2)) with (er - e1c + k1) by (unfold k1; lia).
  replace (e1 - (e' + e2)) with sh by (unfold sh; lia).
  rewrite Z.pow_add_r by lia.
  intros Hgt. apply Z.compare_gt_iff in Hgt.
  assert (H1 : (Z.pos pr - 1) * 2 ^ (er - e1c) <= mr - 1) by nia.
  assert (H2 : (mr - 1) * 2 ^ k1 <= q) by nia.
  assert (H3 : q * Z.pos p2 <= Z.pos p1 * 2 ^ sh) by lia.
  assert (H4 : (Z.pos pr - 1) * 2 ^ (er - e1c) * 2 ^ k1 <= q) by nia.
  assert (H5 : (Z.pos pr - 1) * 2 ^ (er - e1c) * 2 ^ k1 * Z.pos p2
               <= q * Z.pos p2) by (apply Z.mul_le_mono_nonneg_r; lia).
  nia.
Qed.

Lemma binary_round_exp_ok (p : positive) (e : Z) :
  exists mz ez,
    shl_align p e (fexp (Z.pos (digits2_pos p) + e)) = (mz, ez) /\
    ez <= e /\ Z.pos mz = Z.pos p * 2 ^ (e - ez) /\
    ez <= fexp (Zdigits2 (Z.pos mz) + ez) /\
    (fexp (Zdigits2 (Z.pos p) + e) <= e ->
     ez = fexp (Zdigits2 (Z.pos mz) + ez)).
Proof.
  destruct (shl_align_spec p e (fexp (Z.pos (digits2_pos p) + e)))
    as (mz & Hsh & Hmz).
  cbv zeta in *. exists mz, (Z.min e (fexp (Z.pos (digits2_pos p) + e))).
  split; [exact Hsh|]. split; [lia|]. split; [exact Hmz|].
  rewrite Hmz, Zdigits2_mul_pow2 by lia.
  replace (Zdigits2 (Z.pos p) + (e - Z.min e (fexp (Z.pos (digits2_pos p) + e)))
           + Z.min e (fexp (Z.pos (digits2_pos p) + e)))
    with (Z.pos (digits2_pos p) + e) by (simpl Zdigits2; lia).
  simpl Zdigits2. split; lia.
Qed.

Lemma binary_round_valid (s : bool) (p : positive) (e : Z) :
  valid_binary prec emax (binary_round prec emax s p e) = true.
Proof.
  unfold binary_round.
  destruct (binary_round_exp_ok p e) as (mz & ez & Hsh & _ & _ & Hexp & _).
  rewrite Hsh. change loc_Exact with (loc_of 0 1).
  apply binary_round_aux_valid; [lia | lia | exact Hexp].
Qed.

Lemma binary_round_upper (s : bool) (p pb : positive) (e eb : Z) :
  fexp (Zdigits2 (Z.pos pb) + eb) <= eb -> eb <= emax - prec ->
  dyadic_compare (Z.pos p, e) (Z.pos pb, eb) <> Gt ->
  let r := binary_round prec emax s p e in
  is_finite r = true /\ valid_binary prec emax r = true /\
  leb (SFabs r) (S754_finite false pb eb) = true /\
  (r = S754_zero s \/ exists p' e', r = S754_finite s p' e').
Proof.
  intros Hgrid Heb Hcmp r. unfold r, binary_round.
  destruct (binary_round_exp_ok p e) as (mz & ez & Hsh & Hez & Hmz & Hexp & _).
  rewrite Hsh. change loc_Exact with (loc_of 0 1).
  set (c := Z.min ez eb).
  rewrite (dyadic_compare_scale c) in Hcmp by (unfold c; lia).
  assert (Hle : (Z.pos mz * 1 + 0) * 2 ^ (ez - c) <= Z.pos pb * 2 ^ (eb - c) * 1).
  { rewrite Hmz. replace (Z.pos p * 2 ^ (e - ez) * 1 + 0)
      with (Z.pos p * 2 ^ (e - ez)) by lia.
    rewrite <- Z.mul_assoc, <- Z.pow_add_r by (unfold c; lia).
    replace (e - ez + (ez - c)) with (e - c) by lia.
    destruct (Z.compare_spec (Z.pos p * 2 ^ (e - c)) (Z.pos pb * 2 ^ (eb - c)));
      first [lia | congruence]. }
  destruct (binary_round_aux_upper s (Z.pos mz) ez 0 1 (Z.pos pb) eb c
              ltac:(lia) ltac:(lia) Hexp ltac:(lia) Hgrid Heb
              ltac:(unfold c; lia) ltac:(unfold c; lia) Hle)
    as (m2 & e2' & Hm2 & Hres & Hcan & Hc).
  apply (below_bound s m2 e2' pb eb); assumption.
Qed.

(** Integers below [2^prec] convert without rounding. *)
Lemma binary_normalize_small (z : Z) :
  0 < z < 2 ^ prec ->
  exists p e,
    binary_normalize prec emax z 0 false = S754_finite false p e /\
    bounded prec emax p e = true /\ e <= 0 /\ Z.pos p = z * 2 ^ (- e).
Proof.
  intros [Hz0 Hz]. destruct z as [|pz|pz]; try lia.
  unfold binary_normalize, binary_round.
  assert (Hd : Zdigits2 (Z.pos pz) <= prec) by (apply Zdigits2_le; lia).
  pose proof emin_nonpos as Hemin.
  assert (Hf : fexp (Zdigits2 (Z.pos pz) + 0) <= 0)
    by (unfold SpecFloat.fexp; lia).
  destruct (binary_round_exp_ok pz 0) as (mz & ez & Hsh & Hez & Hmz & Hexp & Hcan).
  specialize (Hcan Hf). rewrite Hsh.
  assert (Hb : bounded prec emax mz ez = true).
  { apply bounded_spec. split; [symmetry; exact Hcan | lia]. }
  rewrite binary_round_aux_exact by exact Hb.
  exists mz, ez. repeat split; assumption.
Qed.

(** Rounding stays above every bound on the grid the value is rounded on. *)
Lemma binary_round_aux_lower (s : bool) (m e a b mb eb c : Z) :
  0 <= m -> 0 <= a < b -> e <= fexp (Zdigits2 m + e) ->
  0 < mb -> fexp (Zdigits2 m + e) <= eb ->
  c <= e -> c <= eb ->
  mb * 2 ^ (eb - c) * b <= (m * b + a) * 2 ^ (e - c) ->
  match binary_round_aux prec emax s m e (loc_of a b) with
  | S754_finite _ p2 e2 => dyadic_compare (Z.pos p2, e2) (mb, eb) <> Lt
  | S754_infinity _ => True
  | _ => False
  end.
Proof.
  intros Hm Hab Hexp Hmb Hgrid Hce Hceb Hle.
  destruct (binary_round_aux_spec s m e a b Hm Hab Hexp)
    as (mr & m2 & e2 & Hmr & _ & _ & He2 & Hmr2 & Hm2 & _ & Hres).
  cbv zeta in *.
  set (e1 := fexp (Zdigits2 m + e)) in *.
  set (k1 := e1 - e) in *.
  assert (Hk1 : 0 <= k1) by (unfold k1; lia).
  pose proof (pow2_pos k1 Hk1) as Hp1.
  pose proof (pow2_pos (e - c) ltac:(lia)) as Hpc.
  pose proof (pow2_pos (eb - e1) ltac:(lia)) as Hpb.
  pose proof (pow2_pos (e2 - e1) ltac:(lia)) as Hp2.
  pose proof (Z.div_mod m (2 ^ k1) ltac:(lia)) as Hdm.
  pose proof (Z.mod_pos_bound m (2 ^ k1) Hp1) as Hrm.
  set (m1 := m / 2 ^ k1) in *. set (r1 := m mod 2 ^ k1) in *.
  set (K := mb * 2 ^ (eb - e1)).
  set (B1 := 2 ^ k1 * b).
  assert (HB1 : 0 < B1) by (unfold B1; nia).
  assert (HK : K * B1 <= m * b + a).
  { unfold K, B1. rewrite (pow2_split (eb - c) (e - c)) in Hle by lia.
    replace (eb - c - (e - c)) with (eb - e) in Hle by lia.
    rewrite (pow2_split (eb - e) k1) in Hle by (unfold k1; lia).
    replace (eb - e - k1) with (eb - e1) in Hle by (unfold k1; lia).
    nia. }
  assert (HK' : K * B1 < (m1 + 1) * B1).
  { assert (Heq : m * b + a = m1 * B1 + (r1 * b + a))
      by (unfold B1; rewrite Hdm at 1; ring).
    rewrite Heq in HK.
    assert (r1 * b + a < B1) by (unfold B1; nia). lia. }
  apply Z.mul_lt_mono_pos_r in HK'; [|exact HB1].
  assert (HKpos : 0 < K) by (unfold K; nia).
  rewrite Hres.
  destruct m2 as [|p2|p2]; [nia | | lia].
  destruct (e2 <=? emax - prec); [|exact I].
  rewrite (dyadic_compare_scale e1) by lia.
  intros Hlt. rewrite Z.compare_lt_iff in Hlt. unfold K in *. lia.
Qed.

(** A value divided by one of the same magnitude gives magnitude one. *)
Lemma SFdiv_same (sx sy : bool) (p : positive) (e : Z) :
  let r := SFdiv prec emax (S754_finite sx p e) (S754_finite sy p e) in
  is_finite r = true /\ valid_binary prec emax r = true /\
  eqb (SFabs r) (S754_finite false 1 0) = true.
Proof.
  intros r.
  pose proof emin_nonpos as Hemin.
  assert (Hone : fexp (Zdigits2 1 + 0) <= 0) by (unfold SpecFloat.fexp; simpl; lia).
  destruct (SFdiv_upper sx sy p p 1 e e 0 Hone ltac:(lia)) as (Hfin & Hval & Hle & _).
  { replace (1 * Z.pos p) with (Z.pos p) by lia. replace (0 + e) with e by lia.
    rewrite dyadic_compare_refl'. discriminate. }
  fold r in Hfin, Hval, Hle. split; [exact Hfin|]. split; [exact Hval|].
  unfold r, SFdiv in *.
  destruct (div_core_spec p p e e) as (Hcore & Hs & Hq & Hr & Hqr & Hexp & _).
  cbv zeta in Hcore, Hs, Hq, Hr, Hqr, Hexp. rewrite Hcore in *.
  set (e' := Z.min (fexp (Zdigits2 (Z.pos p) + e - (Zdigits2 (Z.pos p) + e)))
                   (e - e)) in *.
  set (sh := e - e - e') in *.
  set (q := Z.pos p * 2 ^ sh / Z.pos p) in *.
  set (rm := (Z.pos p * 2 ^ sh) mod Z.pos p) in *.
  pose proof (pow2_pos sh Hs) as Hps.
  assert (Hqv : q = 2 ^ sh).
  { unfold q. rewrite Z.mul_comm. apply Z.div_mul. lia. }
  assert (Hrv : rm = 0).
  { unfold rm. rewrite Z.mul_comm. apply Z.mod_mul. lia. }
  assert (He' : e' = - sh) by (unfold sh; lia).
  assert (Hdq : Zdigits2 q = sh + 1).
  { rewrite Hqv. replace (2 ^ sh) with (1 * 2 ^ sh) by lia.
    rewrite Zdigits2_mul_pow2 by lia. simpl. lia. }
  pose proof (binary_round_aux_lower (xorb sx sy) q e' rm (Z.pos p) 1 0 e'
                Hq Hr Hexp ltac:(lia)) as Hlow.
  rewrite Hdq in Hlow. replace (sh + 1 + e') with 1 in Hlow by lia.
  specialize (Hlow Hone ltac:(lia) ltac:(lia)).
  rewrite Z.sub_diag in Hlow. simpl (2 ^ 0) in Hlow.
  replace (0 - e') with sh in Hlow by lia.
  specialize (Hlow ltac:(rewrite Hrv, Hqv; lia)).
  destruct (binary_round_aux prec emax (xorb sx sy) q e' (loc_of rm (Z.pos p)))
    as [s'|s'| |s' p2 e2]; try contradiction; try discriminate.
  unfold eqb, leb, compare, SFabs, dyadic in *. cbn [cond_Zopp] in *.
  destruct (dyadic_compare (Z.pos p2, e2) (1, 0)); congruence.
Qed.

(** A rounded value stays above every representable bound on the exact
    one, whatever the binade of the value. *)
Lemma binary_round_aux_above (s : bool) (m e a b mb eb c : Z) :
  0 <= m -> 0 <= a < b -> e <= fexp (Zdigits2 m + e) ->
  0 < mb -> fexp (Zdigits2 mb + eb) <= eb ->
  c <= e -> c <= eb ->
  mb * 2 ^ (eb - c) * b <= (m * b + a) * 2 ^ (e - c) ->
  match binary_round_aux prec emax s m e (loc_of a b) with
  | S754_finite _ p2 e2 => dyadic_compare (Z.pos p2, e2) (mb, eb) <> Lt
  | S754_infinity _ => True
  | _ => False
  end.
Proof.
  intros Hm Hab Hexp Hmb Hcan Hce Hceb Hle.
  destruct (Z.le_gt_cases (fexp (Zdigits2 m + e)) eb) as [Hgrid|Hgrid].
  { exact (binary_round_aux_lower s m e a b mb eb c Hm Hab Hexp Hmb Hgrid
             Hce Hceb Hle). }
  pose proof (fexp_emin (Zdigits2 mb + eb)) as Hemin.
  destruct (fexp_cases (Zdigits2 m + e)) as [Hex|Hex]; [|lia].
  pose proof (pow2_pos (eb - c) ltac:(lia)) as Hpb.
  pose proof (pow2_pos (e - c) ltac:(lia)) as Hpe.
  assert (Hmpos : 0 < m).
  { destruct (Z.eq_dec m 0) as [->|]; [|lia]. exfalso.
    change (Zdigits2 0) with 0 in *. lia. }
  pose proof (Zdigits2_bounds m Hmpos) as Hd.
  pose proof (Zdigits2_bounds mb Hmb) as Hdb.
  assert (Hdpos : 0 < Zdigits2 m) by (apply Zdigits2_pos; exact Hmpos).
  assert (Hdigits : Zdigits2 mb <= prec).
  { unfold SpecFloat.fexp in Hcan. lia. }
  pose proof (binary_round_aux_lower s m e a b 1 (Zdigits2 m + e - 1) e Hm Hab Hexp
                ltac:(lia) ltac:(lia) ltac:(lia) ltac:(lia)) as Hlow.
  replace (Zdigits2 m + e - 1 - e) with (Zdigits2 m - 1) in Hlow by lia.
  rewrite Z.sub_diag in Hlow. change (2 ^ 0) with 1 in Hlow.
  specialize (Hlow ltac:(nia)).
  destruct (binary_round_aux prec emax s m e (loc_of a b))
    as [s'|s'| |s' p2 e2]; try exact Hlow.
  intros Hlt. apply Hlow. clear Hlow.
  set (c2 := Z.min e2 (Z.min eb (Zdigits2 m + e - 1))).
  rewrite (dyadic_compare_scale c2) in Hlt |- * by (unfold c2; lia).
  rewrite Z.compare_lt_iff in *.
  eapply Z.lt_le_trans; [exact Hlt|].
  assert (Hstep : mb * 2 ^ (eb - c2) < 2 ^ (prec + eb - c2)).
  { replace (prec + eb - c2) with (prec + (eb - c2)) by lia.
    rewrite Z.pow_add_r by (unfold c2; lia).
    pose proof (pow2_pos (eb - c2) ltac:(unfold c2; lia)).
    assert (2 ^ Zdigits2 mb <= 2 ^ prec)
      by (apply Z.pow_le_mono_r; lia).
    nia. }
  assert (Hpow : 2 ^ (prec + eb - c2) <= 2 ^ (Zdigits2 m + e - 1 - c2)).
  { apply Z.pow_le_mono_r; lia. }
  lia.
Qed.

(** A product stays above every representable bound on the exact product. *)
Lemma SFmul_lower (sx sy : bool) (p1 p2 pb : positive) (e1 e2 eb : Z) :
  bounded prec emax p1 e1 = true -> bounded prec emax p2 e2 = true ->
  fexp (Zdigits2 (Z.pos pb) + eb) <= eb ->
  dyadic_compare (Z.pos pb, eb) (Z.pos p1 * Z.pos p2, e1 + e2) <> Gt ->
  match SFmul prec emax (S754_finite sx p1 e1) (S754_finite sy p2 e2) with
  | S754_finite _ p e => dyadic_compare (Z.pos p, e) (Z.pos pb, eb) <> Lt
  | S754_infinity _ => True
  | _ => False
  end.
Proof.
  intros H1 H2 Hcan Hcmp.
  pose proof (mul_exp_ok p1 p2 e1 e2 H1 H2) as Hexp.
  set (c := Z.min (e1 + e2) eb).
  rewrite (dyadic_compare_scale c) in Hcmp by (unfold c; lia).
  assert (Hle : Z.pos pb * 2 ^ (eb - c) * 1
                <= (Z.pos (p1 * p2) * 1 + 0) * 2 ^ (e1 + e2 - c)).
  { rewrite Pos2Z.inj_mul.
    destruct (Z.compare_spec (Z.pos pb * 2 ^ (eb - c))
                (Z.pos p1 * Z.pos p2 * 2 ^ (e1 + e2 - c)));
      first [lia | congruence]. }
  exact (binary_round_aux_above (xorb sx sy) (Z.pos (p1 * p2)) (e1 + e2)
           0 1 (Z.pos pb) eb c ltac:(lia) ltac:(lia) Hexp ltac:(lia)
           Hcan ltac:(unfold c; lia) ltac:(unfold c; lia) Hle).
Qed.

(** A quotient stays above every representable bound on the exact
    quotient: [B * |y| <= |x|] gives [B <= |x / y|]. *)
Lemma SFdiv_lower (sx sy : bool) (p1 p2 pb : positive) (e1 e2 eb : Z) :
  fexp (Zdigits2 (Z.pos pb) + eb) <= eb ->
  dyadic_compare (Z.pos pb * Z.pos p2, eb + e2) (Z.pos p1, e1) <> Gt ->
  match SFdiv prec emax (S754_finite sx p1 e1) (S754_finite sy p2 e2) with
  | S754_finite _ p e => dyadic_compare (Z.pos p, e) (Z.pos pb, eb) <> Lt
  | S754_infinity _ => True
  | _ => False
  end.
Proof.
  intros Hcan Hcmp. unfold SFdiv.
  destruct (div_core_spec p1 p2 e1 e2) as (Hcore & Hs & Hq & Hr & Hqr & Hexp & _).
  cbv zeta in Hcore, Hs, Hq, Hr, Hqr, Hexp. rewrite Hcore.
  set (e' := Z.min (fexp (Zdigits2 (Z.pos p1) + e1 - (Zdigits2 (Z.pos p2) + e2)))
                   (e1 - e2)) in *.
  set (s := e1 - e2 - e') in *.
  set (q := Z.pos p1 * 2 ^ s / Z.pos p2) in *.
  set (rm := (Z.pos p1 * 2 ^ s) mod Z.pos p2) in *.
  set (c := Z.min e' eb).
  rewrite (dyadic_compare_scale (c + e2)) in Hcmp by (unfold c, e'; lia).
  assert (Hle : Z.pos pb * 2 ^ (eb - c) * Z.pos p2
                <= (q * Z.pos p2 + rm) * 2 ^ (e' - c)).
  { rewrite Hqr.
    replace (Z.pos p1 * 2 ^ s * 2 ^ (e' - c))
      with (Z.pos p1 * 2 ^ (e1 - (c + e2))).
    2:{ rewrite <- Z.mul_assoc, <- Z.pow_add_r by (unfold c; lia).
        f_equal. f_equal. unfold s. lia. }
    replace (eb + e2 - (c + e2)) with (eb - c) in Hcmp by lia.
    destruct (Z.compare_spec (Z.pos pb * Z.pos p2 * 2 ^ (eb - c))
                (Z.pos p1 * 2 ^ (e1 - (c + e2)))); first [lia | congruence]. }
  exact (binary_round_aux_above (xorb sx sy) q e' rm (Z.pos p2)
           (Z.pos pb) eb c Hq Hr Hexp ltac:(lia) Hcan
           ltac:(unfold c; lia) ltac:(unfold c; lia) Hle).
Qed.

End Format.

End Rounding.

(** ** Signal shaping *)

Section Shaping.
Variable t : dtype.

Lemma linspace_length (start stop : spec_float) (num : Z) :
  length (Np.linspace start stop num t) = Z.to_nat num.
Proof.
  unfold Np.linspace. rewrite length_fmap.
  match goal with
  | |- length (if _ then take _ ?y ++ _ else ?y) = _ =>
      assert (Hy : length y = Z.to_nat num)
  end.
  { rewrite length_fmap.
    destruct (0 <? num - 1);
      [destruct (eqb _ _)|]; rewrite !length_fmap, length_seqZ; reflexivity. }
  destruct (Z.ltb_spec 1 num) as [Hn|Hn]; [|exact Hy].
  rewrite length_app, length_take, Hy. simpl. lia.
Qed.

Lemma fade_length_bound (samples : Np.ndarray) (fade_duration : spec_float) (fl : Z) :
  fade_length samples fade_duration = Ok fl ->
  2 * fl <= Z.of_nat (length samples).
Proof.
  unfold fade_length. destruct (Py.int _) as [n|e]; simpl; [|discriminate].
  intros [= <-].
  pose proof (Z.mul_div_le (Z.of_nat (length samples)) 2 ltac:(lia)). lia.
Qed.

(** The content after the two slice assignments: a faded head, an
    untouched middle, a faded tail. *)
Lemma apply_fade_edges_shape (samples : Np.ndarray) (fade_duration : spec_float)
    (fl : Z) :
  fade_length samples fade_duration = Ok fl -> 0 < fl ->
  let k := Z.to_nat fl in
  let ramp := Np.linspace Py.zero Py.one fl t in
  apply_fade_edges t samples fade_duration =
  Ok (zip_with (mul t) (take k samples) ramp
      ++ take (length samples - 2 * k) (drop k samples)
      ++ zip_with (mul t) (drop (length samples - k) samples) (reverse ramp)).
Proof.
  intros Hfl Hpos k ramp.
  pose proof (fade_length_bound _ _ _ Hfl) as Hb.
  unfold apply_fade_edges. rewrite Hfl. simpl.
  destruct (Z.leb_spec fl 0) as [|_]; [lia|].
  fold ramp. fold k.
  assert (Hk : (2 * k <= length samples)%nat) by (unfold k; lia).
  assert (Hr : length ramp = k) by apply linspace_length.
  assert (Hz : length (zip_with (mul t) (take k samples) ramp) = k).
  { rewrite length_zip_with, length_take, Hr. lia. }
  rewrite length_app, Hz, length_drop.
  replace (k + (length samples - k) - k)%nat with (k + (length samples - 2 * k))%nat
    by lia.
  f_equal.
  rewrite take_app_add' by (symmetry; exact Hz).
  rewrite drop_app_add' by (symmetry; exact Hz).
  rewrite <- app_assoc. do 3 f_equal.
  rewrite drop_drop. f_equal. lia.
Qed.

End Shaping.

(** C7. Identity law of the smoothing step: for every signal and every
    window size of at most one, [moving_average] returns the signal it was
    given. *)
Theorem moving_average_identity (m : Np.memory) (t : dtype) (signal : Np.ndarray)
    (window_size : Z) :
  window_size <= 1 -> moving_average m t signal window_size = Ok signal.
Proof.
  intros Hw. unfold moving_average.
  destruct (Z.leb_spec window_size 1); [reflexivity | lia].
Qed.

Lemma moving_average_identity_witness :
  moving_average roomy float64
    [S754_finite false 6755399441055744 (-51); S754_zero true; S754_nan] 1
  = Ok [S754_finite false 6755399441055744 (-51); S754_zero true; S754_nan].
Proof. apply moving_average_identity. lia. Defined.

(** C10. Frame of the edge fade: when the fade length is at least one, every
    sample at an index from the fade length up to the length minus the fade
    length is returned as it was; only the first and the last fade-length
    samples are rewritten. *)
Theorem apply_fade_edges_frame (t : dtype) (samples : Np.ndarray)
    (fade_duration : spec_float) (fade_len : Z) (i : nat) :
  fade_length samples fade_duration = Ok fade_len ->
  1 <= fade_len ->
  fade_len <= Z.of_nat i < Z.of_nat (length samples) - fade_len ->
  exists out,
    apply_fade_edges t samples fade_duration = Ok out /\
    length out = length samples /\
    out !! i = samples !! i.
Proof.
  intros Hfl Hpos Hi.
  pose proof (fade_length_bound _ _ _ Hfl) as Hb.
  rewrite (apply_fade_edges_shape t samples fade_duration fade_len Hfl ltac:(lia)).
  cbv zeta. set (k := Z.to_nat fade_len).
  set (ramp := Np.linspace Py.zero Py.one fade_len t).
  assert (Hr : length ramp = k) by apply linspace_length.
  assert (Hz : length (zip_with (mul t) (take k samples) ramp) = k).
  { rewrite length_zip_with, length_take, Hr. lia. }
  eexists. split; [reflexivity|]. split.
  - rewrite !length_app, Hz, length_take, length_drop, length_zip_with,
      length_drop, length_reverse, Hr. lia.
  - rewrite lookup_app_r by (rewrite Hz; lia). rewrite Hz.
    rewrite lookup_app_l by (rewrite length_take, length_drop; lia).
    rewrite lookup_take_lt by lia. rewrite lookup_drop. f_equal. lia.
Qed.

Lemma apply_fade_edges_frame_witness :
  exists out,
    apply_fade_edges float32
      (of_Z float32 <$> [3; -4; 1; 2; 3; 4; 5]) Py.tenth = Ok out /\
    length out = length (of_Z float32 <$> [3; -4; 1; 2; 3; 4; 5]) /\
    out !! 3%nat = (of_Z float32 <$> [3; -4; 1; 2; 3; 4; 5]) !! 3%nat.
Proof.
  apply (apply_fade_edges_frame float32
           (of_Z float32 <$> [3; -4; 1; 2; 3; 4; 5]) Py.tenth 3 3%nat).
  - vm_compute. reflexivity.
  - lia.
  - simpl. lia.
Defined.

(** ** Loading a profile's sound *)

Lemma getitem_entry_filename (name filename : string) :
  Py.getitem (entry name filename) "filename" = Ok (Py.Str filename).
Proof.
  unfold Py.getitem, entry.
  rewrite lookup_insert_ne by discriminate. rewrite lookup_insert_eq. reflexivity.
Qed.

Lemma getitem_entry_name (name filename : string) :
  Py.getitem (entry name filename) "name" = Ok (Py.Str name).
Proof. unfold Py.getitem, entry. rewrite lookup_insert_eq. reflexivity. Qed.

Lemma getitem_entry_fallback (name filename : string) :
  Py.getitem (entry name filename) "fallback" = Raise (KeyError "fallback").
Proof.
  unfold Py.getitem, entry.
  rewrite !lookup_insert_ne by discriminate. rewrite lookup_empty. reflexivity.
Qed.

Lemma ends_with_slash_app (x y : string) :
  y <> "" -> Path.ends_with_slash (x +:+ y) = Path.ends_with_slash y.
Proof.
  intros Hy. induction x as [|c x IH]; [reflexivity|].
  change (String c x +:+ y) with (String c (x +:+ y)).
  cbn [Path.ends_with_slash]. rewrite IH.
  destruct (x +:+ y) eqn:Hxy; [|reflexivity].
  destruct x; [|discriminate]. simpl in Hxy. contradiction.
Qed.

(** The sounds directory is a directory's own name, never a root. *)
Lemma sounds_dir_no_slash (h : host) : Path.ends_with_slash (SOUNDS_DIR h) = false.
Proof.
  unfold SOUNDS_DIR, Path.join. cbn [Path.leading_slash Ascii.eqb Bool.eqb].
  change (Path.parts "sounds-wav") with ["sounds-wav"].
  cbn [String.concat]. apply ends_with_slash_app. discriminate.
Qed.

Lemma append_assoc (a b c : string) : (a +:+ b) +:+ c = a +:+ b +:+ c.
Proof.
  induction a as [|x a IH]; [reflexivity|].
  change (String x ((a +:+ b) +:+ c) = String x (a +:+ b +:+ c)).
  rewrite IH. reflexivity.
Qed.

(** Joining a plain file name puts it behind a slash. *)
Lemma join_plain (base name : string) :
  Path.leading_slash name = false -> Path.parts name = [name] ->
  Path.ends_with_slash base = false ->
  Path.join base name = base +:+ "/" +:+ name.
Proof.
  intros Hrel Hparts Hbase. unfold Path.join. rewrite Hrel, Hparts, Hbase.
  cbn [String.concat]. apply append_assoc.
Qed.

(** A profile that carries only a name and a file name has nothing to fall
    back on: once its file is missing or does not decode, the lookup of
    ["fallback"] raises after the diagnostic is printed. *)
Lemma load_sound_entry (h : host) (w : world) (name filename : string) :
  let file_path := Path.join (SOUNDS_DIR h) filename in
  (path_exists h file_path = false ->
   _load_sound h (entry name filename) w =
   (Raise (KeyError "fallback"),
    snd (print ("Missing audio file for " +:+ name +:+ ": expected "
                +:+ file_path +:+ ".") w))) /\
  (forall err,
     path_exists h file_path = true -> decode_error h file_path = Some err ->
     _load_sound h (entry name filename) w =
     (Raise (KeyError "fallback"),
      snd (print ("Unable to load " +:+ file_path +:+ ": " +:+ err
                  +:+ ". Falling back to generated audio.") w))).
Proof.
  intros file_path. split.
  - intros Hmiss. unfold _load_sound.
    rewrite getitem_entry_filename, getitem_entry_name, getitem_entry_fallback.
    run_monad. cbn [as_str]. fold file_path. rewrite Hmiss.
    reflexivity.
  - intros err Hex Herr. unfold _load_sound.
    rewrite getitem_entry_filename, getitem_entry_fallback.
    run_monad. cbn [as_str]. fold file_path. rewrite Hex, Herr.
    reflexivity.
Qed.

(** C1. For every entry of [SOUND_PROFILES] whose file is missing or does
    not decode, [_load_sound] prints the diagnostic and then raises
    [KeyError: 'fallback'] instead of returning a synthesized sound: no
    entry of the table has a ["fallback"] key. *)
Theorem load_sound_profiles_raise (h : host) (w : world) (p : profile) :
  p ∈ SOUND_PROFILES ->
  exists name filename,
    p = entry name filename /\
    let file_path := SOUNDS_DIR h +:+ "/" +:+ filename in
    (path_exists h file_path = false ->
     _load_sound h p w =
     (Raise (KeyError "fallback"),
      snd (print ("Missing audio file for " +:+ name +:+ ": expected "
                  +:+ file_path +:+ ".") w))) /\
    (forall err,
       path_exists h file_path = true -> decode_error h file_path = Some err ->
       _load_sound h p w =
       (Raise (KeyError "fallback"),
        snd (print ("Unable to load " +:+ file_path +:+ ": " +:+ err
                    +:+ ". Falling back to generated audio.") w))).
Proof.
  intros Hin. unfold SOUND_PROFILES in Hin.
  repeat (apply elem_of_cons in Hin as [-> | Hin]);
    try (eexists _, _; split; [reflexivity|]; cbv zeta;
         match goal with
         | |- context [SOUNDS_DIR h +:+ "/" +:+ ?f] =>
             rewrite <- (join_plain (SOUNDS_DIR h) f eq_refl eq_refl
                           (sounds_dir_no_slash h))
         end;
         apply load_sound_entry).
  apply elem_of_nil in Hin. contradiction.
Qed.

Lemma load_sound_profiles_raise_witness :
  exists name filename,
    entry "Rainfall" "rain.wav" = entry name filename /\
    let file_path := SOUNDS_DIR host_without_files +:+ "/" +:+ filename in
    (path_exists host_without_files file_path = false ->
     _load_sound host_without_files (entry "Rainfall" "rain.wav") fresh_world =
     (Raise (KeyError "fallback"),
      snd (print ("Missing audio file for " +:+ name +:+ ": expected "
                  +:+ file_path +:+ ".") fresh_world))) /\
    (forall err,
       path_exists host_without_files file_path = true ->
       decode_error host_without_files file_path = Some err ->
       _load_sound host_without_files (entry "Rainfall" "rain.wav") fresh_world =
       (Raise (KeyError "fallback"),
        snd (print ("Unable to load " +:+ file_path +:+ ": " +:+ err
                    +:+ ". Falling back to generated audio.") fresh_world))).
Proof.
  apply (load_sound_profiles_raise host_without_files fresh_world
           (entry "Rainfall" "rain.wav")).
  unfold SOUND_PROFILES. do 3 apply list_elem_of_further. apply list_elem_of_here.
Defined.

(** Start-up with the files absent stops at the first profile. *)
Example init_without_files :
  let '(r, w) := __init__ host_without_files fresh_world in
  r = Raise (KeyError "fallback") /\
  stdout w =
    ["Missing audio file for Birds: expected /app/sounds-wav/birds.wav."].
Proof. vm_compute. split; reflexivity. Qed.

(** ** Shutdown *)

Lemma channel_stop_running (name : string) (w : world) :
  mixer_initialized w = true ->
  channel_stop name w = (Ok tt, with_channels w (alter stopped name (channels w))).
Proof.
  intros Hinit. unfold channel_stop, mixer_init_check, set_channels.
  run_monad. rewrite Hinit. reflexivity.
Qed.

Lemma channel_stop_quit (name : string) (w : world) :
  mixer_initialized w = false ->
  channel_stop name w = (Raise (PygameError "mixer not initialized"), w).
Proof.
  intros Hinit. unfold channel_stop, mixer_init_check.
  run_monad. rewrite Hinit. reflexivity.
Qed.

Lemma for_each_stop_running (names : list string) (w : world) :
  mixer_initialized w = true ->
  for_each names channel_stop w =
  (Ok tt, with_channels w (foldl (fun cs n => alter stopped n cs) (channels w) names)).
Proof.
  revert w. induction names as [|n names IH]; intros w Hinit.
  - destruct w. reflexivity.
  - simpl for_each. run_monad. rewrite channel_stop_running by assumption.
    fold (@for_each world string names channel_stop).
    rewrite IH by assumption. reflexivity.
Qed.

Lemma stop_all_lookup (names : list string) (cs : gmap string channel) (k : string) :
  foldl (fun cs n => alter stopped n cs) cs names !! k =
  if decide (k ∈ names) then stopped <$> cs !! k else cs !! k.
Proof.
  revert cs. induction names as [|n names IH]; intros cs.
  - simpl. destruct (decide (k ∈ [])) as [H|_]; [|reflexivity].
    apply elem_of_nil in H. contradiction.
  - simpl foldl. rewrite IH. rewrite lookup_alter.
    destruct (decide (k ∈ n :: names)) as [Hin'|Hout'].
    + destruct (decide (k ∈ names)) as [Hin|Hout];
        destruct (decide (n = k)) as [Heq|Hne]; try reflexivity.
      * subst n. destruct (cs !! k); reflexivity.
      * subst n. reflexivity.
      * apply elem_of_cons in Hin' as [Heq|Hin']; [congruence | contradiction].
    + destruct (decide (k ∈ names)) as [Hin|Hout].
      * exfalso. apply Hout'. apply list_elem_of_further. exact Hin.
      * destruct (decide (n = k)) as [Heq|Hne]; [|reflexivity].
        exfalso. apply Hout'. rewrite Heq. apply list_elem_of_here.
Qed.

Lemma stop_all_keys (cs : gmap string channel) :
  foldl (fun cs n => alter stopped n cs) cs (map_to_list cs).*1 = stopped <$> cs.
Proof.
  apply map_eq. intros k. rewrite stop_all_lookup, lookup_fmap.
  destruct (decide (k ∈ (map_to_list cs).*1)) as [Hin|Hout]; [reflexivity|].
  destruct (cs !! k) as [c|] eqn:Hk; [|reflexivity].
  exfalso. apply Hout. apply list_elem_of_fmap. exists (k, c). split; [reflexivity|].
  apply elem_of_map_to_list. exact Hk.
Qed.

Lemma on_close_after_close (w : world) :
  mixer_initialized w = false -> window_destroyed w = true ->
  exists e, fst (on_close w) = Raise e.
Proof.
  intros Hinit Hdest. unfold on_close. run_monad.
  destruct ((map_to_list (channels w)).*1) as [|n names] eqn:Hkeys.
  - simpl for_each. unfold mixer_quit, master_destroy. run_monad. simpl.
    rewrite Hdest. eexists. reflexivity.
  - simpl for_each. run_monad. rewrite channel_stop_quit by assumption.
    eexists. reflexivity.
Qed.

(** C4 (as the code has it). From a running mixer with its window open,
    [on_close] stops the looped playback of every channel, releases the
    mixer and destroys the window, without raising; invoked again on the
    state it leaves, it raises. *)
Theorem on_close_stops_then_faults (w : world) :
  mixer_initialized w = true -> window_destroyed w = false ->
  let closed :=
    World (stdout w) (random w) false true (sounds w)
          (stopped <$> channels w) (volume_vars w) (value_labels w) in
  on_close w = (Ok tt, closed) /\
  (forall name c, channels closed !! name = Some c -> chan_looping c = false) /\
  exists e, fst (on_close closed) = Raise e.
Proof.
  intros Hinit Hdest closed. split; [|split].
  - unfold on_close. run_monad.
    rewrite for_each_stop_running by assumption. rewrite stop_all_keys.
    unfold mixer_quit, master_destroy, with_channels. run_monad. simpl.
    rewrite Hdest. reflexivity.
  - intros name c. unfold closed. simpl. rewrite lookup_fmap.
    destruct (channels w !! name); simpl; [|discriminate].
    intros [= <-]. reflexivity.
  - apply on_close_after_close; reflexivity.
Qed.

Lemma on_close_stops_then_faults_witness :
  let closed :=
    World (stdout running_world) (random running_world) false true
          (sounds running_world) (stopped <$> channels running_world)
          (volume_vars running_world) (value_labels running_world) in
  on_close running_world = (Ok tt, closed) /\
  (forall name c, channels closed !! name = Some c -> chan_looping c = false) /\
  exists e, fst (on_close closed) = Raise e.
Proof.
  apply (on_close_stops_then_faults running_world); vm_compute; reflexivity.
Defined.

(** Shutdown is not idempotent: after start-up with all eight channels
    looping, the second [on_close] raises from the first [Channel.stop]. *)
Lemma on_close_twice_faults :
  fst (on_close running_world) = Ok tt /\
  fst (on_close (snd (on_close running_world)))
  = Raise (PygameError "mixer not initialized").
Proof. vm_compute. split; reflexivity. Qed.

(** ** Comparison by value *)

Lemma dyadic_compare_pos_nonpos (a e1 b e2 : Z) :
  0 < a -> b <= 0 -> dyadic_compare (a, e1) (b, e2) = Gt.
Proof.
  intros Ha Hb. unfold dyadic_compare. cbn [fst snd].
  pose proof (Rounding.pow2_pos (e1 - Z.min e1 e2) ltac:(lia)).
  pose proof (Rounding.pow2_pos (e2 - Z.min e1 e2) ltac:(lia)).
  apply Z.compare_gt_iff. nia.
Qed.

Lemma dyadic_compare_nonpos_pos (a e1 b e2 : Z) :
  a <= 0 -> 0 < b -> dyadic_compare (a, e1) (b, e2) = Lt.
Proof.
  intros Ha Hb. unfold dyadic_compare. cbn [fst snd].
  pose proof (Rounding.pow2_pos (e1 - Z.min e1 e2) ltac:(lia)).
  pose proof (Rounding.pow2_pos (e2 - Z.min e1 e2) ltac:(lia)).
  apply Z.compare_lt_iff. nia.
Qed.

Lemma dyadic_compare_nonneg_neg (a e1 b e2 : Z) :
  0 <= a -> b < 0 -> dyadic_compare (a, e1) (b, e2) = Gt.
Proof.
  intros Ha Hb. unfold dyadic_compare. cbn [fst snd].
  pose proof (Rounding.pow2_pos (e1 - Z.min e1 e2) ltac:(lia)).
  pose proof (Rounding.pow2_pos (e2 - Z.min e1 e2) ltac:(lia)).
  apply Z.compare_gt_iff. nia.
Qed.

Lemma dyadic_compare_neg_nonneg (a e1 b e2 : Z) :
  a < 0 -> 0 <= b -> dyadic_compare (a, e1) (b, e2) = Lt.
Proof.
  intros Ha Hb. unfold dyadic_compare. cbn [fst snd].
  pose proof (Rounding.pow2_pos (e1 - Z.min e1 e2) ltac:(lia)).
  pose proof (Rounding.pow2_pos (e2 - Z.min e1 e2) ltac:(lia)).
  apply Z.compare_lt_iff. nia.
Qed.

(** The same number written with a larger mantissa compares the same. *)
Lemma dyadic_compare_shift_r (x : Z * Z) (m f k : Z) :
  0 <= k -> dyadic_compare x (m * 2 ^ k, f - k) = dyadic_compare x (m, f).
Proof.
  intros Hk. destruct x as [mx ex].
  set (c := Z.min ex (f - k)).
  rewrite !(Rounding.dyadic_compare_scale c) by (unfold c; lia).
  rewrite <- Z.mul_assoc, <- Z.pow_add_r by (unfold c; lia).
  do 3 f_equal. lia.
Qed.

Lemma dyadic_compare_shift_l (x : Z * Z) (m f k : Z) :
  0 <= k -> dyadic_compare (m * 2 ^ k, f - k) x = dyadic_compare (m, f) x.
Proof.
  intros Hk. destruct x as [mx ex].
  set (c := Z.min ex (f - k)).
  rewrite !(Rounding.dyadic_compare_scale c) by (unfold c; lia).
  rewrite <- Z.mul_assoc, <- Z.pow_add_r by (unfold c; lia).
  do 3 f_equal. lia.
Qed.

(** Multiplying by a number not above one does not increase a positive
    magnitude. *)
Lemma dyadic_mul_le_one (a e b f : Z) :
  0 < b -> dyadic_compare (a, e) (1, 0) <> Gt ->
  dyadic_compare (a * b, e + f) (b, f) <> Gt.
Proof.
  intros Hb Hle.
  set (c := Z.min e 0).
  rewrite (Rounding.dyadic_compare_scale c) in Hle by (unfold c; lia).
  rewrite (Rounding.dyadic_compare_scale (c + f)) by (unfold c; lia).
  replace (e + f - (c + f)) with (e - c) by lia.
  replace (f - (c + f)) with (0 - c) by lia.
  rewrite Z.compare_gt_iff in *. nia.
Qed.

Lemma dyadic_compare_antisym (a b : Z * Z) :
  dyadic_compare b a = CompOpp (dyadic_compare a b).
Proof.
  unfold dyadic_compare. rewrite (Z.min_comm (snd b) (snd a)).
  apply Z.compare_antisym.
Qed.

Lemma dyadic_compare_refl (a : Z * Z) : dyadic_compare a a = Eq.
Proof. unfold dyadic_compare. apply Z.compare_refl. Qed.

(** Order is transitive: all three brought to one exponent. *)
Lemma dyadic_le_trans (a b c : Z * Z) :
  dyadic_compare a b <> Gt -> dyadic_compare b c <> Gt ->
  dyadic_compare a c <> Gt.
Proof.
  destruct a as [ma ea], b as [mb eb], c as [mc ec].
  set (k := Z.min ea (Z.min eb ec)).
  rewrite !(Rounding.dyadic_compare_scale k) by (unfold k; lia).
  rewrite !Z.compare_gt_iff. lia.
Qed.

Lemma dyadic_lt_le_trans (a b c : Z * Z) :
  dyadic_compare a b = Lt -> dyadic_compare b c <> Gt ->
  dyadic_compare a c = Lt.
Proof.
  destruct a as [ma ea], b as [mb eb], c as [mc ec].
  set (k := Z.min ea (Z.min eb ec)).
  rewrite !(Rounding.dyadic_compare_scale k) by (unfold k; lia).
  rewrite !Z.compare_gt_iff, !Z.compare_lt_iff. lia.
Qed.

(** Truncation of a magnitude below an integer bound stays below it. *)
Lemma trunc_mag_le (p pb : positive) (e eb K : Z) :
  eb <= 0 -> Z.pos pb = K * 2 ^ (- eb) ->
  dyadic_compare (Z.pos p, e) (Z.pos pb, eb) <> Gt ->
  0 <= (if 0 <=? e then Z.pos p * 2 ^ e else Z.pos p / 2 ^ (- e)) <= K.
Proof.
  intros Heb HK Hcmp.
  pose proof (Rounding.pow2_pos (- eb) ltac:(lia)) as Hpb.
  assert (HK0 : 0 < K) by nia.
  set (c := Z.min e eb).
  rewrite (Rounding.dyadic_compare_scale c) in Hcmp by (unfold c; lia).
  rewrite Z.compare_gt_iff in Hcmp.
  destruct (Z.leb_spec 0 e) as [He|He].
  - pose proof (Rounding.pow2_pos e He) as Hpe.
    split; [nia|].
    replace c with eb in Hcmp by (unfold c; lia).
    rewrite Z.sub_diag in Hcmp. simpl (2 ^ 0) in Hcmp.
    rewrite (Rounding.pow2_split (e - eb) (- eb)) in Hcmp by lia.
    replace (e - eb - - eb) with e in Hcmp by lia. nia.
  - pose proof (Rounding.pow2_pos (- e) ltac:(lia)) as Hpe.
    split; [apply Z.div_pos; lia|].
    apply Z.div_le_upper_bound; [lia|].
    destruct (Z_le_gt_dec e eb) as [Hle|Hgt].
    + replace c with e in Hcmp by (unfold c; lia).
      rewrite Z.sub_diag in Hcmp. simpl (2 ^ 0) in Hcmp.
      rewrite HK in Hcmp. rewrite <- Z.mul_assoc, <- Z.pow_add_r in Hcmp by lia.
      replace (- eb + (eb - e)) with (- e) in Hcmp by lia. lia.
    + replace c with eb in Hcmp by (unfold c; lia).
      rewrite Z.sub_diag in Hcmp. simpl (2 ^ 0) in Hcmp.
      rewrite HK in Hcmp.
      rewrite (Rounding.pow2_split (- eb) (e - eb)) in Hcmp by lia.
      replace (- eb - (e - eb)) with (- e) in Hcmp by lia.
      pose proof (Rounding.pow2_pos (e - eb) ltac:(lia)). nia.
Qed.

(** ** Volume control *)

(** The clamped gain is 0.0, 1.0, or the quotient itself when that is a
    positive number not above one. *)
Lemma volume_cases (q : spec_float) :
  let v := Py.max Py.zero (Py.min q Py.one) in
  v = Py.zero \/ v = Py.one \/
  exists p e, q = S754_finite false p e /\ v = q /\
              dyadic_compare (Z.pos p, e) (4503599627370496, -52) <> Gt.
Proof.
  unfold Py.max, Py.min, gtb.
  destruct (ltb Py.one q) eqn:H1.
  - right; left. reflexivity.
  - destruct (ltb Py.zero q) eqn:H0; [|left; reflexivity].
    right; right.
    destruct q as [s|s| |s p e]; try (destruct s); try discriminate.
    + exfalso. unfold ltb, compare, dyadic, Py.zero in H0. cbn [cond_Zopp] in H0.
      rewrite (dyadic_compare_nonneg_neg 0) in H0 by lia. discriminate.
    + exists p, e. repeat split.
      unfold ltb, compare, dyadic, Py.one in H1. cbn [cond_Zopp] in H1.
      rewrite dyadic_compare_antisym.
      destruct (dyadic_compare (4503599627370496, -52) (Z.pos p, e));
        simpl; congruence.
Qed.

Lemma hundred_bounded : bounded 53 1024 7036874417766400 (-46) = true.
Proof. reflexivity. Qed.

(** The percentage shown for a clamped gain: [int(volume * 100)] never
    raises and lies between 0 and 100. *)
Lemma percent_of_volume (raw : spec_float) :
  let v := Py.max Py.zero (Py.min (div float64 raw Py.hundred) Py.one) in
  exists percent,
    Py.int (Py.float_mul v Py.hundred) = Ok percent /\
    0 <= percent <= 100 /\
    leb Py.zero v = true /\ leb v Py.one = true /\
    (ltb Py.one (div float64 raw Py.hundred) = true ->
     v = Py.one /\ percent = 100).
Proof.
  intros v. set (q := div float64 raw Py.hundred) in *.
  assert (Hover : ltb Py.one q = true -> v = Py.one).
  { intros H. unfold v, Py.max, Py.min, gtb. rewrite H. reflexivity. }
  destruct (volume_cases q) as [Hv | [Hv | (p & e & Hq & Hv & Hle)]]; fold v in Hv.
  - exists 0. rewrite Hv.
    split; [reflexivity|]. split; [lia|]. split; [reflexivity|].
    split; [reflexivity|]. intros Hgt. rewrite (Hover Hgt) in Hv. discriminate.
  - exists 100. rewrite Hv.
    split; [reflexivity|]. split; [lia|]. split; [reflexivity|].
    split; [reflexivity|]. intros _. split; reflexivity.
  - assert (Hb : bounded 53 1024 p e = true).
    { pose proof (Rounding.SFdiv_valid 53 1024 ltac:(lia) raw Py.hundred)
        as Hval.
      change (SFdiv 53 1024 raw Py.hundred) with q in Hval.
      rewrite Hq in Hval. exact Hval. }
    assert (Hle1 : dyadic_compare (Z.pos p, e) (1, 0) <> Gt).
    { rewrite <- (dyadic_compare_shift_r _ 1 0 52) by lia. exact Hle. }
    pose proof (dyadic_mul_le_one (Z.pos p) e 7036874417766400 (-46)
                  ltac:(lia) Hle1) as Hprod.
    destruct (Rounding.SFmul_upper 53 1024 ltac:(lia) ltac:(lia) false false
                p 7036874417766400 7036874417766400 e (-46) (-46)
                Hb hundred_bounded ltac:(apply Z.leb_le; reflexivity) ltac:(lia)
                Hprod) as (Hfin & _ & Hbound & Hsign).
    cbv zeta in Hfin, Hbound, Hsign.
    rewrite Hv, Hq. unfold Py.float_mul, mul, Py.hundred. simpl prec. simpl emax.
    set (r := SFmul 53 1024 (S754_finite false p e)
                (S754_finite false 7036874417766400 (-46))) in *.
    assert (Hv01 : leb Py.zero (S754_finite false p e) = true /\
                   leb (S754_finite false p e) Py.one = true).
    { unfold leb, compare, dyadic, Py.zero, Py.one. cbn [cond_Zopp].
      rewrite (dyadic_compare_nonpos_pos 0) by lia.
      split; [reflexivity|].
      destruct (dyadic_compare (Z.pos p, e) (4503599627370496, -52));
        congruence. }
    assert (Hnot : ltb Py.one q = true -> False).
    { intros H. rewrite (Hover H) in Hv. rewrite Hq in Hv.
      rewrite Hq in H. rewrite <- Hv in H. vm_compute in H. discriminate. }
    destruct Hsign as [Hr | (pr & er & Hr)]; rewrite Hr in *.
    + exists 0.
      split; [reflexivity|]. split; [lia|]. split; [apply Hv01|].
      split; [apply Hv01|]. intros Hgt. exfalso. apply Hnot. rewrite Hq. exact Hgt.
    + simpl xorb in *. unfold leb, compare, SFabs, dyadic in Hbound.
      cbn [cond_Zopp] in Hbound.
      assert (Hcmp : dyadic_compare (Z.pos pr, er) (7036874417766400, -46) <> Gt).
      { destruct (dyadic_compare (Z.pos pr, er) (7036874417766400, -46));
          congruence. }
      pose proof (trunc_mag_le pr 7036874417766400 er (-46) 100
                    ltac:(lia) ltac:(reflexivity) Hcmp) as Ht.
      eexists. split; [reflexivity|]. cbn [trunc default cond_Zopp from_option].
      split; [exact Ht|]. split; [apply Hv01|].
      split; [apply Hv01|]. intros Hgt. exfalso. apply Hnot. rewrite Hq. exact Hgt.
Qed.

Lemma truediv_hundred (raw : spec_float) :
  Py.truediv raw Py.hundred = Ok (div float64 raw Py.hundred).
Proof. reflexivity. Qed.

(** The scenarios of the specification, run on the mixer after start-up. *)
Example on_volume_change_scenarios :
  (let '(r, w) := on_volume_change "Fire" (Py.float_of_int 75) running_world in
   r = Ok tt /\
   chan_volume <$> channels w !! "Fire"
     = Some (S754_finite false 6755399441055744 (-53)) /\
   value_labels w !! "Fire" = Some "75%") /\
  (let '(r, w) := on_volume_change "Wind" (Py.float_of_int 150) running_world in
   r = Ok tt /\ chan_volume <$> channels w !! "Wind" = Some Py.one /\
   value_labels w !! "Wind" = Some "100%") /\
  (let '(r, w) := on_volume_change "Nonexistent" (Py.float_of_int 50) running_world in
   r = Ok tt /\ channels w !! "Nonexistent" = None /\
   chan_volume <$> channels w !! "Fire" = Some half).
Proof. vm_compute. repeat split; reflexivity. Qed.

(** ** Generation of white noise *)

Lemma binary_round_aux_sign (pr em : Z) (s : bool) (m e : Z) (l : location) :
  match binary_round_aux pr em s m e l with
  | S754_zero s' | S754_finite s' _ _ | S754_infinity s' => s' = s
  | S754_nan => True
  end.
Proof.
  unfold binary_round_aux.
  destruct (shr_fexp pr em m e l) as [mrs e'].
  destruct (shr_fexp pr em _ e' loc_Exact) as [mrs' e''].
  destruct (shr_m mrs'); try exact I; try reflexivity.
  destruct (e'' <=? em - pr); reflexivity.
Qed.

Lemma SFmul_sign (pr em : Z) (sx : bool) (px : positive) (ex : Z)
    (sy : bool) (py : positive) (ey : Z) :
  match SFmul pr em (S754_finite sx px ex) (S754_finite sy py ey) with
  | S754_zero s' | S754_finite s' _ _ | S754_infinity s' => s' = xorb sx sy
  | S754_nan => True
  end.
Proof. apply binary_round_aux_sign. Qed.

Lemma trunc_nonneg (p : positive) (e : Z) :
  0 <= default 0 (trunc (S754_finite false p e)).
Proof.
  cbn [trunc default from_option cond_Zopp]. unfold id.
  destruct (Z.leb_spec 0 e).
  - pose proof (Rounding.pow2_pos e ltac:(lia)). nia.
  - apply Z.div_pos; [lia|]. apply Rounding.pow2_pos. lia.
Qed.

Lemma allocate_fits (m : Np.memory) (t : dtype) (size : Z) :
  0 <= size <= Np.max_intp ->
  Np.itemsize t * size <= Z.of_N (Np.available m) ->
  Np.allocate m t size = Ok tt.
Proof.
  intros Hs Hroom. unfold Np.allocate.
  destruct (Z.ltb_spec size (- Np.max_intp - 1)); [lia|].
  destruct (Z.ltb_spec Np.max_intp size); [lia|]. cbn [orb].
  destruct (Z.ltb_spec size 0); [lia|].
  destruct (Z.ltb_spec (Z.of_N (Np.available m)) (Np.itemsize t * size)); [lia|].
  reflexivity.
Qed.

Lemma random_normal_length (m : Np.memory) (size : Z) (g : Np.rng) :
  0 <= size <= Np.max_intp ->
  8 * size <= Z.of_N (Np.available m) ->
  exists samples,
    fst (Np.random_normal m size g) = Ok samples /\
    length samples = Z.to_nat size.
Proof.
  intros Hs Hroom. unfold Np.random_normal.
  rewrite (allocate_fits m float64 size Hs Hroom).
  eexists. split; [reflexivity|]. rewrite length_fmap, length_seq. reflexivity.
Qed.

(** C9 (as the code has it). For every duration that is not negative and
    whose sample count [n = int(SAMPLE_RATE * duration)] NumPy can hold (the
    count fits the index type and the [8 * n] bytes are there),
    [generate_white_noise] returns [n] samples: the product rounded in
    binary64 and then truncated toward zero, at the sample rate 44100.  A
    zero duration gives the empty buffer. *)
Theorem generate_white_noise_length (m : Np.memory) (duration_seconds : spec_float)
    (g : Np.rng) (n : Z) :
  leb Py.zero duration_seconds = true ->
  Py.int (Py.float_mul (Py.float_of_int SAMPLE_RATE) duration_seconds) = Ok n ->
  n <= Np.max_intp -> 8 * n <= Z.of_N (Np.available m) ->
  0 <= n /\
  exists samples,
    fst (generate_white_noise m duration_seconds g) = Ok samples /\
    length samples = Z.to_nat n /\
    (eqb duration_seconds Py.zero = true -> samples = []).
Proof.
  intros Hpos Hcount Hmax Hroom. unfold generate_white_noise.
  change SAMPLE_RATE with 44100 in *.
  set (product := Py.float_mul (Py.float_of_int 44100) duration_seconds) in *.
  assert (Hprod : product = S754_zero false \/ product = S754_zero true \/
                  exists p e, product = S754_finite false p e).
  { destruct duration_seconds as [s|s| |s p e]; try discriminate.
    - destruct s; vm_compute; auto.
    - destruct s.
      + exfalso. unfold leb, compare, dyadic, Py.zero in Hpos. cbn [cond_Zopp] in Hpos.
        rewrite (dyadic_compare_nonneg_neg 0) in Hpos by lia. discriminate.
      + pose proof (SFmul_sign 53 1024 false 6061057848115200 (-37) false p e) as Hs.
        change (SFmul 53 1024 (S754_finite false 6061057848115200 (-37))
                  (S754_finite false p e)) with product in Hs.
        destruct product as [s'|s'| |s' p' e']; try discriminate;
          simpl in Hs; subst s'; eauto. }
  assert (Hzero : eqb duration_seconds Py.zero = true ->
                  product = S754_zero false \/ product = S754_zero true).
  { intros Heq. destruct duration_seconds as [s|s| |s p e]; try discriminate.
    - destruct s; vm_compute; auto.
    - exfalso. destruct s; unfold eqb, compare, dyadic, Py.zero in Heq;
        cbn [cond_Zopp] in Heq.
      + rewrite (dyadic_compare_neg_nonneg (Z.neg p)) in Heq by lia. discriminate.
      + rewrite (dyadic_compare_pos_nonpos (Z.pos p)) in Heq by lia. discriminate. }
  assert (Hn : 0 <= n /\ (eqb duration_seconds Py.zero = true -> n = 0)).
  { destruct Hprod as [Hp | [Hp | (p & e & Hp)]]; rewrite Hp in Hcount;
      injection Hcount as <-.
    - split; [reflexivity | reflexivity].
    - split; [reflexivity | reflexivity].
    - split; [apply trunc_nonneg|].
      intros Heq. destruct (Hzero Heq) as [Hz | Hz]; rewrite Hz in Hp; discriminate. }
  destruct Hn as [Hn Hn0]. split; [exact Hn|].
  destruct (random_normal_length m n g (conj Hn Hmax) Hroom)
    as (samples & Hsamples & Hlen).
  exists samples. run_monad. rewrite Hcount.
  split; [exact Hsamples|]. split; [exact Hlen|].
  intros Heq. rewrite (Hn0 Heq) in Hlen. apply nil_length_inv. exact Hlen.
Qed.

Lemma generate_white_noise_length_witness :
  0 <= 352800 /\
  exists samples,
    fst (generate_white_noise roomy BUFFER_SECONDS (random fresh_world))
    = Ok samples /\
    length samples = Z.to_nat 352800 /\
    (eqb BUFFER_SECONDS Py.zero = true -> samples = []).
Proof.
  apply (generate_white_noise_length roomy BUFFER_SECONDS (random fresh_world)
           352800); vm_compute; (reflexivity || discriminate).
Defined.

(** The default buffer of eight seconds holds 352800 samples. *)
Example default_buffer_length :
  Py.int (Py.float_mul (Py.float_of_int SAMPLE_RATE) BUFFER_SECONDS) = Ok 352800.
Proof. vm_compute. reflexivity. Qed.

(** Truncation, not rounding: a duration of 2^-14 s is 2.69 sample periods;
    the code returns two samples where rounding would give three. *)
Lemma generate_white_noise_truncates :
  let duration := S754_finite false 4503599627370496 (-66) in
  (exists samples,
     fst (generate_white_noise roomy duration (random fresh_world)) = Ok samples /\
     length samples = 2%nat) /\
  Py.round (Py.float_mul (Py.float_of_int SAMPLE_RATE) duration) = Ok 3.
Proof.
  split.
  - eexists. split; vm_compute; reflexivity.
  - vm_compute. reflexivity.
Qed.

(** ** Conversion to 16-bit samples *)

Lemma astype_int16_range (undefined : spec_float -> Z) (x : spec_float) :
  -32768 <= Np.astype_int16 undefined x <= 32767.
Proof.
  unfold Np.astype_int16, Np.wrap16.
  pose proof (Z.mod_pos_bound (undefined x + 32768) 65536 ltac:(lia)).
  destruct (trunc x) as [z|]; [|lia].
  destruct (Z.leb_spec (-32768) z); destruct (Z.leb_spec z 32767); simpl; lia.
Qed.

(** Truncation is monotone against integers. *)
Lemma trunc_signed_le (s : bool) (m : positive) (e K : Z) :
  dyadic_compare (cond_Zopp s (Z.pos m), e) (K, 0) <> Gt ->
  default 0 (trunc (S754_finite s m e)) <= K.
Proof.
  intros Hc. rewrite (Rounding.dyadic_compare_scale (Z.min e 0)) in Hc by lia.
  rewrite Z.compare_gt_iff in Hc.
  cbn [trunc default from_option]. unfold id.
  destruct (Z.leb_spec 0 e) as [He|He].
  - replace (Z.min e 0) with 0 in Hc by lia.
    rewrite !Z.sub_0_r in Hc. simpl (2 ^ 0) in Hc.
    destruct s; simpl cond_Zopp in *; lia.
  - replace (Z.min e 0) with e in Hc by lia.
    rewrite Z.sub_diag in Hc. simpl (2 ^ 0) in Hc.
    replace (0 - e) with (- e) in Hc by lia.
    pose proof (Rounding.pow2_pos (- e) ltac:(lia)) as Hp.
    pose proof (Z.div_mod (Z.pos m) (2 ^ (- e)) ltac:(lia)) as Hdm.
    pose proof (Z.mod_pos_bound (Z.pos m) (2 ^ (- e)) Hp) as Hr.
    destruct s; simpl cond_Zopp in *; nia.
Qed.

Lemma trunc_signed_ge (s : bool) (m : positive) (e K : Z) :
  dyadic_compare (cond_Zopp s (Z.pos m), e) (K, 0) <> Lt ->
  K <= default 0 (trunc (S754_finite s m e)).
Proof.
  intros Hc. rewrite (Rounding.dyadic_compare_scale (Z.min e 0)) in Hc by lia.
  rewrite Z.compare_lt_iff in Hc.
  cbn [trunc default from_option]. unfold id.
  destruct (Z.leb_spec 0 e) as [He|He].
  - replace (Z.min e 0) with 0 in Hc by lia.
    rewrite !Z.sub_0_r in Hc. simpl (2 ^ 0) in Hc.
    destruct s; simpl cond_Zopp in *; lia.
  - replace (Z.min e 0) with e in Hc by lia.
    rewrite Z.sub_diag in Hc. simpl (2 ^ 0) in Hc.
    replace (0 - e) with (- e) in Hc by lia.
    pose proof (Rounding.pow2_pos (- e) ltac:(lia)) as Hp.
    pose proof (Z.div_mod (Z.pos m) (2 ^ (- e)) ltac:(lia)) as Hdm.
    pose proof (Z.mod_pos_bound (Z.pos m) (2 ^ (- e)) Hp) as Hr.
    destruct s; simpl cond_Zopp in *; nia.
Qed.

Lemma SFmul_finite_not_nan (pr em : Z) (sx sy : bool) (px py : positive) (ex ey : Z) :
  is_nan (SFmul pr em (S754_finite sx px ex) (S754_finite sy py ey)) = false.
Proof.
  unfold SFmul. change loc_Exact with (loc_of 0 1).
  rewrite Rounding.binary_round_aux_unfold by lia. cbv zeta.
  match goal with
  | |- is_nan (match ?q with _ => _ end) = false =>
      assert (Hq : 0 <= q); [|destruct q; try reflexivity;
                               [match goal with
                                | |- context [if ?c then _ else _] => destruct c
                                end; reflexivity | lia]]
  end.
  apply Z.div_pos; [|apply Rounding.pow2_pos; lia].
  match goal with
  | |- 0 <= round_nearest_even ?m1 (loc_of ?a ?b) =>
      pose proof (Rounding.round_nearest_even_loc m1 a b) as Hr
  end.
  cbv zeta in Hr.
  match type of Hr with
  | ?P -> _ => assert (HP : P); [|specialize (Hr HP)]
  end.
  { match goal with
    | |- 0 <= ?r * 1 + 0 < ?k * 1 =>
        assert (0 < k) by (apply Rounding.pow2_pos; lia);
        assert (0 <= r < k) by (apply Z.mod_pos_bound; lia); lia
    end. }
  match type of Hr with
  | (?m1 <= _ <= _) /\ _ => assert (0 <= m1)
      by (apply Z.div_pos; [lia | apply Rounding.pow2_pos; lia])
  end.
  lia.
Qed.

Lemma clip_then_truncate (undefined : spec_float -> Z) (p : spec_float) :
  is_nan p = false ->
  Np.astype_int16 undefined
    (Np.clip p (of_Z float32 (-32768)) (of_Z float32 32767))
  = saturate16 p.
Proof.
  intros Hnan.
  change (of_Z float32 (-32768)) with (S754_finite true 8388608 (-8)).
  change (of_Z float32 32767) with (S754_finite false 16776704 (-9)).
  destruct p as [s|s| |s m e]; try discriminate.
  - destruct s; reflexivity.
  - destruct s; reflexivity.
  - unfold Np.clip, Np.maximum. cbn [is_nan orb]. unfold geb, leb.
    unfold compare, dyadic.
    change (cond_Zopp true 8388608) with (Z.neg 8388608).
    destruct (dyadic_compare (Z.neg 8388608, -8) (cond_Zopp s (Z.pos m), e)) eqn:Hlo.
    all: rewrite dyadic_compare_antisym in Hlo.
    all: change (Z.neg 8388608, -8) with (-32768 * 2 ^ 8, 0 - 8) in Hlo.
    all: rewrite dyadic_compare_shift_r in Hlo by lia.
    3: { (* below the range *)
      assert (Hle : dyadic_compare (cond_Zopp s (Z.pos m), e) (-32768, 0) <> Gt).
      { destruct (dyadic_compare (cond_Zopp s (Z.pos m), e) (-32768, 0));
          simpl in Hlo; congruence. }
      pose proof (trunc_signed_le s m e (-32768) Hle) as Ht.
      unfold saturate16. change (Np.astype_int16 undefined _) with (-32768). lia. }
    all: assert (Hge : dyadic_compare (cond_Zopp s (Z.pos m), e) (-32768, 0) <> Lt)
      by (destruct (dyadic_compare (cond_Zopp s (Z.pos m), e) (-32768, 0));
          simpl in Hlo; congruence).
    all: pose proof (trunc_signed_ge s m e (-32768) Hge) as Hlow.
    all: unfold Np.minimum; cbn [is_nan orb]; unfold leb, compare, dyadic.
    all: change (cond_Zopp false 16776704) with 16776704.
    all: destruct (dyadic_compare (cond_Zopp s (Z.pos m), e) (16776704, -9)) eqn:Hhi.
    all: change (16776704, -9) with (32767 * 2 ^ 9, 0 - 9) in Hhi.
    all: rewrite dyadic_compare_shift_r in Hhi by lia.
    all: try (assert (Hle : dyadic_compare (cond_Zopp s (Z.pos m), e) (32767, 0) <> Gt)
                by congruence;
              pose proof (trunc_signed_le s m e 32767 Hle) as Hup;
              unfold saturate16, Np.astype_int16;
              destruct (trunc (S754_finite s m e)) as [z|] eqn:Hz;
                [|discriminate];
              cbn [default from_option] in Hlow, Hup |- *; unfold id in *;
              destruct (Z.leb_spec (-32768) z); [|lia];
              destruct (Z.leb_spec z 32767); [|lia];
              simpl; lia).
    all: assert (Hge' : dyadic_compare (cond_Zopp s (Z.pos m), e) (32767, 0) <> Lt)
      by congruence.
    all: pose proof (trunc_signed_ge s m e 32767 Hge') as Hup.
    all: unfold saturate16; change (Np.astype_int16 undefined _) with 32767; lia.
Qed.

(** C3 (as the code has it). Every shaped sample is encoded as
    [x * 32767] (rounded in binary32), clipped to [-32768, 32767] and then
    truncated toward zero by [astype(np.int16)]; every value of the encoded
    buffer lies in [-32768, 32767]. *)
Theorem to_int16_truncates_in_range (h : host) :
  (forall x, -32768 <= to_int16 h x <= 32767) /\
  (forall x, is_nan x = false ->
     to_int16 h x = saturate16 (mul float32 x (of_Z float32 32767))) /\
  (forall samples : Np.shaped spec_float,
     Forall (fun z => -32768 <= z <= 32767)
       (Np.shaped_entries (Np.shaped_map (to_int16 h) samples))).
Proof.
  assert (Hrange : forall x, -32768 <= to_int16 h x <= 32767)
    by (intros x; apply astype_int16_range).
  split; [exact Hrange|]. split.
  - intros x Hx. unfold to_int16. apply clip_then_truncate.
    change (of_Z float32 32767) with (S754_finite false 16776704 (-9)).
    destruct x as [s|s| |s m e]; try discriminate; try reflexivity.
    apply SFmul_finite_not_nan.
  - intros [l | c rows]; simpl.
    + apply Forall_fmap. apply Forall_forall. intros x _. apply Hrange.
    + apply Forall_concat. apply Forall_fmap. apply Forall_forall. intros row _.
      apply Forall_fmap. apply Forall_forall. intros x _. apply Hrange.
Qed.

(** Truncation, not rounding: the sample 0.25 scales to 8191.75 and is
    stored as 8191; rounding to nearest would give 8192. *)
Lemma to_int16_truncates :
  let x := S754_finite false 8388608 (-25) in
  mul float32 x (of_Z float32 32767) = S754_finite false 16776704 (-11) /\
  to_int16 host_with_files x = 8191 /\
  Z.max (-32768)
    (Z.min 32767
       (default 0 (round_half_even (mul float32 x (of_Z float32 32767)))))
  = 8192.
Proof. vm_compute. repeat split; reflexivity. Qed.

(** ** Order on finite values *)

Lemma compare_finite (x y : spec_float) :
  is_finite x = true -> is_finite y = true ->
  compare x y = Some (dyadic_compare (dyadic x) (dyadic y)).
Proof. destruct x, y; try discriminate; reflexivity. Qed.

Lemma leb_finite (x y : spec_float) :
  is_finite x = true -> is_finite y = true ->
  leb x y = true <-> dyadic_compare (dyadic x) (dyadic y) <> Gt.
Proof.
  intros Hx Hy. unfold leb. rewrite compare_finite by assumption.
  destruct (dyadic_compare (dyadic x) (dyadic y)); split; congruence.
Qed.

Lemma leb_refl (x : spec_float) : is_finite x = true -> leb x x = true.
Proof.
  intros Hx. apply leb_finite; try assumption.
  rewrite dyadic_compare_refl. discriminate.
Qed.

Lemma leb_trans (x y z : spec_float) :
  is_finite x = true -> is_finite y = true -> is_finite z = true ->
  leb x y = true -> leb y z = true -> leb x z = true.
Proof.
  intros Hx Hy Hz Hxy Hyz.
  apply leb_finite in Hxy; try assumption. apply leb_finite in Hyz; try assumption.
  apply leb_finite; try assumption. eapply dyadic_le_trans; eassumption.
Qed.

Lemma leb_total (x y : spec_float) :
  is_finite x = true -> is_finite y = true ->
  leb y x = false -> leb x y = true.
Proof.
  intros Hx Hy. unfold leb. rewrite !compare_finite by assumption.
  rewrite (dyadic_compare_antisym (dyadic y) (dyadic x)).
  destruct (dyadic_compare (dyadic y) (dyadic x)); simpl; congruence.
Qed.

Lemma eqb_of_leb (x y : spec_float) :
  is_finite x = true -> is_finite y = true ->
  leb x y = true -> leb y x = true -> eqb x y = true.
Proof.
  intros Hx Hy. unfold leb, eqb. rewrite !compare_finite by assumption.
  rewrite (dyadic_compare_antisym (dyadic y) (dyadic x)).
  destruct (dyadic_compare (dyadic y) (dyadic x)); simpl; congruence.
Qed.

Lemma is_finite_abs (x : spec_float) : is_finite (SFabs x) = is_finite x.
Proof. destruct x; reflexivity. Qed.

(** [np.max] of finite values is one of them and bounds them all. *)
Lemma foldl_maximum_finite (rest : list spec_float) (x : spec_float) :
  is_finite x = true -> Forall (fun y => is_finite y = true) rest ->
  let peak := foldl Np.maximum x rest in
  is_finite peak = true /\ peak ∈ x :: rest /\
  Forall (fun y => leb y peak = true) (x :: rest).
Proof.
  revert x. induction rest as [|y rest IH]; intros x Hx Hrest; cbv zeta.
  - simpl. split; [exact Hx|]. split; [apply list_elem_of_here|].
    constructor; [apply leb_refl; exact Hx | constructor].
  - apply Forall_cons in Hrest as [Hy Hrest]. simpl foldl.
    assert (Hm : Np.maximum x y = x /\ leb y x = true \/
                 Np.maximum x y = y /\ leb x y = true).
    { unfold Np.maximum, geb.
      replace (is_nan x) with false by (destruct x; reflexivity || discriminate).
      simpl orb. destruct (leb y x) eqn:Hyx; [left | right]; split; try reflexivity.
      apply leb_total; assumption. }
    destruct Hm as [[-> Hle] | [-> Hle]].
    + destruct (IH x Hx Hrest) as (Hf & Hin & Hall). cbv zeta in *.
      split; [exact Hf|]. split.
      * apply elem_of_cons in Hin as [-> | Hin];
          [apply list_elem_of_here | do 2 apply list_elem_of_further; exact Hin].
      * apply Forall_cons in Hall as [Hxp Hall].
        constructor; [exact Hxp|]. constructor; [|exact Hall].
        apply (leb_trans y x); assumption.
    + destruct (IH y Hy Hrest) as (Hf & Hin & Hall). cbv zeta in *.
      split; [exact Hf|]. split.
      * apply list_elem_of_further. exact Hin.
      * apply Forall_cons in Hall as [Hyp Hall].
        constructor; [|constructor; assumption].
        apply (leb_trans x y); assumption.
Qed.

(** ** Normalisation *)

Lemma compare_unit_one (x : spec_float) : compare x unit_float = compare x Py.one.
Proof.
  destruct x as [s|s| |s m e]; try reflexivity; unfold compare, dyadic, unit_float, Py.one;
    cbn [cond_Zopp]; f_equal; symmetry;
    change (4503599627370496, -52) with (1 * 2 ^ 52, 0 - 52);
    apply dyadic_compare_shift_r; lia.
Qed.

Lemma leb_unit_zero_abs (x : spec_float) :
  is_finite x = true -> leb (S754_zero false) (SFabs x) = true.
Proof.
  intros Hx. destruct x as [s|s| |s m e]; try discriminate; try reflexivity.
  unfold leb, compare, SFabs, dyadic. cbn [cond_Zopp].
  rewrite (dyadic_compare_nonpos_pos 0) by lia. reflexivity.
Qed.

Section Normalize.
Variable t : dtype.
Hypothesis Hprec : 0 < prec t.
Hypothesis Hemax : prec t < emax t.

Lemma unit_on_grid : fexp (prec t) (emax t) (Zdigits2 1 + 0) <= 0.
Proof. unfold fexp, SpecFloat.emin. simpl Zdigits2. lia. Qed.

Lemma div_by_peak (x : spec_float) (p : positive) (e : Z) :
  finite_in t x = true ->
  leb (SFabs x) (S754_finite false p e) = true ->
  let r := div t x (S754_finite false p e) in
  finite_in t r = true /\ leb (SFabs r) unit_float = true.
Proof.
  intros Hx Hle r. unfold finite_in in *. apply andb_true_iff in Hx as [Hfin Hval].
  destruct x as [s|s| |s px ex]; try discriminate.
  - split; reflexivity.
  - unfold leb, compare, SFabs, dyadic in Hle. cbn [cond_Zopp] in Hle.
    destruct (Rounding.SFdiv_upper (prec t) (emax t) Hprec s false px p 1 ex e 0
                unit_on_grid ltac:(lia)) as (Hf & Hv & Hb & _).
    { replace (1 * Z.pos p) with (Z.pos p) by lia. replace (0 + e) with e by lia.
      destruct (dyadic_compare (Z.pos px, ex) (Z.pos p, e)); congruence. }
    fold (div t (S754_finite s px ex) (S754_finite false p e)) in Hf, Hv, Hb.
    fold r in Hf, Hv, Hb. split; [|exact Hb].
    apply andb_true_iff. split; assumption.
Qed.

Lemma div_peak_itself (s : bool) (p : positive) (e : Z) :
  let r := div t (S754_finite s p e) (S754_finite false p e) in
  eqb (SFabs r) unit_float = true.
Proof.
  intros r.
  destruct (Rounding.SFdiv_same (prec t) (emax t) Hprec Hemax s false p e)
    as (_ & _ & Heq).
  exact Heq.
Qed.

End Normalize.

Lemma finite_in_finite (t : dtype) (x : spec_float) :
  finite_in t x = true -> is_finite x = true.
Proof. unfold finite_in. intros H. apply andb_true_iff in H. tauto. Qed.

Lemma normalize_zero (t : dtype) (samples : Np.ndarray) :
  samples <> [] ->
  Forall (fun x => eqb x Py.zero = true) samples ->
  normalize t samples = Ok samples.
Proof.
  intros Hne Hz. unfold normalize.
  assert (Habs : Np.abs samples = replicate (length samples) (S754_zero false)).
  { clear Hne. unfold Np.abs. induction Hz as [|x l Hx Hl IH]; [reflexivity|].
    simpl. f_equal; [|exact IH].
    destruct x as [s|s| |s m e]; try discriminate; try reflexivity.
    - destruct s; discriminate.
    - exfalso. unfold eqb, compare, dyadic, Py.zero in Hx.
      destruct s; cbn [cond_Zopp] in Hx.
      + rewrite (dyadic_compare_neg_nonneg (Z.neg m)) in Hx by lia. discriminate.
      + rewrite (dyadic_compare_pos_nonpos (Z.pos m)) in Hx by lia. discriminate. }
  rewrite Habs. destruct samples as [|x rest]; [contradiction|].
  simpl replicate. unfold Np.max.
  assert (Hfold : forall n, foldl Np.maximum (S754_zero false)
                              (replicate n (S754_zero false)) = S754_zero false).
  { induction n as [|n IHn]; [reflexivity|]. simpl. exact IHn. }
  rewrite Hfold. reflexivity.
Qed.

Lemma eqb_leb_sym (x y : spec_float) :
  is_finite x = true -> is_finite y = true -> eqb x y = true -> leb y x = true.
Proof.
  intros Hx Hy. unfold eqb, leb. rewrite !compare_finite by assumption.
  rewrite (dyadic_compare_antisym (dyadic x) (dyadic y)).
  destruct (dyadic_compare (dyadic x) (dyadic y)); simpl; congruence.
Qed.

(** C5. For every non-empty signal of finite samples whose largest magnitude
    is not zero, [normalize] returns a signal whose largest magnitude is
    exactly 1.0; a non-empty signal of zeros is returned as it is, without a
    division. *)
Theorem normalize_peak_is_one (t : dtype) (samples : Np.ndarray) :
  0 < prec t -> prec t < emax t ->
  samples <> [] ->
  Forall (fun x => finite_in t x = true) samples ->
  (forall peak,
     Np.max (Np.abs samples) = Ok peak -> eqb peak Py.zero = false ->
     exists out peak',
       normalize t samples = Ok out /\
       length out = length samples /\
       Forall (fun x => finite_in t x = true) out /\
       Np.max (Np.abs out) = Ok peak' /\
       eqb peak' Py.one = true) /\
  (Forall (fun x => eqb x Py.zero = true) samples ->
   normalize t samples = Ok samples).
Proof.
  intros Hprec Hemax Hne Hfinite. split; [|apply normalize_zero; assumption].
  intros peak Hpeak Hnz.
  destruct samples as [|x0 rest]; [contradiction|].
  assert (Hfin : Forall (fun y => is_finite y = true) (Np.abs (x0 :: rest))).
  { unfold Np.abs. apply Forall_fmap. eapply Forall_impl; [exact Hfinite|].
    intros x Hx. simpl. rewrite is_finite_abs. eapply finite_in_finite; exact Hx. }
  unfold Np.abs in Hfin, Hpeak. rewrite fmap_cons in Hfin, Hpeak.
  apply Forall_cons in Hfin as [Hfin0 Hfinr].
  simpl in Hpeak. injection Hpeak as Hpeak.
  destruct (foldl_maximum_finite _ _ Hfin0 Hfinr) as (Hpf & Hpin & Hpall).
  cbv zeta in Hpf, Hpin, Hpall. rewrite Hpeak in Hpf, Hpin, Hpall.
  rewrite <- fmap_cons in Hpin, Hpall.
  apply list_elem_of_fmap in Hpin as (xj & Hxj & Hjin).
  assert (Hshape : exists s p e, xj = S754_finite s p e /\ peak = S754_finite false p e).
  { destruct xj as [s|s| |s p e]; simpl in Hxj; rewrite Hxj in Hnz, Hpf;
      try discriminate.
    eauto. }
  destruct Hshape as (sj & p & e & Hxj' & Hpk).
  set (out := (fun x => div t x peak) <$> (x0 :: rest)).
  assert (Hnorm : normalize t (x0 :: rest) = Ok out).
  { unfold normalize, Np.abs. rewrite fmap_cons. simpl Np.max. rewrite Hpeak.
    simpl. rewrite Hnz. reflexivity. }
  assert (Hout : Forall (fun o => finite_in t o = true /\
                                  leb (SFabs o) unit_float = true) out).
  { unfold out. apply Forall_fmap. apply Forall_forall. intros x Hx. simpl.
    rewrite Hpk. apply div_by_peak; try assumption.
    - eapply Forall_forall in Hfinite; eauto.
    - rewrite <- Hpk. eapply Forall_forall in Hpall; [exact Hpall|].
      apply list_elem_of_fmap. eauto. }
  assert (Hoj : div t xj peak ∈ out).
  { unfold out. apply list_elem_of_fmap. eauto. }
  assert (Hofin : Forall (fun y => is_finite y = true) (Np.abs out)).
  { unfold Np.abs. apply Forall_fmap. eapply Forall_impl; [exact Hout|].
    intros o [Ho _]. simpl. rewrite is_finite_abs. eapply finite_in_finite; exact Ho. }
  destruct out as [|o0 orest] eqn:Eout; [discriminate|].
  unfold Np.abs in Hofin. rewrite fmap_cons in Hofin.
  apply Forall_cons in Hofin as [Hof0 Hofr].
  destruct (foldl_maximum_finite _ _ Hof0 Hofr) as (Hqf & Hqin & Hqall).
  cbv zeta in Hqf, Hqin, Hqall.
  set (peak' := foldl Np.maximum (SFabs o0) (SFabs <$> orest)) in *.
  rewrite <- fmap_cons in Hqin, Hqall.
  exists (o0 :: orest), peak'.
  split; [exact Hnorm|]. split.
  { rewrite <- Eout. unfold out. rewrite length_fmap. reflexivity. }
  split.
  { eapply Forall_impl; [exact Hout|]. intros o [Ho _]. exact Ho. }
  split; [reflexivity|].
  (* the largest magnitude is at most one *)
  assert (Hle : leb peak' unit_float = true).
  { apply list_elem_of_fmap in Hqin as (o & -> & Hoin).
    eapply Forall_forall in Hout; [|exact Hoin]. apply Hout. }
  (* and the peak sample itself has magnitude one *)
  assert (Hge : leb unit_float peak' = true).
  { pose proof (div_peak_itself t Hprec Hemax sj p e) as Hone. cbv zeta in Hone.
    rewrite <- Hxj', <- Hpk in Hone.
    assert (Hojf : is_finite (SFabs (div t xj peak)) = true).
    { rewrite is_finite_abs. eapply finite_in_finite.
      eapply Forall_forall in Hout; [|exact Hoj]. apply Hout. }
    apply (leb_trans unit_float (SFabs (div t xj peak))); try assumption;
      try reflexivity.
    - apply eqb_leb_sym; try assumption; reflexivity.
    - eapply Forall_forall in Hqall; [exact Hqall|].
      apply list_elem_of_fmap. eauto. }
  unfold eqb. rewrite <- compare_unit_one.
  apply eqb_of_leb; try assumption; reflexivity.
Qed.

Lemma normalize_peak_is_one_witness :
  (forall peak,
     Np.max (Np.abs (of_Z float32 <$> [3; -4; 1])) = Ok peak ->
     eqb peak Py.zero = false ->
     exists out peak',
       normalize float32 (of_Z float32 <$> [3; -4; 1]) = Ok out /\
       length out = length (of_Z float32 <$> [3; -4; 1]) /\
       Forall (fun x => finite_in float32 x = true) out /\
       Np.max (Np.abs out) = Ok peak' /\
       eqb peak' Py.one = true) /\
  (Forall (fun x => eqb x Py.zero = true) (of_Z float32 <$> [3; -4; 1]) ->
   normalize float32 (of_Z float32 <$> [3; -4; 1]) = Ok (of_Z float32 <$> [3; -4; 1])).
Proof.
  apply (normalize_peak_is_one float32 (of_Z float32 <$> [3; -4; 1])).
  - simpl. lia.
  - simpl. lia.
  - discriminate.
  - repeat constructor.
Defined.

(** ** Values stay well formed through shaping *)

Lemma Forall_zip_with {A B C} (P : A -> Prop) (Q : B -> Prop) (R : C -> Prop)
    (f : A -> B -> C) (l : list A) (k : list B) :
  (forall x y, P x -> Q y -> R (f x y)) ->
  Forall P l -> Forall Q k -> Forall R (zip_with f l k).
Proof.
  intros Hf Hl. revert k. induction Hl as [|x l Hx Hl IH]; intros k Hk.
  - constructor.
  - destruct Hk as [|y k Hy Hk]; [constructor|].
    simpl. constructor; [apply Hf; assumption | apply IH; assumption].
Qed.

Section Valid.
Variable t : dtype.
Hypothesis Hprec : 0 < prec t.
Hypothesis Hemax : prec t < emax t.

Local Abbreviation valid := (fun x => valid_binary (prec t) (emax t) x = true).

Lemma cast_valid (x : spec_float) : valid (cast t x).
Proof.
  destruct x as [s|s| |s m e]; try reflexivity.
  apply Rounding.binary_round_valid. exact Hprec.
Qed.

Lemma cast_id (x : spec_float) : valid x -> cast t x = x.
Proof.
  destruct x as [s|s| |s m e]; try reflexivity.
  intros Hv. simpl in Hv. unfold cast, binary_round.
  pose proof (proj1 (Rounding.bounded_spec _ _ _ _) Hv) as [Hc _].
  simpl Zdigits2 in Hc. rewrite Hc. unfold shl_align. rewrite Z.sub_diag.
  apply Rounding.binary_round_aux_exact. exact Hv.
Qed.

Lemma linspace_valid (start stop : spec_float) (num : Z) :
  Forall valid (Np.linspace start stop num t).
Proof.
  unfold Np.linspace. apply Forall_fmap. apply Forall_forall.
  intros x _. apply cast_valid.
Qed.

Lemma normalize_valid (samples out : Np.ndarray) :
  Forall valid samples -> normalize t samples = Ok out -> Forall valid out.
Proof.
  intros Hs. unfold normalize. destruct (Np.max _) as [peak|]; simpl; [|discriminate].
  destruct (eqb peak Py.zero); intros [= <-]; [exact Hs|].
  apply Forall_fmap. apply Forall_forall. intros x _.
  apply Rounding.SFdiv_valid. exact Hprec.
Qed.

Lemma apply_fade_edges_valid (samples out : Np.ndarray) (fade_duration : spec_float) :
  Forall valid samples ->
  apply_fade_edges t samples fade_duration = Ok out -> Forall valid out.
Proof.
  intros Hs Hrun.
  destruct (fade_length samples fade_duration) as [fl|] eqn:Hfl.
  2: { unfold apply_fade_edges in Hrun. rewrite Hfl in Hrun. discriminate. }
  destruct (Z_lt_le_dec 0 fl) as [Hpos|Hnon].
  - rewrite (apply_fade_edges_shape t samples fade_duration fl Hfl Hpos) in Hrun.
    cbv zeta in Hrun. injection Hrun as <-.
    assert (Hmul : forall x y, valid x -> valid y -> valid (mul t x y))
      by (intros; apply Rounding.SFmul_valid; assumption).
    repeat apply Forall_app_2.
    + apply (Forall_zip_with valid valid valid); auto using Forall_take, linspace_valid.
    + apply Forall_take, Forall_drop. exact Hs.
    + apply (Forall_zip_with valid valid valid); auto using Forall_drop.
      apply Forall_reverse. apply linspace_valid.
  - unfold apply_fade_edges in Hrun. rewrite Hfl in Hrun. simpl in Hrun.
    destruct (Z.leb_spec fl 0); [|lia]. injection Hrun as <-. exact Hs.
Qed.

End Valid.

(** ** Creation of a sound from a generator *)

Lemma shaped_for_playback_valid (generated shaped : Np.ndarray) :
  shaped_for_playback generated = Ok shaped ->
  Forall (fun x => valid_binary 24 128 x = true) shaped.
Proof.
  unfold shaped_for_playback.
  destruct (normalize float32 (cast float32 <$> generated)) as [normalized|] eqn:Hn;
    simpl; [|discriminate].
  intros Hf.
  apply (apply_fade_edges_valid float32 ltac:(simpl; lia) ltac:(simpl; lia)
           normalized shaped Py.tenth); [|exact Hf].
  apply (normalize_valid float32 ltac:(simpl; lia) (cast float32 <$> generated));
    [|exact Hn].
  apply Forall_fmap. apply Forall_forall. intros x _.
  apply (cast_valid float32). simpl. lia.
Qed.

Lemma cast_shaped_id (shaped : Np.ndarray) :
  Forall (fun x => valid_binary 24 128 x = true) shaped ->
  cast float32 <$> shaped = shaped.
Proof.
  intros Hv. induction Hv as [|x l Hx Hl IH]; [reflexivity|].
  rewrite fmap_cons, IH. f_equal. apply (cast_id float32). exact Hx.
Qed.

(** What [_create_sound] does once the generator has returned and the
    shaping has succeeded, on an initialised mixer: one attempt with the
    array built for the mixer's channel count and, when that is refused with
    a [ValueError], the diagnostic and one unguarded attempt with the
    one-dimensional array of the same shaped buffer. *)
Lemma create_sound_attempts (h : host) (g : Py.value generator)
    (produce : generator) (generated shaped : Np.ndarray) (w w1 : world) :
  call g = Ok produce ->
  produce w = (Ok generated, w1) ->
  mixer_initialized w1 = true ->
  shaped_for_playback generated = Ok shaped ->
  let channels := mixer_channels h in
  let samples :=
    if channels <=? 1 then Np.Flat shaped else Np.tile_columns shaped channels in
  _create_sound h g w =
  match make_sound_error h (Np.shaped_map (to_int16 h) samples) with
  | None => (Ok (ArraySound (Np.shaped_map (to_int16 h) samples)), w1)
  | Some err =>
      (match make_sound_error h (Np.Flat (to_int16 h <$> shaped)) with
       | None => Ok (ArraySound (Np.Flat (to_int16 h <$> shaped)))
       | Some err' => Raise (ValueError err')
       end,
       snd (print (fallback_diagnostic channels samples err) w1))
  end.
Proof.
  intros Hcall Hgen Hinit Hshape channels samples.
  pose proof (shaped_for_playback_valid _ _ Hshape) as Hvalid.
  unfold shaped_for_playback in Hshape.
  destruct (normalize float32 (cast float32 <$> generated)) as [normalized|] eqn:Hn;
    simpl in Hshape; [|discriminate].
  unfold _create_sound. rewrite Hcall. run_monad. rewrite Hgen, Hn, Hshape.
  unfold mixer_get_init. run_monad. rewrite Hinit.
  change (let '(_, _, c) := mixer_format h in c) with (mixer_channels h).
  fold channels. fold samples.
  unfold make_sound at 1, mixer_init_check. run_monad. rewrite Hinit.
  destruct (make_sound_error h (Np.shaped_map (to_int16 h) samples)) as [err|];
    [|reflexivity].
  run_monad. rewrite (cast_shaped_id shaped Hvalid).
  unfold make_sound, mixer_init_check. run_monad. cbn [mixer_initialized].
  rewrite Hinit.
  destruct (make_sound_error h (Np.Flat (to_int16 h <$> shaped))); reflexivity.
Qed.




(** ** Edge fades *)

Lemma dyadic_compare_mono_l (a b e : Z) (x : Z * Z) :
  a <= b -> dyadic_compare (b, e) x <> Gt -> dyadic_compare (a, e) x <> Gt.
Proof.
  intros Hab. destruct x as [mx ex]. unfold dyadic_compare. cbn [fst snd].
  pose proof (Rounding.pow2_pos (e - Z.min e ex) ltac:(lia)).
  rewrite !Z.compare_gt_iff. nia.
Qed.

Lemma within_unit_finite (s : bool) (p : positive) (e : Z) :
  within_unit (S754_finite s p e) <-> dyadic_compare (Z.pos p, e) (1, 0) <> Gt.
Proof.
  unfold within_unit, leb, compare, SFabs, dyadic, unit_float. cbn [cond_Zopp].
  destruct (dyadic_compare (Z.pos p, e) (1, 0)); split; congruence.
Qed.

Section Fade.
Variable t : dtype.
Hypothesis Hprec : 0 < prec t.
Hypothesis Hemax : prec t < emax t.

(** A factor of magnitude at most one does not raise a magnitude. *)
Lemma mul_shrinks (x r : spec_float) :
  finite_in t x = true -> finite_in t r = true -> within_unit r ->
  finite_in t (mul t x r) = true /\ leb (SFabs (mul t x r)) (SFabs x) = true.
Proof.
  unfold finite_in. intros Hx Hr Hu.
  apply andb_true_iff in Hx as [Hxf Hxv]. apply andb_true_iff in Hr as [Hrf Hrv].
  destruct x as [sx|sx| |sx px ex]; try discriminate;
    destruct r as [sr|sr| |sr pr er]; try discriminate.
  - split; reflexivity.
  - split; reflexivity.
  - split; [reflexivity|].
    apply (leb_unit_zero_abs (S754_finite sx px ex)). reflexivity.
  - simpl in Hxv, Hrv. apply within_unit_finite in Hu.
    pose proof (proj1 (Rounding.bounded_spec _ _ _ _) Hxv) as [Hc Hb].
    destruct (Rounding.SFmul_upper (prec t) (emax t) Hprec Hemax sx sr px pr px
                ex er ex Hxv Hrv ltac:(lia) Hb) as (Hf & Hv & Hle & _).
    { rewrite (Z.mul_comm (Z.pos px)), (Z.add_comm ex).
      apply dyadic_mul_le_one; [lia | exact Hu]. }
    unfold mul. rewrite Hf, Hv. split; [reflexivity | exact Hle].
Qed.

(** Conversion to the format keeps a magnitude at most one. *)
Lemma cast_within_unit (r : spec_float) :
  is_finite r = true -> within_unit r ->
  finite_in t (cast t r) = true /\ within_unit (cast t r).
Proof.
  intros Hf Hu. destruct r as [s|s| |s p e]; try discriminate.
  - split; reflexivity.
  - apply within_unit_finite in Hu.
    destruct (Rounding.binary_round_upper (prec t) (emax t) Hprec s p 1 e 0
                (unit_on_grid t Hprec Hemax) ltac:(lia) Hu) as (Hfin & Hv & Hle & _).
    unfold finite_in, cast. rewrite Hfin, Hv. split; [reflexivity | exact Hle].
Qed.

End Fade.

(** *** The ramp of [np.linspace(0.0, 1.0, n)] *)

(** Integers below [2^53] are binary64 values. *)
Lemma of_Z_float64 (i : Z) :
  0 < i < 2 ^ 53 ->
  exists p e,
    of_Z float64 i = S754_finite false p e /\
    bounded 53 1024 p e = true /\ e <= 0 /\ Z.pos p = i * 2 ^ (- e).
Proof.
  exact (Rounding.binary_normalize_small 53 1024 ltac:(lia) ltac:(lia) i).
Qed.

(** The step [1.0 / d] for a count [d] up to [2^52]: its multiples below
    [d] stay at or under one, although the step itself may be rounded up. *)
Lemma linspace_step (d : Z) :
  1 <= d <= 2 ^ 52 ->
  let step := div float64 Py.one (of_Z float64 d) in
  step = S754_zero false \/
  exists ps es,
    step = S754_finite false ps es /\ bounded 53 1024 ps es = true /\
    forall i, 0 <= i < d -> dyadic_compare (i * Z.pos ps, es) (1, 0) <> Gt.
Proof.
  intros Hd step.
  destruct (of_Z_float64 d ltac:(lia)) as (pd & ed & Hofd & Hbd & Hed & Hpd).
  assert (Hstep : step = SFdiv 53 1024 (S754_finite false 4503599627370496 (-52))
                           (S754_finite false pd ed)).
  { unfold step, div. rewrite Hofd. reflexivity. }
  assert (Hgrid : fexp 53 1024 (Zdigits2 1 + 0) <= 0) by (vm_compute; discriminate).
  destruct (Rounding.SFdiv_upper 53 1024 ltac:(lia) false false 4503599627370496 pd 1
              (-52) ed 0 Hgrid ltac:(lia)) as (Hf & Hv & Hle & Hshape).
  { rewrite Hpd. replace (1 * (d * 2 ^ (- ed))) with (d * 2 ^ (- ed)) by lia.
    replace (0 + ed) with (0 - (- ed)) by lia.
    rewrite dyadic_compare_shift_r by lia.
    unfold dyadic_compare. cbn [fst snd].
    change (Z.min (-52) 0) with (-52). change (-52 - -52) with 0.
    change (0 - -52) with 52. rewrite Z.compare_gt_iff. lia. }
  cbv zeta in Hf, Hv, Hle, Hshape. rewrite <- Hstep in Hf, Hv, Hle, Hshape.
  destruct Hshape as [Hz | (ps & es & Hs)]; [left; exact Hz | right].
  exists ps, es. split; [exact Hs|].
  rewrite Hs in Hv. simpl in Hv. split; [exact Hv|].
  rewrite Hstep in Hs.
  destruct (Rounding.SFdiv_error 53 1024 ltac:(lia) _ _ _ _ _ _ _ _ _ Hs) as [H1 H2].
  assert (Hdd : Zdigits2 (Z.pos pd) + ed = Zdigits2 d).
  { rewrite Hpd, Rounding.Zdigits2_mul_pow2 by lia. lia. }
  assert (Hd53 : Zdigits2 d <= 53) by (apply Rounding.Zdigits2_le; lia).
  rewrite Hdd in H2. change (Zdigits2 4503599627370496) with 53 in H2.
  unfold fexp, SpecFloat.emin in H2.
  pose proof (proj1 (Rounding.bounded_spec _ _ _ _) Hv) as [Hc _].
  unfold fexp, SpecFloat.emin in Hc.
  assert (Hps : Zdigits2 (Z.pos ps) = 53) by lia.
  pose proof (Rounding.Zdigits2_bounds (Z.pos ps) ltac:(lia)) as Hpsb.
  rewrite Hps in Hpsb. change (53 - 1) with 52 in Hpsb.
  rewrite Hpd in H1.
  replace ((Z.pos ps - 1) * (d * 2 ^ (- ed))) with ((Z.pos ps - 1) * d * 2 ^ (- ed))
    in H1 by ring.
  replace (es + ed) with (es - (- ed)) in H1 by lia.
  rewrite dyadic_compare_shift_l in H1 by lia.
  change (4503599627370496, -52) with (1 * 2 ^ 52, 0 - 52) in H1.
  rewrite dyadic_compare_shift_r in H1 by lia.
  intros i Hi.
  apply (dyadic_compare_mono_l (i * Z.pos ps) ((Z.pos ps - 1) * d)); [nia | exact H1].
Qed.

(** Adding the start [0.0] changes nothing but the sign of a zero. *)
Lemma add_zero_keeps (y : spec_float) :
  is_finite y = true ->
  is_finite (add float64 y Py.zero) = true /\
  (within_unit y -> within_unit (add float64 y Py.zero)) /\
  (forall s, y = S754_zero s -> add float64 y Py.zero = S754_zero false).
Proof.
  intros Hy. destruct y as [s|s| |s p e]; try discriminate.
  - destruct s; repeat split; intros; reflexivity.
  - repeat split; [intros H; exact H | intros s' [=]].
Qed.

(** Every entry computed before the last stays in the unit interval, and
    the entry at index zero is the zero it starts from. *)
Lemma linspace_entry (d i : Z) :
  1 <= d <= 2 ^ 52 -> 0 <= i < d ->
  let step := div float64 Py.one (of_Z float64 d) in
  let v := of_Z float64 i in
  let y := if eqb step (S754_zero false)
           then mul float64 (div float64 v (of_Z float64 d)) Py.one
           else mul float64 v step in
  let r := add float64 y Py.zero in
  is_finite r = true /\ within_unit r /\ (i = 0 -> r = S754_zero false).
Proof.
  intros Hd Hi step v y r.
  assert (Hy : is_finite y = true /\ within_unit y /\
               (i = 0 -> exists s, y = S754_zero s)).
  { clear r. subst y.
    set (y := if eqb step (S754_zero false)
              then mul float64 (div float64 v (of_Z float64 d)) Py.one
              else mul float64 v step).
    destruct (of_Z_float64 d ltac:(lia)) as (pd & ed & Hofd & Hbd & Hed & Hpd).
    assert (H64p : 0 < prec float64) by (simpl; lia).
    assert (H64e : prec float64 < emax float64) by (simpl; lia).
    destruct (Z.eq_dec i 0) as [Hi0 | Hi0].
    - assert (Hv : v = S754_zero false) by (unfold v; rewrite Hi0; reflexivity).
      assert (Hzero : exists s, y = S754_zero s).
      { unfold y. rewrite Hv, Hofd.
        destruct (linspace_step d Hd) as [Hz | (ps & es & Hs & _)];
          fold step in Hz || fold step in Hs.
        - rewrite Hz. exists false. reflexivity.
        - rewrite Hs.
          destruct (eqb (S754_finite false ps es) (S754_zero false));
            exists false; reflexivity. }
      destruct Hzero as (s & Hs). rewrite Hs.
      split; [reflexivity|]. split; [reflexivity|]. intros _. exists s. reflexivity.
    - destruct (of_Z_float64 i ltac:(lia)) as (pi & ei & Hofi & Hbi & Hei & Hpi).
      fold v in Hofi.
      destruct (linspace_step d Hd) as [Hz | (ps & es & Hs & Hb & Hall)];
        fold step in Hz || fold step in Hs.
      + unfold y. rewrite Hz. change (eqb (S754_zero false) (S754_zero false)) with true.
        cbv iota.
        destruct (div_by_peak float64 H64p H64e v pd ed) as (Hqf & Hqu).
        { rewrite Hofi. unfold finite_in. simpl. exact Hbi. }
        { rewrite Hofi. apply leb_finite; [reflexivity | reflexivity |].
          unfold SFabs, dyadic. cbn [cond_Zopp]. rewrite Hpi, Hpd.
          replace ei with (0 - (- ei)) at 2 by lia.
          replace ed with (0 - (- ed)) at 2 by lia.
          rewrite dyadic_compare_shift_l, dyadic_compare_shift_r by lia.
          unfold dyadic_compare. cbn [fst snd]. change (Z.min 0 0) with 0.
          rewrite Z.compare_gt_iff. simpl. lia. }
        cbv zeta in Hqf, Hqu. rewrite <- Hofd in Hqf, Hqu.
        destruct (mul_shrinks float64 H64p H64e (div float64 v (of_Z float64 d)) Py.one
                    Hqf ltac:(reflexivity) ltac:(reflexivity)) as (Hmf & Hmu).
        split; [apply (finite_in_finite float64); exact Hmf|]. split; [|intros; lia].
        unfold within_unit.
        apply (leb_trans _ (SFabs (div float64 v (of_Z float64 d))));
          rewrite ?is_finite_abs;
          eauto using finite_in_finite.
      + unfold y. rewrite Hs.
        replace (eqb (S754_finite false ps es) (S754_zero false)) with false.
        2:{ unfold eqb, compare, dyadic. cbn [cond_Zopp].
            rewrite dyadic_compare_pos_nonpos by lia. reflexivity. }
        rewrite Hofi.
        assert (Hgrid : fexp 53 1024 (Zdigits2 1 + 0) <= 0)
          by (vm_compute; discriminate).
        destruct (Rounding.SFmul_upper 53 1024 ltac:(lia) ltac:(lia) false false
                    pi ps 1 ei es 0 Hbi Hb Hgrid ltac:(lia)) as (Hf & _ & Hle & _).
        { rewrite Hpi.
          replace (i * 2 ^ (- ei) * Z.pos ps) with (i * Z.pos ps * 2 ^ (- ei)) by ring.
          replace (ei + es) with (es - (- ei)) by lia.
          rewrite dyadic_compare_shift_l by lia. apply Hall. lia. }
        split; [exact Hf|]. split; [exact Hle | intros; lia]. }
  destruct Hy as (Hf & Hu & Hz).
  destruct (add_zero_keeps y Hf) as (Haf & Hau & Haz).
  split; [exact Haf|]. split; [exact (Hau Hu)|].
  intros Hi0. destruct (Hz Hi0) as (s & Hs). exact (Haz s Hs).
Qed.

Section Ramp.
Variable t : dtype.
Hypothesis Hprec : 0 < prec t.
Hypothesis Hemax : prec t < emax t.

(** The ramp starts at zero and never leaves the unit interval. *)
Lemma linspace_unit_ramp (num : Z) :
  1 <= num <= 2 ^ 52 + 1 ->
  let ramp := Np.linspace Py.zero Py.one num t in
  head ramp = Some (S754_zero false) /\
  Forall (fun r => finite_in t r = true /\ within_unit r) ramp.
Proof.
  intros Hnum ramp. unfold ramp, Np.linspace.
  destruct (Z.eq_dec num 1) as [-> | Hne].
  - split; [reflexivity|]. repeat constructor.
  - cbv zeta.
    destruct (Z.ltb_spec 0 (num - 1)) as [_|]; [|lia].
    destruct (Z.ltb_spec 1 num) as [_|]; [|lia].
    change (SFsub (prec float64) (emax float64) Py.one Py.zero) with Py.one.
    set (d := num - 1).
    set (step := div float64 Py.one (of_Z float64 d)).
    set (g := fun i : Z =>
                add float64
                  (if eqb step (S754_zero false)
                   then mul float64 (div float64 (of_Z float64 i) (of_Z float64 d)) Py.one
                   else mul float64 (of_Z float64 i) step) Py.zero).
    assert (Hy : (fun v => add float64 v Py.zero)
                   <$> (if eqb step (S754_zero false)
                        then (fun v => mul float64 (div float64 v (of_Z float64 d)) Py.one)
                               <$> (of_Z float64 <$> seqZ 0 num)
                        else (fun v => mul float64 v step)
                               <$> (of_Z float64 <$> seqZ 0 num))
                 = g <$> seqZ 0 num).
    { unfold g. destruct (eqb step (S754_zero false));
        rewrite <- !list_fmap_compose; reflexivity. }
    rewrite Hy. clear Hy.
    assert (Hseq : seqZ 0 num = seqZ 0 d ++ [d]).
    { replace num with (d + 1) by (unfold d; lia).
      rewrite seqZ_app by (unfold d; lia). reflexivity. }
    rewrite Hseq, (fmap_app g), length_app, length_fmap.
    rewrite take_app_length' by (rewrite !length_fmap; simpl; lia).
    assert (Hd : 1 <= d <= 2 ^ 52) by (unfold d; lia).
    split.
    + rewrite (seqZ_cons 0 d) by lia. simpl.
      destruct (linspace_entry d 0 Hd ltac:(lia)) as (_ & _ & Hz).
      cbv zeta in Hz. fold step in Hz. fold (g 0) in Hz.
      rewrite (Hz eq_refl). reflexivity.
    + rewrite fmap_app. apply Forall_app. split.
      * rewrite <- list_fmap_compose. apply Forall_fmap. apply Forall_seqZ.
        intros i Hi. simpl.
        destruct (linspace_entry d i Hd ltac:(lia)) as (Hf & Hu & _).
        apply (cast_within_unit t Hprec Hemax); assumption.
      * repeat constructor;
          apply (cast_within_unit t Hprec Hemax Py.one); reflexivity.
Qed.

End Ramp.

Lemma Forall2_zip_with_l {A B} (P : A -> Prop) (Q : B -> Prop) (R : A -> A -> Prop)
    (f : A -> B -> A) (l : list A) (k : list B) :
  length l = length k ->
  (forall x y, P x -> Q y -> R (f x y) x) ->
  Forall P l -> Forall Q k -> Forall2 R (zip_with f l k) l.
Proof.
  intros Hlen Hf Hl. revert k Hlen.
  induction Hl as [|x l Hx Hl IH]; intros [|y k] Hlen Hk; try discriminate.
  - constructor.
  - apply Forall_cons in Hk as [Hy Hk]. simpl.
    constructor; [apply Hf; assumption|].
    apply IH; [simpl in Hlen; lia | exact Hk].
Qed.

Lemma list_snoc_of_length {A} (l : list A) (n : nat) :
  length l = S n -> exists l' x, l = l' ++ [x] /\ length l' = n.
Proof.
  destruct l as [|x l] using rev_ind; [discriminate|].
  rewrite length_app. simpl. intros Hlen. exists l, x.
  split; [reflexivity | lia].
Qed.

(** A finite sample times the zero that opens the ramp is a zero. *)
Lemma mul_zero_r (t : dtype) (x : spec_float) :
  is_finite x = true -> exists s, mul t x (S754_zero false) = S754_zero s.
Proof.
  intros Hx. destruct x as [s|s| |s p e]; try discriminate; eexists; reflexivity.
Qed.

(** C6. [apply_fade_edges] takes as fade length the smaller of
    [int(fade_duration * SAMPLE_RATE)] (the product truncated to a count of
    samples) and half the length of the signal, rounded down, and returns the
    signal as it is when that length is zero or negative.  When it is at
    least one (so the signal has two samples or more), for a signal of finite
    samples of its dtype, no longer than [2^53], the first and the last
    sample of the output are zeros, and no sample of the output is larger in
    magnitude than the sample it comes from. *)
Theorem apply_fade_edges_fades (t : dtype) (samples : Np.ndarray)
    (fade_duration : spec_float) (n : Z) :
  0 < prec t -> prec t < emax t ->
  Forall (fun x => finite_in t x = true) samples ->
  Z.of_nat (length samples) <= 2 ^ 53 ->
  Py.int (Py.float_mul fade_duration (Py.float_of_int SAMPLE_RATE)) = Ok n ->
  let fade_len := Z.min n (Z.of_nat (length samples) / 2) in
  fade_length samples fade_duration = Ok fade_len /\
  (fade_len <= 0 -> apply_fade_edges t samples fade_duration = Ok samples) /\
  (1 <= fade_len ->
   2 <= Z.of_nat (length samples) /\
   exists out,
     apply_fade_edges t samples fade_duration = Ok out /\
     (exists s, head out = Some (S754_zero s)) /\
     (exists s, last out = Some (S754_zero s)) /\
     Forall2 (fun y x => leb (SFabs y) (SFabs x) = true) out samples).
Proof.
  intros Hprec Hemax Hfin Hlen Hint fade_len.
  assert (Hfl : fade_length samples fade_duration = Ok fade_len).
  { unfold fade_length. rewrite Hint. reflexivity. }
  split; [exact Hfl|]. split.
  { intros Hle. unfold apply_fade_edges. rewrite Hfl. simpl.
    destruct (Z.leb_spec fade_len 0); [reflexivity | lia]. }
  intros Hpos.
  pose proof (fade_length_bound _ _ _ Hfl) as Hb.
  split; [lia|].
  rewrite (apply_fade_edges_shape t samples fade_duration fade_len Hfl ltac:(lia)).
  cbv zeta.
  set (k := Z.to_nat fade_len).
  set (ramp := Np.linspace Py.zero Py.one fade_len t).
  assert (Hk : (1 <= k /\ 2 * k <= length samples)%nat) by (unfold k; lia).
  assert (Hrlen : length ramp = k) by apply linspace_length.
  change (2 ^ 53) with (2 * 2 ^ 52) in Hlen.
  destruct (linspace_unit_ramp t Hprec Hemax fade_len ltac:(lia)) as (Hhead & Hramp).
  cbv zeta in Hhead, Hramp. fold ramp in Hhead, Hramp.
  destruct ramp as [|z ramp'] eqn:Eramp; [discriminate|].
  injection Hhead as ->.
  assert (Hfinite : Forall (fun x => is_finite x = true) samples).
  { eapply Forall_impl; [exact Hfin|]. intros x. apply finite_in_finite. }
  eexists. split; [reflexivity|]. split; [|split].
  - destruct samples as [|x0 rest]; [simpl in Hk; lia|].
    destruct k as [|k']; [lia|]. simpl.
    apply Forall_cons in Hfinite as [Hx0 _].
    destruct (mul_zero_r t x0 Hx0) as (s & Hs). exists s. rewrite Hs. reflexivity.
  - rewrite !app_assoc.
    destruct (list_snoc_of_length (drop (length samples - k) samples) (length ramp'))
      as (front & xl & Hd & Hflen).
    { rewrite length_drop. simpl in Hrlen. lia. }
    rewrite Hd, reverse_cons.
    rewrite zip_with_app by (rewrite length_reverse; exact Hflen).
    simpl. rewrite app_assoc, last_snoc.
    assert (Hdrop : Forall (fun x => is_finite x = true)
                      (drop (length samples - k) samples))
      by (apply Forall_drop; exact Hfinite).
    rewrite Hd in Hdrop. apply Forall_app in Hdrop as [_ Hxl].
    apply Forall_cons in Hxl as [Hxl _].
    destruct (mul_zero_r t xl Hxl) as (s & Hs). exists s. rewrite Hs. reflexivity.
  - assert (Hsplit : samples = take k samples
                               ++ take (length samples - 2 * k) (drop k samples)
                               ++ drop (length samples - k) samples).
    { rewrite <- (take_drop k samples) at 1. f_equal.
      rewrite <- (take_drop (length samples - 2 * k) (drop k samples)) at 1.
      f_equal. rewrite drop_drop. f_equal. lia. }
    assert (Hstep : forall x r,
               finite_in t x = true ->
               finite_in t r = true /\ within_unit r ->
               leb (SFabs (mul t x r)) (SFabs x) = true).
    { intros x r Hx [Hr Hu]. apply (mul_shrinks t Hprec Hemax); assumption. }
    match goal with
    | |- Forall2 ?R ?out samples =>
        cut (Forall2 R out
               (take k samples ++ take (length samples - 2 * k) (drop k samples)
                  ++ drop (length samples - k) samples))
    end.
    { intros H. rewrite <- Hsplit in H. exact H. }
    repeat apply Forall2_app.
    + apply (Forall2_zip_with_l (fun x => finite_in t x = true)
               (fun r => finite_in t r = true /\ within_unit r));
        [rewrite length_take; simpl in Hrlen |- *; lia | exact Hstep
        | apply Forall_take; exact Hfin | exact Hramp].
    + apply Forall_Forall2_diag. apply Forall_take, Forall_drop.
      eapply Forall_impl; [exact Hfinite|]. intros x Hx. simpl.
      apply leb_refl. rewrite is_finite_abs. exact Hx.
    + apply (Forall2_zip_with_l (fun x => finite_in t x = true)
               (fun r => finite_in t r = true /\ within_unit r));
        [rewrite length_drop, length_reverse; simpl in Hrlen |- *; lia | exact Hstep
        | apply Forall_drop; exact Hfin | apply Forall_reverse; exact Hramp].
Qed.

Lemma apply_fade_edges_fades_witness :
  let samples := of_Z float32 <$> [3; -4; 1; 2; -5] in
  let fade_len := Z.min 4410 (Z.of_nat (length samples) / 2) in
  fade_length samples Py.tenth = Ok fade_len /\
  (fade_len <= 0 -> apply_fade_edges float32 samples Py.tenth = Ok samples) /\
  (1 <= fade_len ->
   2 <= Z.of_nat (length samples) /\
   exists out,
     apply_fade_edges float32 samples Py.tenth = Ok out /\
     (exists s, head out = Some (S754_zero s)) /\
     (exists s, last out = Some (S754_zero s)) /\
     Forall2 (fun y x => leb (SFabs y) (SFabs x) = true) out samples).
Proof.
  apply (apply_fade_edges_fades float32 (of_Z float32 <$> [3; -4; 1; 2; -5])
           Py.tenth 4410).
  - simpl. lia.
  - simpl. lia.
  - repeat constructor.
  - vm_compute. discriminate.
  - vm_compute. reflexivity.
Defined.

(** The default fade on a five-sample signal: two samples at each end are
    scaled by the ramp [0.0, 1.0] and its reverse. *)
Example apply_fade_edges_five :
  apply_fade_edges float32 (of_Z float32 <$> [3; -4; 1; 2; -5]) Py.tenth
  = Ok [S754_zero false; of_Z float32 (-4); of_Z float32 1; of_Z float32 2;
        S754_zero true].
Proof. vm_compute. reflexivity. Qed.

(** ** The percentage shown, against the raw value *)

Lemma trunc_mag_le_half (p : positive) (e K : Z) :
  0 <= K -> dyadic_compare (Z.pos p, e) (2 * K + 1, -1) <> Gt ->
  (if 0 <=? e then Z.pos p * 2 ^ e else Z.pos p / 2 ^ (- e)) <= K.
Proof.
  intros HK Hcmp.
  destruct (Z.leb_spec 0 e) as [He|He].
  - rewrite (Rounding.dyadic_compare_scale (-1)) in Hcmp by lia.
    pose proof (proj1 (Z.compare_le_iff _ _) Hcmp) as Hle. clear Hcmp.
    replace (e - -1) with (e + 1) in Hle by lia.
    rewrite Z.pow_add_r in Hle by lia.
    replace (-1 - -1) with 0 in Hle by lia.
    change (2 ^ 1) with 2 in Hle. change (2 ^ 0) with 1 in Hle.
    replace (Z.pos p * (2 ^ e * 2)) with (2 * (Z.pos p * 2 ^ e)) in Hle by ring.
    lia.
  - rewrite (Rounding.dyadic_compare_scale e) in Hcmp by lia.
    pose proof (proj1 (Z.compare_le_iff _ _) Hcmp) as Hle. clear Hcmp.
    replace (e - e) with 0 in Hle by lia. change (2 ^ 0) with 1 in Hle.
    set (h := 2 ^ (-1 - e)) in *.
    assert (Hh : 0 < h) by (apply Rounding.pow2_pos; lia).
    assert (Hd : 2 ^ (- e) = 2 * h).
    { unfold h. replace (- e) with (1 + (-1 - e)) by lia.
      rewrite Z.pow_add_r by lia. reflexivity. }
    rewrite Hd. apply Z.lt_succ_r. apply Z.div_lt_upper_bound; [lia|]. nia.
Qed.

Lemma SFdiv_sign (pr em : Z) (sx : bool) (px : positive) (ex : Z)
    (sy : bool) (py : positive) (ey : Z) :
  match SFdiv pr em (S754_finite sx px ex) (S754_finite sy py ey) with
  | S754_zero s' | S754_finite s' _ _ | S754_infinity s' => s' = xorb sx sy
  | S754_nan => True
  end.
Proof.
  unfold SFdiv. destruct (SFdiv_core_binary _ _ _ _ _ _) as [[mz ez] lz].
  apply binary_round_aux_sign.
Qed.

Lemma clamped_gain_floor (raw_value : spec_float) :
  is_nan raw_value = true \/ leb raw_value Py.zero = true ->
  clamped_gain raw_value = Py.zero.
Proof.
  intros H. destruct raw_value as [s|s| |s p e].
  - destruct s; reflexivity.
  - destruct s; [reflexivity|]. destruct H as [H|H]; discriminate.
  - reflexivity.
  - destruct s.
    2:{ destruct H as [H|H]; [discriminate|].
        unfold leb, compare, dyadic, Py.zero in H. cbn [cond_Zopp] in H.
        rewrite dyadic_compare_pos_nonpos in H by lia. discriminate. }
    unfold clamped_gain.
    pose proof (SFdiv_sign 53 1024 true p e false 7036874417766400 (-46)) as Hs.
    change (SFdiv 53 1024 (S754_finite true p e)
              (S754_finite false 7036874417766400 (-46)))
      with (div float64 (S754_finite true p e) Py.hundred) in Hs.
    destruct (div float64 (S754_finite true p e) Py.hundred) as [s'|s'| |s' p' e'];
      try (simpl in Hs; subst s'); try reflexivity.
    unfold Py.min, Py.max, gtb, ltb, compare, dyadic, Py.one, Py.zero.
    cbn [cond_Zopp].
    rewrite dyadic_compare_pos_nonpos by lia.
    unfold compare, dyadic. cbn [cond_Zopp].
    rewrite (dyadic_compare_nonneg_neg 0) by lia. reflexivity.
Qed.

(** A whole number between 1 and 100 as a float stands for itself. *)
Lemma compare_float_of_int (x : Z * Z) (K : Z) :
  0 < K <= 100 ->
  exists pk ek,
    Py.float_of_int K = S754_finite false pk ek /\
    dyadic_compare x (Z.pos pk, ek) = dyadic_compare x (K, 0) /\
    dyadic_compare (Z.pos pk, ek) x = dyadic_compare (K, 0) x.
Proof.
  intros HK.
  destruct (of_Z_float64 K ltac:(lia)) as (pk & ek & HKf & _ & Hek & HpK).
  exists pk, ek. split; [exact HKf|]. rewrite HpK.
  replace ek with (0 - - ek) at 2 4 by lia.
  rewrite dyadic_compare_shift_r, dyadic_compare_shift_l by lia.
  split; reflexivity.
Qed.

Lemma dyadic_compare_mul_r (a e b f c g : Z) :
  0 < c ->
  dyadic_compare (a * c, e + g) (b * c, f + g) = dyadic_compare (a, e) (b, f).
Proof.
  intros Hc.
  rewrite (Rounding.dyadic_compare_scale (Z.min e f + g)) by lia.
  rewrite (Rounding.dyadic_compare_scale (Z.min e f)) by lia.
  replace (e + g - (Z.min e f + g)) with (e - Z.min e f) by lia.
  replace (f + g - (Z.min e f + g)) with (f - Z.min e f) by lia.
  replace (a * c * 2 ^ (e - Z.min e f)) with (a * 2 ^ (e - Z.min e f) * c) by ring.
  replace (b * c * 2 ^ (f - Z.min e f)) with (b * 2 ^ (f - Z.min e f) * c) by ring.
  symmetry. apply Zmult_compare_compat_r. lia.
Qed.

(** The shown percentage never exceeds the raw value rounded up: a raw
    value of at most [K] shows at most [K]. *)
Lemma percent_le_ceiling (raw : spec_float) (K percent : Z) :
  0 <= K <= 100 ->
  leb raw (Py.float_of_int K) = true ->
  Py.int (Py.float_mul (clamped_gain raw) Py.hundred) = Ok percent ->
  percent <= K.
Proof.
  intros HK Hle Hint.
  destruct (leb raw Py.zero) eqn:H0.
  { rewrite clamped_gain_floor in Hint by (right; exact H0).
    vm_compute in Hint. injection Hint as <-. lia. }
  destruct (Z.eq_dec K 0) as [->|HK0].
  { change (Py.float_of_int 0) with Py.zero in Hle. congruence. }
  destruct (compare_float_of_int (dyadic raw) K ltac:(lia))
    as (pk & ek & HKf & HcmpK & _).
  rewrite HKf in Hle.
  destruct raw as [s|s| |s p e]; try discriminate;
    try (destruct s; discriminate).
  destruct s.
  { exfalso. unfold leb, compare, dyadic, Py.zero in H0. cbn [cond_Zopp] in H0.
    rewrite (dyadic_compare_neg_nonneg (Z.neg p)) in H0 by lia. discriminate. }
  clear H0.
  apply leb_finite in Hle; [|reflexivity|reflexivity].
  cbn [dyadic cond_Zopp] in Hle, HcmpK. rewrite HcmpK in Hle. clear HcmpK HKf pk ek.
  (* a representable number just above K/100, by computation for each K *)
  set (bound := fun K : Z =>
         match div float64 (Py.float_of_int K) Py.hundred with
         | S754_finite _ m e => (Pos.succ m, e)
         | _ => (1%positive, 0)
         end).
  set (le := fun a b : Z * Z =>
         match dyadic_compare a b with Gt => false | _ => true end).
  set (ok := fun K : Z =>
         let '(pb, eb) := bound K in
         (fexp 53 1024 (Zdigits2 (Z.pos pb) + eb) <=? eb) && (eb <=? 1024 - 53)
         && le (K, 0) (Z.pos pb * 7036874417766400, eb + -46)
         && le (Z.pos pb * 7036874417766400, eb + -46) (2 * K + 1, -1)
         && ((K =? 100) || le (Z.pos pb, eb) (1, 0))
         && (fexp 53 1024 (Zdigits2 (2 * K + 1) + -1) <=? -1)).
  assert (Hall : forallb ok (seqZ 1 100) = true) by (vm_compute; reflexivity).
  rewrite forallb_forall in Hall.
  specialize (Hall K ltac:(apply list_elem_of_In, elem_of_seqZ; lia)).
  unfold ok in Hall. destruct (bound K) as [pb eb]. clear ok bound.
  apply andb_true_iff in Hall as [Hall Hgrid2].
  apply andb_true_iff in Hall as [Hall Hone].
  apply andb_true_iff in Hall as [Hall Hhalf].
  apply andb_true_iff in Hall as [Hall Habove].
  apply andb_true_iff in Hall as [Hgrid Heb].
  apply Z.leb_le in Hgrid, Heb, Hgrid2.
  assert (Hle_spec : forall a b, le a b = true -> dyadic_compare a b <> Gt).
  { intros a b. unfold le. destruct (dyadic_compare a b); congruence. }
  apply Hle_spec in Hhalf, Habove.
  pose proof (dyadic_le_trans _ _ _ Hle Habove) as Hdiv.
  destruct (Rounding.SFdiv_upper 53 1024 ltac:(lia) false false
              p 7036874417766400 pb e (-46) eb Hgrid Heb Hdiv)
    as (Hfin & Hval & Hbound & Hsign).
  cbv zeta in Hfin, Hval, Hbound, Hsign.
  unfold clamped_gain in Hint.
  change (div float64 (S754_finite false p e) Py.hundred)
    with (SFdiv 53 1024 (S754_finite false p e)
            (S754_finite false 7036874417766400 (-46))) in Hint.
  set (q := SFdiv 53 1024 (S754_finite false p e)
              (S754_finite false 7036874417766400 (-46))) in *.
  cbn [xorb] in Hsign.
  destruct Hsign as [Hq | (pq & eq & Hq)]; rewrite Hq in *.
  { vm_compute in Hint. injection Hint as <-. lia. }
  apply leb_finite in Hbound; [|reflexivity|reflexivity].
  cbn [SFabs dyadic cond_Zopp] in Hbound.
  unfold Py.max, Py.min, gtb in Hint.
  destruct (ltb Py.one (S754_finite false pq eq)) eqn:Hgt.
  { (* the quotient is above one: only at K = 100 *)
    vm_compute in Hint. injection Hint as <-.
    apply orb_true_iff in Hone as [Hone|Hone]; [apply Z.eqb_eq in Hone; lia|].
    apply Hle_spec in Hone. exfalso.
    pose proof (dyadic_le_trans _ _ _ Hbound Hone) as Hq1.
    unfold ltb, compare, dyadic, Py.one in Hgt. cbn [cond_Zopp] in Hgt.
    rewrite dyadic_compare_antisym in Hgt.
    rewrite (dyadic_compare_shift_r _ 1 0 52) in Hgt by lia.
    destruct (dyadic_compare (Z.pos pq, eq) (1, 0)); simpl in Hgt; congruence. }
  assert (Hpos : ltb Py.zero (S754_finite false pq eq) = true).
  { unfold ltb, compare, dyadic, Py.zero. cbn [cond_Zopp].
    rewrite (dyadic_compare_nonpos_pos 0) by lia. reflexivity. }
  rewrite Hpos in Hint.
  assert (Hprod : dyadic_compare (Z.pos pq * 7036874417766400, eq + -46)
                    (Z.pos (Z.to_pos (2 * K + 1)), -1) <> Gt).
  { rewrite Z2Pos.id by lia.
    apply (dyadic_le_trans _ (Z.pos pb * 7036874417766400, eb + -46)); [|exact Hhalf].
    rewrite dyadic_compare_mul_r by lia. exact Hbound. }
  destruct (Rounding.SFmul_upper 53 1024 ltac:(lia) ltac:(lia) false false
              pq 7036874417766400 (Z.to_pos (2 * K + 1)) eq (-46) (-1)
              Hval hundred_bounded
              ltac:(rewrite Z2Pos.id by lia; exact Hgrid2) ltac:(lia) Hprod)
    as (_ & _ & Hr & Hrsign).
  cbv zeta in Hr, Hrsign. cbn [xorb] in Hrsign.
  unfold Py.float_mul, mul, Py.hundred in Hint. cbn [prec emax float64] in Hint.
  destruct Hrsign as [Hz | (pr & er & Hz)]; rewrite Hz in *.
  { injection Hint as <-. cbn. lia. }
  apply leb_finite in Hr; [|reflexivity|reflexivity].
  cbn [SFabs dyadic cond_Zopp] in Hr. rewrite Z2Pos.id in Hr by lia.
  injection Hint as <-. cbn [trunc default from_option cond_Zopp]. unfold id.
  apply trunc_mag_le_half; [lia | exact Hr].
Qed.

Lemma trunc_mag_ge_half (p : positive) (e K : Z) :
  dyadic_compare (Z.pos p, e) (2 * K - 1, -1) <> Lt ->
  K - 1 <= (if 0 <=? e then Z.pos p * 2 ^ e else Z.pos p / 2 ^ (- e)).
Proof.
  intros Hcmp.
  destruct (Z.leb_spec 0 e) as [He|He].
  - rewrite (Rounding.dyadic_compare_scale (-1)) in Hcmp by lia.
    pose proof (proj1 (Z.compare_ge_iff _ _) Hcmp) as Hle. clear Hcmp.
    replace (e - -1) with (e + 1) in Hle by lia.
    rewrite Z.pow_add_r in Hle by lia.
    replace (-1 - -1) with 0 in Hle by lia.
    change (2 ^ 1) with 2 in Hle. change (2 ^ 0) with 1 in Hle.
    replace (Z.pos p * (2 ^ e * 2)) with (2 * (Z.pos p * 2 ^ e)) in Hle by ring.
    lia.
  - rewrite (Rounding.dyadic_compare_scale e) in Hcmp by lia.
    pose proof (proj1 (Z.compare_ge_iff _ _) Hcmp) as Hle. clear Hcmp.
    replace (e - e) with 0 in Hle by lia. change (2 ^ 0) with 1 in Hle.
    set (h := 2 ^ (-1 - e)) in *.
    assert (Hh : 0 < h) by (apply Rounding.pow2_pos; lia).
    assert (Hd : 2 ^ (- e) = 2 * h).
    { unfold h. replace (- e) with (1 + (-1 - e)) by lia.
      rewrite Z.pow_add_r by lia. reflexivity. }
    rewrite Hd. apply Z.div_le_lower_bound; [lia|]. nia.
Qed.

(** The shown percentage is less than one below the raw value: a raw value
    of at least [K] shows at least [K - 1]. *)
Lemma percent_ge_floor (raw : spec_float) (K percent : Z) :
  0 <= K <= 100 ->
  leb (Py.float_of_int K) raw = true ->
  Py.int (Py.float_mul (clamped_gain raw) Py.hundred) = Ok percent ->
  K - 1 <= percent.
Proof.
  intros HK Hle Hint.
  destruct (percent_of_volume raw) as (percent' & Hint' & Hrange & _).
  cbv zeta in Hint'. fold (clamped_gain raw) in Hint'.
  rewrite Hint in Hint'. injection Hint' as <-.
  destruct (Z.eq_dec K 0) as [->|HK0]; [lia|].
  destruct (compare_float_of_int (dyadic raw) K ltac:(lia))
    as (pk & ek & HKf & _ & HcmpK).
  rewrite HKf in Hle.
  destruct raw as [s|s| |s p e]; try discriminate.
  { exfalso. unfold leb, compare, dyadic in Hle. cbn [cond_Zopp] in Hle.
    rewrite (dyadic_compare_pos_nonpos (Z.pos pk)) in Hle by lia. discriminate. }
  { destruct s; [discriminate|]. vm_compute in Hint. injection Hint as <-. lia. }
  destruct s.
  { exfalso. unfold leb, compare, dyadic in Hle. cbn [cond_Zopp] in Hle.
    rewrite (dyadic_compare_nonneg_neg (Z.pos pk)) in Hle by lia. discriminate. }
  apply leb_finite in Hle; [|reflexivity|reflexivity].
  cbn [dyadic cond_Zopp] in Hle, HcmpK. rewrite HcmpK in Hle. clear HcmpK HKf pk ek.
  (* a representable number just below K/100, by computation for each K *)
  set (bound := fun K : Z =>
         match div float64 (Py.float_of_int K) Py.hundred with
         | S754_finite _ m e => (Pos.pred m, e)
         | _ => (1%positive, 0)
         end).
  set (le := fun a b : Z * Z =>
         match dyadic_compare a b with Gt => false | _ => true end).
  set (ok := fun K : Z =>
         let '(pb, eb) := bound K in
         (fexp 53 1024 (Zdigits2 (Z.pos pb) + eb) <=? eb)
         && le (Z.pos pb * 7036874417766400, eb + -46) (K, 0)
         && le (2 * K - 1, -1) (Z.pos pb * 7036874417766400, eb + -46)
         && (fexp 53 1024 (Zdigits2 (2 * K - 1) + -1) <=? -1)).
  assert (Hall : forallb ok (seqZ 1 100) = true) by (vm_compute; reflexivity).
  rewrite forallb_forall in Hall.
  specialize (Hall K ltac:(apply list_elem_of_In, elem_of_seqZ; lia)).
  unfold ok in Hall. destruct (bound K) as [pb eb]. clear ok bound.
  apply andb_true_iff in Hall as [Hall Hgrid2].
  apply andb_true_iff in Hall as [Hall Hhalf].
  apply andb_true_iff in Hall as [Hgrid Hbelow].
  apply Z.leb_le in Hgrid, Hgrid2.
  assert (Hle_spec : forall a b, le a b = true -> dyadic_compare a b <> Gt).
  { intros a b. unfold le. destruct (dyadic_compare a b); congruence. }
  apply Hle_spec in Hhalf, Hbelow.
  pose proof (dyadic_le_trans _ _ _ Hbelow Hle) as Hdiv.
  pose proof (Rounding.SFdiv_lower 53 1024 ltac:(lia) ltac:(lia) false false
                p 7036874417766400 pb e (-46) eb Hgrid Hdiv) as Hq.
  pose proof (SFdiv_sign 53 1024 false p e false 7036874417766400 (-46)) as Hs.
  pose proof (Rounding.SFdiv_valid 53 1024 ltac:(lia) (S754_finite false p e)
                Py.hundred) as Hval.
  unfold clamped_gain in Hint.
  change (div float64 (S754_finite false p e) Py.hundred)
    with (SFdiv 53 1024 (S754_finite false p e)
            (S754_finite false 7036874417766400 (-46))) in Hint.
  change Py.hundred with (S754_finite false 7036874417766400 (-46)) in Hval.
  set (q := SFdiv 53 1024 (S754_finite false p e)
              (S754_finite false 7036874417766400 (-46))) in *.
  destruct q as [sq|sq| |sq pq eq]; try contradiction.
  { cbn [xorb] in Hs. subst sq. vm_compute in Hint. injection Hint as <-. lia. }
  cbn [xorb] in Hs. subst sq.
  unfold Py.max, Py.min, gtb in Hint.
  destruct (ltb Py.one (S754_finite false pq eq)) eqn:Hgt.
  { vm_compute in Hint. injection Hint as <-. lia. }
  assert (Hpos : ltb Py.zero (S754_finite false pq eq) = true).
  { unfold ltb, compare, dyadic, Py.zero. cbn [cond_Zopp].
    rewrite (dyadic_compare_nonpos_pos 0) by lia. reflexivity. }
  rewrite Hpos in Hint.
  assert (Hprod : dyadic_compare (Z.pos (Z.to_pos (2 * K - 1)), -1)
                    (Z.pos pq * 7036874417766400, eq + -46) <> Gt).
  { rewrite Z2Pos.id by lia.
    apply (dyadic_le_trans _ (Z.pos pb * 7036874417766400, eb + -46)); [exact Hhalf|].
    rewrite dyadic_compare_mul_r by lia.
    rewrite dyadic_compare_antisym.
    destruct (dyadic_compare (Z.pos pq, eq) (Z.pos pb, eb)); simpl; congruence. }
  pose proof (Rounding.SFmul_lower 53 1024 ltac:(lia) ltac:(lia) false false
                pq 7036874417766400 (Z.to_pos (2 * K - 1)) eq (-46) (-1)
                Hval hundred_bounded
                ltac:(rewrite Z2Pos.id by lia; exact Hgrid2) Hprod) as Hr.
  pose proof (SFmul_sign 53 1024 false pq eq false 7036874417766400 (-46)) as Hrs.
  unfold Py.float_mul, mul, Py.hundred in Hint. cbn [prec emax float64] in Hint.
  destruct (SFmul 53 1024 (S754_finite false pq eq)
              (S754_finite false 7036874417766400 (-46)))
    as [sr|sr| |sr pr er]; try contradiction; try discriminate.
  cbn [xorb] in Hrs. subst sr. rewrite Z2Pos.id in Hr by lia.
  injection Hint as <-. cbn [trunc default from_option cond_Zopp]. unfold id.
  apply trunc_mag_ge_half. exact Hr.
Qed.

Lemma trunc_mag_ge (p : positive) (e K : Z) :
  dyadic_compare (Z.pos p, e) (K, 0) <> Lt ->
  K <= (if 0 <=? e then Z.pos p * 2 ^ e else Z.pos p / 2 ^ (- e)).
Proof.
  intros Hcmp.
  destruct (Z.leb_spec 0 e) as [He|He].
  - rewrite (Rounding.dyadic_compare_scale 0) in Hcmp by lia.
    pose proof (proj1 (Z.compare_ge_iff _ _) Hcmp) as Hle. clear Hcmp.
    rewrite !Z.sub_0_r in Hle. change (2 ^ 0) with 1 in Hle. lia.
  - rewrite (Rounding.dyadic_compare_scale e) in Hcmp by lia.
    pose proof (proj1 (Z.compare_ge_iff _ _) Hcmp) as Hle. clear Hcmp.
    replace (e - e) with 0 in Hle by lia. change (2 ^ 0) with 1 in Hle.
    replace (0 - e) with (- e) in Hle by lia.
    pose proof (Rounding.pow2_pos (- e) ltac:(lia)).
    apply Z.div_le_lower_bound; lia.
Qed.

(** A raw value of 100 or more gives full gain and shows 100. *)
Lemma percent_full (raw : spec_float) (percent : Z) :
  leb Py.hundred raw = true ->
  Py.int (Py.float_mul (clamped_gain raw) Py.hundred) = Ok percent ->
  eqb (clamped_gain raw) Py.one = true /\ percent = 100.
Proof.
  intros Hle Hint.
  destruct (percent_of_volume raw) as (percent' & Hint' & Hrange & _).
  cbv zeta in Hint'. fold (clamped_gain raw) in Hint'.
  rewrite Hint in Hint'. injection Hint' as <-.
  destruct raw as [s|s| |s p e]; try (destruct s; discriminate); try discriminate.
  { destruct s; [discriminate|]. vm_compute in Hint. injection Hint as <-.
    split; reflexivity. }
  destruct s.
  { exfalso. unfold leb, compare, dyadic, Py.hundred in Hle. cbn [cond_Zopp] in Hle.
    rewrite (dyadic_compare_nonneg_neg 7036874417766400) in Hle by lia.
    discriminate. }
  apply leb_finite in Hle; [|reflexivity|reflexivity].
  cbn [dyadic cond_Zopp Py.hundred] in Hle.
  pose proof (Rounding.SFdiv_lower 53 1024 ltac:(lia) ltac:(lia) false false
                p 7036874417766400 1 e (-46) 0
                ltac:(apply Z.leb_le; reflexivity)) as Hq.
  replace (1 * 7036874417766400) with 7036874417766400 in Hq by lia.
  specialize (Hq Hle).
  pose proof (SFdiv_sign 53 1024 false p e false 7036874417766400 (-46)) as Hs.
  pose proof (Rounding.SFdiv_valid 53 1024 ltac:(lia) (S754_finite false p e)
                Py.hundred) as Hval.
  unfold clamped_gain in *.
  change (div float64 (S754_finite false p e) Py.hundred)
    with (SFdiv 53 1024 (S754_finite false p e)
            (S754_finite false 7036874417766400 (-46))) in *.
  change Py.hundred with (S754_finite false 7036874417766400 (-46)) in Hval.
  set (q := SFdiv 53 1024 (S754_finite false p e)
              (S754_finite false 7036874417766400 (-46))) in *.
  destruct q as [sq|sq| |sq pq eq]; try contradiction.
  { cbn [xorb] in Hs. subst sq. vm_compute in Hint. injection Hint as <-.
    split; reflexivity. }
  cbn [xorb] in Hs. subst sq.
  unfold Py.max, Py.min, gtb in *.
  destruct (ltb Py.one (S754_finite false pq eq)) eqn:Hgt.
  { vm_compute in Hint. injection Hint as <-. split; reflexivity. }
  assert (Hpos : ltb Py.zero (S754_finite false pq eq) = true).
  { unfold ltb, compare, dyadic, Py.zero. cbn [cond_Zopp].
    rewrite (dyadic_compare_nonpos_pos 0) by lia. reflexivity. }
  rewrite Hpos in *.
  assert (Hone : dyadic_compare (Z.pos pq, eq) (4503599627370496, -52) = Eq).
  { unfold ltb, compare, dyadic, Py.one in Hgt. cbn [cond_Zopp] in Hgt.
    rewrite dyadic_compare_antisym in Hgt.
    pose proof Hq as Hq'.
    rewrite <- (dyadic_compare_shift_r _ 1 0 52) in Hq' by lia.
    change (1 * 2 ^ 52) with 4503599627370496 in Hq'.
    change (0 - 52) with (-52) in Hq'.
    destruct (dyadic_compare (Z.pos pq, eq) (4503599627370496, -52));
      simpl in Hgt; congruence. }
  split.
  { unfold eqb, compare, dyadic, Py.one. cbn [cond_Zopp]. rewrite Hone. reflexivity. }
  assert (Hprod : dyadic_compare (7036874417766400, -46)
                    (Z.pos pq * 7036874417766400, eq + -46) <> Gt).
  { change (7036874417766400, -46) with (1 * 7036874417766400, 0 + -46).
    rewrite dyadic_compare_mul_r by lia.
    rewrite dyadic_compare_antisym.
    destruct (dyadic_compare (Z.pos pq, eq) (1, 0)); simpl; congruence. }
  pose proof (Rounding.SFmul_lower 53 1024 ltac:(lia) ltac:(lia) false false
                pq 7036874417766400 7036874417766400 eq (-46) (-46)
                Hval hundred_bounded ltac:(apply Z.leb_le; reflexivity) Hprod)
    as Hr.
  pose proof (SFmul_sign 53 1024 false pq eq false 7036874417766400 (-46)) as Hrs.
  unfold Py.float_mul, mul, Py.hundred in Hint. cbn [prec emax float64] in Hint.
  destruct (SFmul 53 1024 (S754_finite false pq eq)
              (S754_finite false 7036874417766400 (-46)))
    as [sr|sr| |sr pr er]; try contradiction; try discriminate.
  cbn [xorb] in Hrs. subst sr.
  injection Hint as <-. cbn [trunc default from_option cond_Zopp] in *.
  unfold id in *.
  assert (100 <= (if 0 <=? er then Z.pos pr * 2 ^ er else Z.pos pr / 2 ^ (- er))).
  { apply trunc_mag_ge.
    rewrite <- (dyadic_compare_shift_r _ 100 0 46) by lia. exact Hr. }
  lia.
Qed.

(** The percentage shown at each whole position of the slider. *)
Lemma percent_at_whole_positions (k : Z) :
  0 <= k <= 100 ->
  Py.int (Py.float_mul (clamped_gain (Py.float_of_int k)) Py.hundred)
  = Ok (if bool_decide (k ∈ [29; 57; 58]) then k - 1 else k).
Proof.
  intros Hk.
  set (shown := fun k : Z =>
         match Py.int (Py.float_mul (clamped_gain (Py.float_of_int k)) Py.hundred) with
         | Ok p => p =? (if bool_decide (k ∈ [29; 57; 58]) then k - 1 else k)
         | Raise _ => false
         end).
  assert (Hall : forallb shown (seqZ 0 101) = true) by (vm_compute; reflexivity).
  rewrite forallb_forall in Hall.
  specialize (Hall k). unfold shown in Hall.
  destruct (Py.int _) as [p|e].
  - f_equal. apply Z.eqb_eq. apply Hall.
    apply list_elem_of_In, elem_of_seqZ. lia.
  - discriminate Hall. apply list_elem_of_In, elem_of_seqZ. lia.
Qed.

(** C2 (as the code has it). For every channel name and every raw value
    (any binary64 value, inside [0, 100] or not), [on_volume_change] hands
    the named channel the gain [raw_value / 100] clamped to [0.0, 1.0] and
    shows [int(gain * 100)]: the binary64 product truncated toward zero, an
    integer between 0 and 100 that can be one less than the raw value.  A
    raw value of 100 or more gives gain 1.0 and shows 100; a zero, negative
    or NaN value gives gain 0.0 and shows 0; a raw value of at most [k]
    shows at most [k], one of at least [k] shows at least [k - 1], and a
    whole [k] shows [k] itself except 29, 57 and 58, which show 28, 56 and
    57.  For a name that matches no channel no channel changes, and nothing
    is raised. *)
Theorem on_volume_change_sets_gain (name : string) (raw_value : spec_float) (w : world) :
  let volume := clamped_gain raw_value in
  exists percent,
    Py.int (Py.float_mul volume Py.hundred) = Ok percent /\
    0 <= percent <= 100 /\
    leb Py.zero volume = true /\ leb volume Py.one = true /\
    (ltb Py.one (div float64 raw_value Py.hundred) = true ->
     volume = Py.one /\ percent = 100) /\
    (leb Py.hundred raw_value = true ->
     eqb volume Py.one = true /\ percent = 100) /\
    (is_nan raw_value = true \/ leb raw_value Py.zero = true ->
     volume = Py.zero /\ percent = 0) /\
    (forall k, 0 <= k <= 100 ->
       (leb raw_value (Py.float_of_int k) = true -> percent <= k) /\
       (leb (Py.float_of_int k) raw_value = true -> k - 1 <= percent) /\
       (raw_value = Py.float_of_int k ->
        percent = if bool_decide (k ∈ [29; 57; 58]) then k - 1 else k)) /\
    let labels :=
      match value_labels w !! name with
      | Some _ => <[name := pretty percent +:+ "%"]> (value_labels w)
      | None => value_labels w
      end in
    (channels w !! name = None ->
     on_volume_change name raw_value w =
     (Ok tt, World (stdout w) (random w) (mixer_initialized w)
               (window_destroyed w) (sounds w) (channels w) (volume_vars w)
               labels)) /\
    (forall c, channels w !! name = Some c -> mixer_initialized w = true ->
     on_volume_change name raw_value w =
     (Ok tt, World (stdout w) (random w) (mixer_initialized w)
               (window_destroyed w) (sounds w)
               (<[name := Channel (chan_sound c) volume (chan_looping c)]>
                  (channels w))
               (volume_vars w) labels)).
Proof.
  intros volume.
  destruct (percent_of_volume raw_value)
    as (percent & Hint & Hrange & H0 & H1 & Hover).
  cbv zeta in Hint, H0, H1, Hover. fold (clamped_gain raw_value) in Hint, H0, H1, Hover.
  fold volume in Hint, H0, H1, Hover.
  exists percent. do 5 (split; [assumption|]).
  split; [intros Hfull; exact (percent_full raw_value percent Hfull Hint)|].
  split.
  { intros Hfloor. unfold volume in *.
    rewrite (clamped_gain_floor raw_value Hfloor) in *.
    split; [reflexivity|]. vm_compute in Hint. injection Hint as <-. reflexivity. }
  split.
  { intros k Hk. split; [|split].
    - intros Hle. exact (percent_le_ceiling raw_value k percent Hk Hle Hint).
    - intros Hle. exact (percent_ge_floor raw_value k percent Hk Hle Hint).
    - intros ->. unfold volume in Hint.
      rewrite (percent_at_whole_positions k Hk) in Hint.
      injection Hint as <-. reflexivity. }
  cbv zeta. split.
  - intros Hnone. unfold on_volume_change. rewrite truediv_hundred.
    run_monad. fold (clamped_gain raw_value). fold volume.
    rewrite Hnone. rewrite bool_decide_eq_false_2 by (intros [? ?]; discriminate).
    destruct (value_labels w !! name) as [l|] eqn:Hl.
    + rewrite bool_decide_eq_true_2 by eauto. rewrite Hint. destruct w; reflexivity.
    + rewrite bool_decide_eq_false_2 by (intros [? ?]; discriminate).
      destruct w; reflexivity.
  - intros c Hc Hinit.
    destruct w as [so rn mi wd sd ch vv vl].
    cbn [stdout random mixer_initialized window_destroyed sounds channels
         volume_vars value_labels] in *.
    subst mi.
    assert (Halter : alter (fun c0 => Channel (chan_sound c0) volume (chan_looping c0))
                       name ch
                     = <[name := Channel (chan_sound c) volume (chan_looping c)]> ch).
    { apply map_eq. intros k. rewrite lookup_alter, lookup_insert.
      destruct (decide (name = k)) as [->|]; [rewrite Hc|]; reflexivity. }
    unfold on_volume_change. rewrite truediv_hundred.
    run_monad. fold (clamped_gain raw_value). fold volume.
    cbn [stdout random mixer_initialized window_destroyed sounds channels
         volume_vars value_labels].
    rewrite Hc. rewrite bool_decide_eq_true_2 by eauto.
    unfold channel_set_volume, mixer_init_check, set_channels. run_monad.
    cbn [stdout random mixer_initialized window_destroyed sounds channels
         volume_vars value_labels].
    rewrite Halter.
    destruct (vl !! name) as [l|] eqn:Hl.
    + rewrite bool_decide_eq_true_2 by eauto. rewrite Hint. reflexivity.
    + rewrite bool_decide_eq_false_2 by (intros [? ?]; discriminate).
      reflexivity.
Qed.

(** Not the percentage of the gain: with the slider at 29 the channel gets
    the gain 0.29, whose hundredfold rounds to 29, and the label shows 28. *)
Lemma on_volume_change_shows_less :
  let '(r, w) := on_volume_change "Wind" (Py.float_of_int 29) running_world in
  r = Ok tt /\
  chan_volume <$> channels w !! "Wind"
    = Some (div float64 (Py.float_of_int 29) (Py.float_of_int 100)) /\
  value_labels w !! "Wind" = Some "28%" /\
  Py.round (Py.float_mul (div float64 (Py.float_of_int 29) (Py.float_of_int 100))
                         Py.hundred) = Ok 29.
Proof. vm_compute. repeat split; reflexivity. Qed.


(** * Further properties of the program *)

(** ** White noise: errors and the random stream *)

(** X1. When [generate_white_noise] raises, no variate has been drawn from
    the random source, and it is for one of five reasons: the product is
    NaN; it is infinite; the sample count does not fit NumPy's index type;
    it is negative; or the array is more than the process can allocate. *)
Theorem generate_white_noise_errors (m : Np.memory) (duration_seconds : spec_float)
    (g : Np.rng) (e : exn) :
  fst (generate_white_noise m duration_seconds g) = Raise e ->
  snd (generate_white_noise m duration_seconds g) = g /\
  let product := Py.float_mul (Py.float_of_int SAMPLE_RATE) duration_seconds in
  (e = ValueError "cannot convert float NaN to integer" /\
     is_nan product = true \/
   e = OverflowError "cannot convert float infinity to integer" /\
     (exists s, product = S754_infinity s) \/
   exists n,
     Py.int product = Ok n /\
     (e = ValueError "Maximum allowed dimension exceeded" /\
        (n < - Np.max_intp - 1 \/ Np.max_intp < n) \/
      e = ValueError "negative dimensions are not allowed" /\
        - Np.max_intp - 1 <= n < 0 \/
      e = Np.alloc_error m n /\
        0 <= n <= Np.max_intp /\ Z.of_N (Np.available m) < 8 * n)).
Proof.
  unfold generate_white_noise. run_monad. cbv zeta.
  destruct (Py.float_mul (Py.float_of_int SAMPLE_RATE) duration_seconds)
    as [s|s| |s p mm] eqn:Hp; cbn [Py.int].
  - change (default 0 (trunc (S754_zero s))) with 0. unfold Np.random_normal.
    rewrite (allocate_fits m float64 0) by (unfold Np.max_intp; lia).
    discriminate.
  - intros [= <-]. split; [reflexivity|]. right; left. eauto.
  - intros [= <-]. split; [reflexivity|]. left. auto.
  - set (n := default 0 (trunc (S754_finite s p mm))).
    unfold Np.random_normal, Np.allocate.
    change (Np.itemsize float64) with 8.
    destruct (Z.ltb_spec n (- Np.max_intp - 1)) as [Hlow|Hlow]; cbn [orb].
    { intros [= <-]. split; [reflexivity|]. right; right. exists n.
      split; [reflexivity|]. left. split; [reflexivity | lia]. }
    destruct (Z.ltb_spec Np.max_intp n) as [Hhigh|Hhigh].
    { intros [= <-]. split; [reflexivity|]. right; right. exists n.
      split; [reflexivity|]. left. split; [reflexivity | lia]. }
    destruct (Z.ltb_spec n 0) as [Hneg|Hpos].
    { intros [= <-]. split; [reflexivity|]. right; right. exists n.
      split; [reflexivity|]. right; left. split; [reflexivity | lia]. }
    destruct (Z.ltb_spec (Z.of_N (Np.available m)) (8 * n)) as [Hroom|Hroom].
    { intros [= <-]. split; [reflexivity|]. right; right. exists n.
      split; [reflexivity|]. right; right. split; [reflexivity | lia]. }
    discriminate.
Qed.

Lemma generate_white_noise_errors_witness :
  snd (generate_white_noise roomy (S754_finite false 4503599627370496 948)
         (random fresh_world))
  = random fresh_world /\
  let product :=
    Py.float_mul (Py.float_of_int SAMPLE_RATE)
      (S754_finite false 4503599627370496 948) in
  (ValueError "Maximum allowed dimension exceeded"
   = ValueError "cannot convert float NaN to integer" /\
     is_nan product = true \/
   ValueError "Maximum allowed dimension exceeded"
   = OverflowError "cannot convert float infinity to integer" /\
     (exists s, product = S754_infinity s) \/
   exists n,
     Py.int product = Ok n /\
     (ValueError "Maximum allowed dimension exceeded"
      = ValueError "Maximum allowed dimension exceeded" /\
        (n < - Np.max_intp - 1 \/ Np.max_intp < n) \/
      ValueError "Maximum allowed dimension exceeded"
      = ValueError "negative dimensions are not allowed" /\
        - Np.max_intp - 1 <= n < 0 \/
      ValueError "Maximum allowed dimension exceeded"
      = Np.alloc_error roomy n /\
        0 <= n <= Np.max_intp /\ Z.of_N (Np.available roomy) < 8 * n)).
Proof.
  apply (generate_white_noise_errors roomy
           (S754_finite false 4503599627370496 948) (random fresh_world)).
  vm_compute. reflexivity.
Defined.

(** X2. Two buffers generated one after the other are consecutive stretches of
    the random stream: together they are its first variates, in order, and
    the source is left just past them. *)
Theorem generate_white_noise_consecutive (m : Np.memory) (d1 d2 : spec_float)
    (g g1 g2 : Np.rng) (s1 s2 : Np.ndarray) :
  generate_white_noise m d1 g = (Ok s1, g1) ->
  generate_white_noise m d2 g1 = (Ok s2, g2) ->
  s1 ++ s2 = g <$> seq 0 (length s1 + length s2) /\
  forall i, g2 i = g (length s1 + length s2 + i)%nat.
Proof.
  assert (Hone : forall d g0 g' s,
             generate_white_noise m d g0 = (Ok s, g') ->
             s = g0 <$> seq 0 (length s) /\ forall i, g' i = g0 (length s + i)%nat).
  { intros d g0 g' s. unfold generate_white_noise. run_monad.
    destruct (Py.int _) as [n|e]; [|discriminate].
    unfold Np.random_normal.
    destruct (Np.allocate m float64 n); [|discriminate].
    intros [= <- <-]. rewrite length_fmap, length_seq. auto. }
  intros H1 H2.
  destruct (Hone _ _ _ _ H1) as (Hs1 & Hg1).
  destruct (Hone _ _ _ _ H2) as (Hs2 & Hg2).
  split.
  - rewrite seq_app, fmap_app, <- Hs1. f_equal.
    rewrite Hs2 at 1. apply list_eq. intros i. rewrite !list_lookup_fmap.
    destruct (decide (i < length s2)%nat) as [Hi|Hi].
    + rewrite !lookup_seq_lt by exact Hi. simpl. f_equal. apply Hg1.
    + rewrite !lookup_seq_ge by lia. reflexivity.
  - intros i. rewrite Hg2, Hg1. f_equal. lia.
Qed.

Lemma generate_white_noise_consecutive_witness :
  let g := random fresh_world in
  let s1 := g <$> seq 0 2 in
  let s2 := g <$> seq 2 2 in
  s1 ++ s2 = g <$> seq 0 (length s1 + length s2) /\
  forall i, g (2 + (2 + i))%nat = g (length s1 + length s2 + i)%nat.
Proof.
  intros g s1 s2.
  apply (generate_white_noise_consecutive roomy
           (S754_finite false 4503599627370496 (-66))
           (S754_finite false 4503599627370496 (-66))
           g (fun i => g (2 + i)%nat) (fun i => g (2 + (2 + i))%nat) s1 s2);
    vm_compute; reflexivity.
Defined.

Lemma trunc_below_one (s : bool) (p : positive) (e : Z) :
  dyadic_compare (Z.pos p, e) (1, 0) = Lt ->
  trunc (S754_finite s p e) = Some 0.
Proof.
  unfold dyadic_compare, trunc. cbn [fst snd]. rewrite Z.compare_lt_iff.
  destruct (Z.leb_spec 0 e) as [He|He].
  - rewrite Z.min_r by lia. rewrite Z.sub_0_r. simpl (2 ^ (0 - 0)).
    pose proof (Rounding.pow2_pos e He). nia.
  - rewrite Z.min_l by lia. rewrite Z.sub_diag. simpl (2 ^ 0).
    replace (0 - e) with (- e) by lia. intros Hlt.
    rewrite Z.div_small by lia. destruct s; reflexivity.
Qed.

Lemma dyadic_compare_one (p : positive) (e : Z) :
  dyadic_compare (Z.pos p, e) (4503599627370496, -52)
  = dyadic_compare (Z.pos p, e) (1, 0).
Proof.
  change (4503599627370496, -52) with (1 * 2 ^ 52, 0 - 52).
  apply dyadic_compare_shift_r. lia.
Qed.

(** X3. A duration whose product with the sample rate lies strictly between -1
    and 1 gives the empty buffer: the count is truncated toward zero, so a
    negative duration shorter than one sample period is not an error. *)
Theorem generate_white_noise_below_one_sample (m : Np.memory)
    (duration_seconds : spec_float) (g : Np.rng) :
  let product := Py.float_mul (Py.float_of_int SAMPLE_RATE) duration_seconds in
  ltb (Py.float_of_int (-1)) product = true -> ltb product Py.one = true ->
  generate_white_noise m duration_seconds g = (Ok [], g).
Proof.
  intros product Hlo Hhi.
  assert (Hint : Py.int product = Ok 0).
  { destruct product as [s|s| |s p e];
      [reflexivity | destruct s; discriminate | discriminate |].
    unfold Py.int. rewrite trunc_below_one; [reflexivity|].
    destruct s.
    - change (Py.float_of_int (-1)) with (S754_finite true 4503599627370496 (-52)) in Hlo.
      unfold ltb, compare, dyadic in Hlo. cbn [cond_Zopp] in Hlo.
      rewrite <- dyadic_compare_one.
      set (c := Z.min e (-52)).
      rewrite (Rounding.dyadic_compare_scale c) in Hlo by (unfold c; lia).
      rewrite (Rounding.dyadic_compare_scale c) by (unfold c; lia).
      assert (Hlt : - (4503599627370496) * 2 ^ (-52 - c) < - Z.pos p * 2 ^ (e - c)).
      { unfold Z.lt. destruct (_ ?= _); first [reflexivity | discriminate]. }
      rewrite !Z.mul_opp_l in Hlt.
      change (- (4503599627370496)) with (- 4503599627370496) in Hlt.
      apply Z.compare_lt_iff. lia.
    - unfold ltb, compare, dyadic, Py.one in Hhi. cbn [cond_Zopp] in Hhi.
      rewrite dyadic_compare_one in Hhi.
      destruct (dyadic_compare (Z.pos p, e) (1, 0)); congruence. }
  unfold generate_white_noise. run_monad. fold product. rewrite Hint.
  unfold Np.random_normal.
  rewrite (allocate_fits m float64 0) by (unfold Np.max_intp; lia).
  reflexivity.
Qed.

Lemma generate_white_noise_below_one_sample_witness :
  generate_white_noise roomy (S754_finite true 4503599627370496 (-72))
    (random fresh_world)
  = (Ok [], random fresh_world).
Proof.
  apply (generate_white_noise_below_one_sample roomy
           (S754_finite true 4503599627370496 (-72)) (random fresh_world));
    vm_compute; reflexivity.
Defined.

(** ** Smoothing with a window of two or more *)

Lemma convolve_same_length (t : dtype) (a v : Np.ndarray) :
  a <> [] -> v <> [] ->
  exists out,
    Np.convolve_same t a v = Ok out /\
    length out = Nat.max (length a) (length v).
Proof.
  intros Ha Hv. unfold Np.convolve_same.
  destruct a as [|x a]; [contradiction|]. destruct v as [|y v]; [contradiction|].
  set (la := length (x :: a)). set (lv := length (y :: v)).
  assert (Hla : (1 <= la)%nat) by (unfold la; simpl; lia).
  assert (Hlv : (1 <= lv)%nat) by (unfold lv; simpl; lia).
  destruct (Nat.ltb_spec la lv) as [Hlt|Hge]; eexists; (split; [reflexivity|]);
    rewrite length_take, length_drop, length_fmap, length_seq.
  - fold la lv.
    assert (((la - 1) / 2 <= la - 1)%nat) by (apply Nat.Div0.div_le_upper_bound; lia).
    lia.
  - fold la lv.
    assert (((lv - 1) / 2 <= lv - 1)%nat) by (apply Nat.Div0.div_le_upper_bound; lia).
    lia.
Qed.

(** [float(window_size)] of a window NumPy has taken as a size. *)
Lemma float_of_size (z : Z) :
  0 < z <= Np.max_intp -> Py.float z = Ok (Py.float_of_int z).
Proof.
  intros Hz. unfold Py.float.
  assert (Hfin : is_finite (Py.float_of_int z) = true); [|rewrite Hfin; reflexivity].
  unfold Py.float_of_int, of_Z, binary_normalize. cbn [prec emax float64].
  destruct z as [|p|p]; try lia.
  destruct (Rounding.binary_round_upper 53 1024 ltac:(lia) false
              p 1 0 63 ltac:(apply Z.leb_le; reflexivity) ltac:(lia))
    as (Hfin & _); [|exact Hfin].
  rewrite (Rounding.dyadic_compare_scale 0) by lia.
  apply Z.compare_le_iff. rewrite !Z.sub_0_r. change (2 ^ 0) with 1.
  unfold Np.max_intp in Hz. change (2 ^ (63 - 0)) with (2 ^ 63). lia.
Qed.

(** X4. With a window of two or more that NumPy can hold and a signal that
    is not empty, the smoothed signal is as long as the longer of the
    signal and the window: a window wider than the signal lengthens it. *)
Theorem moving_average_length (m : Np.memory) (t : dtype) (signal : Np.ndarray)
    (window_size : Z) :
  2 <= window_size <= Np.max_intp ->
  4 * window_size <= Z.of_N (Np.available m) ->
  signal <> [] ->
  exists out,
    moving_average m t signal window_size = Ok out /\
    Z.of_nat (length out) = Z.max (Z.of_nat (length signal)) window_size.
Proof.
  intros Hw Hroom Hs. unfold moving_average, Np.ones.
  destruct (Z.leb_spec window_size 1) as [|_]; [lia|].
  rewrite (allocate_fits m float32 window_size) by (change (Np.itemsize float32) with 4; lia).
  rewrite float_of_size by lia.
  cbn [mbind result_bind]. cbv zeta.
  match goal with
  | |- context [Np.convolve_same ?rt ?a ?v] =>
      destruct (convolve_same_length rt a v) as (out & Hout & Hlen)
  end.
  - destruct signal; [contradiction | discriminate].
  - destruct (Z.to_nat window_size) eqn:E; [lia | discriminate].
  - exists out. split; [exact Hout|].
    rewrite Hlen, !length_fmap, length_replicate. lia.
Qed.

Lemma moving_average_length_witness :
  exists out,
    moving_average roomy float32 (of_Z float32 <$> [3; -4; 1]) 5 = Ok out /\
    Z.of_nat (length out) = Z.max (Z.of_nat (length (of_Z float32 <$> [3; -4; 1]))) 5.
Proof.
  apply (moving_average_length roomy float32 (of_Z float32 <$> [3; -4; 1]) 5).
  - unfold Np.max_intp. lia.
  - vm_compute. discriminate.
  - discriminate.
Defined.

(** X5. An empty signal is refused with a [ValueError] as soon as the window
    is two or more and its kernel can be allocated: by the convolution, or
    by NumPy when the window does not fit its index type. *)
Theorem moving_average_empty (m : Np.memory) (t : dtype) (window_size : Z) :
  2 <= window_size ->
  4 * window_size <= Z.of_N (Np.available m) ->
  exists msg, moving_average m t [] window_size = Raise (ValueError msg).
Proof.
  intros Hw Hroom. unfold moving_average, Np.ones.
  destruct (Z.leb_spec window_size 1) as [|_]; [lia|].
  destruct (Z.le_gt_cases window_size Np.max_intp) as [Hfit|Hbig].
  - rewrite (allocate_fits m float32 window_size)
      by (change (Np.itemsize float32) with 4; lia).
    rewrite float_of_size by lia.
    cbn [mbind result_bind]. cbv zeta. unfold Np.convolve_same.
    rewrite !length_fmap, length_replicate. cbn [length].
    destruct (Nat.ltb_spec 0 (Z.to_nat window_size)) as [_|]; [|lia].
    destruct (Z.to_nat window_size) eqn:E; [lia|].
    eexists. reflexivity.
  - unfold Np.allocate.
    destruct (Z.ltb_spec Np.max_intp window_size) as [_|]; [|lia].
    rewrite orb_true_r. eexists. reflexivity.
Qed.

Lemma moving_average_empty_witness :
  exists msg, moving_average roomy float32 [] 3 = Raise (ValueError msg).
Proof.
  apply (moving_average_empty roomy float32 3); [lia | vm_compute; discriminate].
Defined.

(** ** Normalisation: range, NaN and repetition *)

Lemma normalize_bounded (t : dtype) (samples : Np.ndarray) :
  0 < prec t -> prec t < emax t ->
  samples <> [] ->
  Forall (fun x => finite_in t x = true) samples ->
  exists out,
    normalize t samples = Ok out /\
    length out = length samples /\
    Forall (fun o => finite_in t o = true /\ within_unit o) out.
Proof.
  intros Hprec Hemax Hne Hfinite.
  destruct samples as [|x0 rest]; [contradiction|].
  assert (Hfin : Forall (fun y => is_finite y = true) (Np.abs (x0 :: rest))).
  { unfold Np.abs. apply Forall_fmap. eapply Forall_impl; [exact Hfinite|].
    intros x Hx. simpl. rewrite is_finite_abs. eapply finite_in_finite; exact Hx. }
  unfold Np.abs in Hfin. rewrite fmap_cons in Hfin.
  apply Forall_cons in Hfin as [Hfin0 Hfinr].
  destruct (foldl_maximum_finite _ _ Hfin0 Hfinr) as (Hpf & Hpin & Hpall).
  cbv zeta in Hpf, Hpin, Hpall.
  set (peak := foldl Np.maximum (SFabs x0) (SFabs <$> rest)) in *.
  rewrite <- fmap_cons in Hpin, Hpall.
  assert (Hrun : normalize t (x0 :: rest)
                 = if eqb peak Py.zero then Ok (x0 :: rest)
                   else Ok ((fun x => div t x peak) <$> (x0 :: rest))).
  { reflexivity. }
  rewrite Hrun.
  destruct (eqb peak Py.zero) eqn:Hz.
  - exists (x0 :: rest). split; [reflexivity|]. split; [reflexivity|].
    apply Forall_forall. intros x Hx. split.
    + eapply Forall_forall in Hfinite; eauto.
    + assert (Hxf : is_finite x = true).
      { eapply finite_in_finite. eapply Forall_forall in Hfinite; eauto. }
      unfold within_unit.
      apply (leb_trans _ peak); rewrite ?is_finite_abs; try assumption;
        try reflexivity.
      * eapply Forall_forall in Hpall; [exact Hpall|].
        apply list_elem_of_fmap. eauto.
      * apply (leb_trans _ Py.zero); try assumption; try reflexivity.
        apply eqb_leb_sym; try assumption; try reflexivity.
        unfold eqb in *. rewrite compare_finite in * by (assumption || reflexivity).
        rewrite dyadic_compare_antisym.
        destruct (dyadic_compare (dyadic peak) (dyadic Py.zero)); simpl;
          congruence.
  - eexists. split; [reflexivity|]. split; [rewrite length_fmap; reflexivity|].
    apply list_elem_of_fmap in Hpin as (xj & Hxj & Hjin).
    assert (Hshape : exists p e, peak = S754_finite false p e).
    { destruct xj as [s|s| |s p e]; simpl in Hxj; rewrite Hxj in Hz, Hpf;
        try discriminate.
      eauto. }
    destruct Hshape as (p & e & Hpk).
    apply Forall_fmap. apply Forall_forall. intros x Hx. simpl.
    rewrite Hpk. apply div_by_peak; try assumption.
    + eapply Forall_forall in Hfinite; eauto.
    + rewrite <- Hpk. eapply Forall_forall in Hpall; [exact Hpall|].
      apply list_elem_of_fmap. eauto.
Qed.

(** X6. Every sample of a normalised signal lies in [-1, 1]: for a signal of
    finite samples that is not empty, [normalize] returns as many samples,
    each finite and of magnitude at most one. *)
Theorem normalize_unit_range (t : dtype) (samples : Np.ndarray) :
  0 < prec t -> prec t < emax t ->
  samples <> [] ->
  Forall (fun x => finite_in t x = true) samples ->
  exists out,
    normalize t samples = Ok out /\
    length out = length samples /\
    Forall (fun o => finite_in t o = true /\ leb (SFabs o) Py.one = true) out.
Proof.
  intros Hprec Hemax Hne Hfinite.
  destruct (normalize_bounded t samples Hprec Hemax Hne Hfinite)
    as (out & Hrun & Hlen & Hall).
  exists out. split; [exact Hrun|]. split; [exact Hlen|].
  eapply Forall_impl; [exact Hall|]. intros o [Hf Hu]. split; [exact Hf|].
  unfold within_unit, leb in Hu. unfold leb. rewrite <- compare_unit_one. exact Hu.
Qed.

Lemma normalize_unit_range_witness :
  exists out,
    normalize float32 (of_Z float32 <$> [3; -4; 1]) = Ok out /\
    length out = length (of_Z float32 <$> [3; -4; 1]) /\
    Forall (fun o => finite_in float32 o = true /\ leb (SFabs o) Py.one = true) out.
Proof.
  apply (normalize_unit_range float32 (of_Z float32 <$> [3; -4; 1])).
  - simpl. lia.
  - simpl. lia.
  - discriminate.
  - repeat constructor.
Defined.

Lemma foldl_maximum_nan (rest : list spec_float) (x : spec_float) :
  is_nan x = true \/ S754_nan ∈ rest ->
  foldl Np.maximum x rest = S754_nan.
Proof.
  revert x. induction rest as [|y rest IH]; intros x [Hx | Hin].
  - destruct x; try discriminate. reflexivity.
  - apply elem_of_nil in Hin. contradiction.
  - simpl. apply IH. left. destruct x; try discriminate. reflexivity.
  - simpl. apply elem_of_cons in Hin as [<- | Hin].
    + apply IH. left. unfold Np.maximum. destruct x; reflexivity.
    + apply IH. right. exact Hin.
Qed.

(** X7. A single NaN sample spoils the whole signal: the peak is NaN, the guard
    against a zero peak does not fire, and every quotient is NaN. *)
Theorem normalize_nan (t : dtype) (samples : Np.ndarray) :
  S754_nan ∈ samples ->
  normalize t samples = Ok (replicate (length samples) S754_nan).
Proof.
  intros Hin. destruct samples as [|x0 rest]; [apply elem_of_nil in Hin; contradiction|].
  assert (Hpeak : foldl Np.maximum (SFabs x0) (SFabs <$> rest) = S754_nan).
  { apply foldl_maximum_nan. apply elem_of_cons in Hin as [<- | Hin].
    - left. reflexivity.
    - right. change S754_nan with (SFabs S754_nan). apply list_elem_of_fmap.
      eauto. }
  assert (Hall : forall l : list spec_float,
             (fun x => div t x S754_nan) <$> l = replicate (length l) S754_nan).
  { induction l as [|y l IH]; [reflexivity|].
    rewrite fmap_cons, IH. simpl. f_equal. destruct y; reflexivity. }
  unfold normalize, Np.abs. rewrite fmap_cons. simpl Np.max. rewrite Hpeak.
  simpl. f_equal. apply (Hall (x0 :: rest)).
Qed.

Lemma normalize_nan_witness :
  normalize float32 [of_Z float32 3; S754_nan; of_Z float32 (-4)]
  = Ok (replicate (length [of_Z float32 3; S754_nan; of_Z float32 (-4)]) S754_nan).
Proof.
  apply (normalize_nan float32 [of_Z float32 3; S754_nan; of_Z float32 (-4)]).
  apply list_elem_of_further, list_elem_of_here.
Defined.

(** ** Edge fades: length and symmetry *)

(** X8. Whatever the fade duration, the faded signal has the length of the
    signal it was made from. *)
Theorem apply_fade_edges_length (t : dtype) (samples out : Np.ndarray)
    (fade_duration : spec_float) :
  apply_fade_edges t samples fade_duration = Ok out ->
  length out = length samples.
Proof.
  intros Hrun.
  destruct (fade_length samples fade_duration) as [fl|e] eqn:Hfl.
  2: { unfold apply_fade_edges in Hrun. rewrite Hfl in Hrun. discriminate. }
  destruct (Z_lt_le_dec 0 fl) as [Hpos|Hnon].
  - pose proof (fade_length_bound _ _ _ Hfl) as Hb.
    rewrite (apply_fade_edges_shape t samples fade_duration fl Hfl Hpos) in Hrun.
    cbv zeta in Hrun. injection Hrun as <-.
    rewrite !length_app, !length_zip_with, !length_take, !length_drop,
      length_reverse, !linspace_length. lia.
  - unfold apply_fade_edges in Hrun. rewrite Hfl in Hrun. simpl in Hrun.
    destruct (Z.leb_spec fl 0); [|lia]. injection Hrun as <-. reflexivity.
Qed.

Lemma apply_fade_edges_length_witness :
  length [S754_zero false; of_Z float32 (-4); of_Z float32 1; of_Z float32 2;
          S754_zero true]
  = length (of_Z float32 <$> [3; -4; 1; 2; -5]).
Proof.
  apply (apply_fade_edges_length float32 (of_Z float32 <$> [3; -4; 1; 2; -5])
           _ Py.tenth).
  vm_compute. reflexivity.
Defined.

Lemma reverse_zip_with {A B C} (f : A -> B -> C) (l : list A) (k : list B) :
  length l = length k ->
  reverse (zip_with f l k) = zip_with f (reverse l) (reverse k).
Proof.
  revert k. induction l as [|x l IH]; intros [|y k] Hlen; try discriminate.
  - reflexivity.
  - simpl in Hlen. simpl zip_with. rewrite !reverse_cons.
    rewrite zip_with_app by (rewrite !length_reverse; lia).
    rewrite IH by lia. reflexivity.
Qed.

(** X9. Fading commutes with playing the signal backwards: the fade-out is the
    fade-in mirrored, so fading the reversed signal gives the reversed
    faded signal. *)
Theorem apply_fade_edges_reverse (t : dtype) (samples out : Np.ndarray)
    (fade_duration : spec_float) :
  apply_fade_edges t samples fade_duration = Ok out ->
  apply_fade_edges t (reverse samples) fade_duration = Ok (reverse out).
Proof.
  intros Hrun.
  assert (Hsame : fade_length (reverse samples) fade_duration
                  = fade_length samples fade_duration).
  { unfold fade_length. rewrite length_reverse. reflexivity. }
  destruct (fade_length samples fade_duration) as [fl|e] eqn:Hfl.
  2: { unfold apply_fade_edges in Hrun. rewrite Hfl in Hrun. discriminate. }
  destruct (Z_lt_le_dec 0 fl) as [Hpos|Hnon].
  - pose proof (fade_length_bound _ _ _ Hfl) as Hb.
    rewrite (apply_fade_edges_shape t samples fade_duration fl Hfl Hpos) in Hrun.
    rewrite (apply_fade_edges_shape t (reverse samples) fade_duration fl Hsame Hpos).
    cbv zeta in *. injection Hrun as <-.
    set (k := Z.to_nat fl). set (ramp := Np.linspace Py.zero Py.one fl t).
    set (n := length samples).
    assert (Hk : (2 * k <= n)%nat) by (unfold k, n; lia).
    assert (Hr : length ramp = k) by apply linspace_length.
    rewrite length_reverse. fold n. f_equal.
    rewrite !reverse_app, <- app_assoc.
    rewrite !reverse_zip_with
      by (rewrite ?length_take, ?length_drop, ?length_reverse, Hr; fold n; lia).
    rewrite reverse_involutive.
    rewrite (take_reverse samples k), (drop_reverse samples k),
      (drop_reverse samples (n - k)), take_reverse, length_take.
    fold n.
    replace (n - (n - k))%nat with k by lia.
    replace ((n - k) `min` n - (n - 2 * k))%nat with k by lia.
    rewrite (take_drop_commute samples).
    replace (k + (n - 2 * k))%nat with (n - k)%nat by lia.
    replace (k + (n - (k + (k + 0))))%nat with (n - k)%nat by lia.
    reflexivity.
  - unfold apply_fade_edges in *. rewrite Hsame, Hfl in *. simpl in *.
    destruct (Z.leb_spec fl 0); [|lia]. injection Hrun as <-. reflexivity.
Qed.

Lemma apply_fade_edges_reverse_witness :
  apply_fade_edges float32 (reverse (of_Z float32 <$> [3; -4; 1; 2; -5])) Py.tenth
  = Ok (reverse [S754_zero false; of_Z float32 (-4); of_Z float32 1; of_Z float32 2;
                 S754_zero true]).
Proof.
  apply (apply_fade_edges_reverse float32 (of_Z float32 <$> [3; -4; 1; 2; -5])).
  vm_compute. reflexivity.
Defined.

(** ** Creating a sound from a generator *)

(** X11. When the initialised mixer takes the array built for its channel
    count, the sound holds that array and nothing is printed; for two
    channels or more every frame carries the same 16-bit value on each
    channel. *)
Theorem create_sound_accepted (h : host) (g : Py.value generator)
    (produce : generator) (generated shaped : Np.ndarray) (w w1 : world) :
  call g = Ok produce ->
  produce w = (Ok generated, w1) ->
  mixer_initialized w1 = true ->
  shaped_for_playback generated = Ok shaped ->
  let channels := mixer_channels h in
  let samples :=
    if channels <=? 1 then Np.Flat shaped else Np.tile_columns shaped channels in
  make_sound_error h (Np.shaped_map (to_int16 h) samples) = None ->
  _create_sound h g w = (Ok (ArraySound (Np.shaped_map (to_int16 h) samples)), w1) /\
  (1 < channels ->
   Np.shaped_map (to_int16 h) samples =
   Np.Grid channels
     ((fun x => replicate (Z.to_nat channels) (to_int16 h x)) <$> shaped)).
Proof.
  intros Hcall Hgen Hinit Hshape channels samples Hok. split.
  - rewrite (create_sound_attempts h g produce generated shaped w w1
               Hcall Hgen Hinit Hshape).
    fold channels. fold samples. rewrite Hok. reflexivity.
  - intros Hch. unfold samples. destruct (Z.leb_spec channels 1); [lia|].
    unfold Np.tile_columns, Np.shaped_map. f_equal.
    rewrite <- list_fmap_compose. apply list_fmap_ext. intros _ x _. simpl.
    apply fmap_replicate.
Qed.


(** X13. A generator that yields no sample makes [_create_sound] raise the
    [ValueError] of [np.max] on an empty array; it is raised before the
    [try], so the mono fallback is not attempted and nothing is printed. *)
Theorem create_sound_empty (h : host) (g : Py.value generator) (produce : generator)
    (w w1 : world) :
  call g = Ok produce ->
  produce w = (Ok [], w1) ->
  _create_sound h g w =
  (Raise (ValueError
     "zero-size array to reduction operation maximum which has no identity"),
   w1).
Proof.
  intros Hcall Hgen. unfold _create_sound. rewrite Hcall. run_monad.
  rewrite Hgen. reflexivity.
Qed.

(** X25. Without an initialised mixer [_create_sound] shapes the buffer and
    then fails with [pygame.error]: [get_init()] gives nothing, two channels
    are assumed, and [make_sound] refuses.  The [except ValueError] clause
    does not catch it, so nothing is printed and no mono attempt is made. *)
Theorem create_sound_without_mixer (h : host) (g : Py.value generator)
    (produce : generator) (generated shaped : Np.ndarray) (w w1 : world) :
  call g = Ok produce ->
  produce w = (Ok generated, w1) ->
  mixer_initialized w1 = false ->
  shaped_for_playback generated = Ok shaped ->
  _create_sound h g w = (Raise (PygameError "mixer not initialized"), w1).
Proof.
  intros Hcall Hgen Hinit Hshape.
  unfold shaped_for_playback in Hshape.
  destruct (normalize float32 (cast float32 <$> generated)) as [normalized|] eqn:Hn;
    simpl in Hshape; [|discriminate].
  unfold _create_sound. rewrite Hcall. run_monad. rewrite Hgen, Hn, Hshape.
  unfold mixer_get_init. run_monad. rewrite Hinit.
  unfold make_sound, mixer_init_check. run_monad. rewrite Hinit. reflexivity.
Qed.

Lemma create_sound_accepted_witness :
  exists shaped w1,
    (_create_sound host_without_files short_noise audio_ready =
     (Ok (ArraySound (Np.shaped_map (to_int16 host_without_files)
                        (Np.tile_columns shaped 2))), w1) /\
     (1 < 2 ->
      Np.shaped_map (to_int16 host_without_files) (Np.tile_columns shaped 2) =
      Np.Grid 2 ((fun x => replicate (Z.to_nat 2) (to_int16 host_without_files x))
                   <$> shaped))) /\
    length shaped = 10%nat.
Proof.
  let run := eval vm_compute in
    (with_random
       (generate_white_noise roomy (S754_finite false 4503599627370496 (-64)))
       audio_ready) in
  match run with
  | (Ok ?generated, ?w1) =>
      let sh := eval vm_compute in (shaped_for_playback generated) in
      match sh with
      | Ok ?shaped =>
          exists shaped, w1; split;
            [apply (create_sound_accepted host_without_files short_noise
                      (with_random (generate_white_noise roomy
                                      (S754_finite false 4503599627370496 (-64))))
                      generated shaped audio_ready w1);
             vm_compute; reflexivity
            | reflexivity]
      end
  end.
Defined.


Lemma create_sound_without_mixer_witness :
  exists w1,
    _create_sound host_without_files short_noise fresh_world
    = (Raise (PygameError "mixer not initialized"), w1) /\
    stdout w1 = [].
Proof.
  let run := eval vm_compute in
    (with_random
       (generate_white_noise roomy (S754_finite false 4503599627370496 (-64)))
       fresh_world) in
  match run with
  | (Ok ?generated, ?w1) =>
      let sh := eval vm_compute in (shaped_for_playback generated) in
      match sh with
      | Ok ?shaped =>
          exists w1; split;
            [apply (create_sound_without_mixer host_without_files short_noise
                      (with_random (generate_white_noise roomy
                                      (S754_finite false 4503599627370496 (-64))))
                      generated shaped fresh_world w1);
             vm_compute; reflexivity
            | reflexivity]
      end
  end.
Defined.

Lemma create_sound_empty_witness :
  _create_sound host_with_files no_noise fresh_world =
  (Raise (ValueError
     "zero-size array to reduction operation maximum which has no identity"),
   fresh_world).
Proof.
  apply (create_sound_empty host_with_files no_noise
           (with_random (generate_white_noise roomy Py.zero))
           fresh_world fresh_world);
    reflexivity.
Defined.

(** ** Volume changes: the whole outcome *)

(** What [on_volume_change] leaves behind, in every case. *)
Lemma on_volume_change_run (name : string) (raw_value : spec_float) (w : world) :
  let volume := clamped_gain raw_value in
  exists percent,
    Py.int (Py.float_mul volume Py.hundred) = Ok percent /\
    0 <= percent <= 100 /\
    let labels :=
      match value_labels w !! name with
      | Some _ => <[name := pretty percent +:+ "%"]> (value_labels w)
      | None => value_labels w
      end in
    on_volume_change name raw_value w =
    match channels w !! name with
    | None =>
        (Ok tt, World (stdout w) (random w) (mixer_initialized w)
                  (window_destroyed w) (sounds w) (channels w) (volume_vars w)
                  labels)
    | Some c =>
        if mixer_initialized w then
          (Ok tt, World (stdout w) (random w) (mixer_initialized w)
                    (window_destroyed w) (sounds w)
                    (<[name := Channel (chan_sound c) volume (chan_looping c)]>
                       (channels w))
                    (volume_vars w) labels)
        else (Raise (PygameError "mixer not initialized"), w)
    end.
Proof.
  intros volume.
  destruct (percent_of_volume raw_value) as (percent & Hint & Hrange & _).
  cbv zeta in Hint. fold (clamped_gain raw_value) in Hint. fold volume in Hint.
  exists percent. split; [exact Hint|]. split; [exact Hrange|]. cbv zeta.
  destruct w as [so rn mi wd sd ch vv vl].
  cbn [stdout random mixer_initialized window_destroyed sounds channels
       volume_vars value_labels].
  unfold on_volume_change. rewrite truediv_hundred.
  run_monad. fold (clamped_gain raw_value). fold volume.
  cbn [stdout random mixer_initialized window_destroyed sounds channels
       volume_vars value_labels].
  destruct (ch !! name) as [c|] eqn:Hc.
  - rewrite bool_decide_eq_true_2 by eauto.
    unfold channel_set_volume, mixer_init_check, set_channels. run_monad.
    cbn [stdout random mixer_initialized window_destroyed sounds channels
         volume_vars value_labels].
    destruct mi; [|reflexivity].
    assert (Halter : alter (fun c0 => Channel (chan_sound c0) volume (chan_looping c0))
                       name ch
                     = <[name := Channel (chan_sound c) volume (chan_looping c)]> ch).
    { apply map_eq. intros k. rewrite lookup_alter, lookup_insert.
      destruct (decide (name = k)) as [->|]; [rewrite Hc|]; reflexivity. }
    cbn [stdout random mixer_initialized window_destroyed sounds channels
         volume_vars value_labels].
    rewrite Halter.
    destruct (vl !! name) as [l|] eqn:Hl.
    + rewrite bool_decide_eq_true_2 by eauto. rewrite Hint. reflexivity.
    + rewrite bool_decide_eq_false_2 by (intros [? ?]; discriminate).
      reflexivity.
  - rewrite bool_decide_eq_false_2 by (intros [? ?]; discriminate).
    cbn [stdout random mixer_initialized window_destroyed sounds channels
         volume_vars value_labels].
    destruct (vl !! name) as [l|] eqn:Hl.
    + rewrite bool_decide_eq_true_2 by eauto. rewrite Hint. reflexivity.
    + rewrite bool_decide_eq_false_2 by (intros [? ?]; discriminate).
      reflexivity.
Qed.

(** X14. The last volume change wins: a change applied after another change to
    the same name leaves what it would have left on its own, whether or not
    the first one raised. *)
Theorem on_volume_change_last_wins (name : string) (v1 v2 : spec_float) (w : world) :
  on_volume_change name v2 (snd (on_volume_change name v1 w))
  = on_volume_change name v2 w.
Proof.
  destruct (on_volume_change_run name v1 w) as (p1 & _ & _ & H1).
  destruct (on_volume_change_run name v2 w) as (p2 & Hp2 & _ & H2).
  cbv zeta in H1, H2. rewrite H1, H2. clear H1 H2.
  destruct w as [so rn mi wd sd ch vv vl].
  cbn [stdout random mixer_initialized window_destroyed sounds channels
       volume_vars value_labels].
  destruct (ch !! name) as [c|] eqn:Hc; [destruct mi|]; cbn [snd].
  - match goal with
    | |- on_volume_change name v2 ?w1 = _ =>
        destruct (on_volume_change_run name v2 w1) as (p2' & Hp2' & _ & H3)
    end.
    cbv zeta in H3. rewrite H3. clear H3.
    rewrite Hp2 in Hp2'. injection Hp2' as <-.
    cbn [stdout random mixer_initialized window_destroyed sounds channels
         volume_vars value_labels].
    rewrite lookup_insert_eq. cbn [chan_sound chan_looping].
    rewrite insert_insert_eq.
    destruct (vl !! name) as [l|] eqn:Hl; [|rewrite Hl; reflexivity].
    rewrite lookup_insert_eq, insert_insert_eq. reflexivity.
  - match goal with
    | |- on_volume_change name v2 ?w1 = _ =>
        destruct (on_volume_change_run name v2 w1) as (p2' & _ & _ & H3)
    end.
    cbv zeta in H3. rewrite H3. clear H3.
    cbn [stdout random mixer_initialized window_destroyed sounds channels
         volume_vars value_labels].
    rewrite Hc. reflexivity.
  - match goal with
    | |- on_volume_change name v2 ?w1 = _ =>
        destruct (on_volume_change_run name v2 w1) as (p2' & Hp2' & _ & H3)
    end.
    cbv zeta in H3. rewrite H3. clear H3.
    rewrite Hp2 in Hp2'. injection Hp2' as <-.
    cbn [stdout random mixer_initialized window_destroyed sounds channels
         volume_vars value_labels].
    rewrite Hc.
    destruct (vl !! name) as [l|] eqn:Hl; [|rewrite Hl; reflexivity].
    rewrite lookup_insert_eq, insert_insert_eq. reflexivity.
Qed.

Lemma on_close_running (w : world) :
  mixer_initialized w = true -> window_destroyed w = false ->
  on_close w =
  (Ok tt, World (stdout w) (random w) false true (sounds w)
            (stopped <$> channels w) (volume_vars w) (value_labels w)).
Proof.
  intros Hinit Hdest. unfold on_close. run_monad.
  rewrite for_each_stop_running by assumption. rewrite stop_all_keys.
  unfold mixer_quit, master_destroy, with_channels. run_monad. simpl.
  rewrite Hdest. reflexivity.
Qed.

(** X15. After shutdown a volume change for a name that has a channel raises
    [pygame.error]: the channel table still holds the stopped channel, and
    [set_volume] needs the mixer.  The label is not updated. *)
Theorem on_volume_change_after_close (name : string) (raw_value : spec_float)
    (w : world) (c : channel) :
  mixer_initialized w = true -> window_destroyed w = false ->
  channels w !! name = Some c ->
  exists closed,
    on_close w = (Ok tt, closed) /\
    channels closed !! name = Some (stopped c) /\
    on_volume_change name raw_value closed
    = (Raise (PygameError "mixer not initialized"), closed).
Proof.
  intros Hinit Hdest Hc. eexists.
  split; [apply on_close_running; assumption|].
  match goal with
  | |- _ /\ on_volume_change _ _ ?w1 = _ =>
      destruct (on_volume_change_run name raw_value w1) as (p & _ & _ & Hrun)
  end.
  cbv zeta in Hrun. rewrite Hrun. clear Hrun.
  cbn [stdout random mixer_initialized window_destroyed sounds channels
       volume_vars value_labels].
  rewrite lookup_fmap, Hc. split; reflexivity.
Qed.

Lemma on_volume_change_after_close_witness :
  exists c closed,
    channels running_world !! "Wind" = Some c /\
    on_close running_world = (Ok tt, closed) /\
    channels closed !! "Wind" = Some (stopped c) /\
    on_volume_change "Wind" (Py.float_of_int 75) closed
    = (Raise (PygameError "mixer not initialized"), closed).
Proof.
  destruct (channels running_world !! "Wind") as [c|] eqn:Hc;
    [|vm_compute in Hc; discriminate].
  exists c.
  destruct (on_volume_change_after_close "Wind" (Py.float_of_int 75)
              running_world c) as (closed & H1 & H2 & H3);
    [vm_compute; reflexivity | vm_compute; reflexivity | exact Hc |].
  exists closed. split; [reflexivity|]. split; [exact H1|].
  split; [exact H2|exact H3].
Defined.

(** X16. The percentage shown for the whole slider positions 0 to 100 is the
    position itself, except at 29, 57 and 58, where the product
    [volume * 100] falls just under the integer and [int] truncates it to
    28, 56 and 57. *)
Theorem on_volume_change_whole_positions (k : Z) :
  0 <= k <= 100 ->
  Py.int (Py.float_mul (clamped_gain (Py.float_of_int k)) Py.hundred)
  = Ok (if bool_decide (k ∈ [29; 57; 58]) then k - 1 else k).
Proof. exact (percent_at_whole_positions k). Qed.

Lemma on_volume_change_whole_positions_witness :
  Py.int (Py.float_mul (clamped_gain (Py.float_of_int 29)) Py.hundred)
  = Ok (if bool_decide (29 ∈ [29; 57; 58]) then 29 - 1 else 29).
Proof. apply (on_volume_change_whole_positions 29). lia. Defined.

(** X17. A slider value that is zero, negative or NaN silences the channel: the
    gain handed to the mixer is exactly 0.0 and the label reads 0%. *)
Theorem on_volume_change_floor (name : string) (raw_value : spec_float)
    (w : world) (c : channel) (l : string) :
  is_nan raw_value = true \/ leb raw_value Py.zero = true ->
  channels w !! name = Some c -> value_labels w !! name = Some l ->
  mixer_initialized w = true -> window_destroyed w = false ->
  on_volume_change name raw_value w =
  (Ok tt, World (stdout w) (random w) (mixer_initialized w)
            (window_destroyed w) (sounds w)
            (<[name := Channel (chan_sound c) Py.zero (chan_looping c)]>
               (channels w))
            (volume_vars w) (<[name := "0%"]> (value_labels w))).
Proof.
  intros Hraw Hc Hl Hinit _.
  destruct (on_volume_change_run name raw_value w) as (p & Hp & _ & Hrun).
  cbv zeta in Hrun. rewrite Hrun, Hc, Hinit, Hl.
  rewrite (clamped_gain_floor raw_value Hraw) in *.
  injection Hp as <-. reflexivity.
Qed.

Lemma on_volume_change_floor_witness :
  exists c l,
    channels running_world !! "Wind" = Some c /\
    value_labels running_world !! "Wind" = Some l /\
    on_volume_change "Wind" (Py.float_of_int (-20)) running_world =
    (Ok tt, World (stdout running_world) (random running_world)
              (mixer_initialized running_world)
              (window_destroyed running_world) (sounds running_world)
              (<[ "Wind" := Channel (chan_sound c) Py.zero (chan_looping c)]>
                 (channels running_world))
              (volume_vars running_world)
              (<[ "Wind" := "0%"]> (value_labels running_world))).
Proof.
  destruct (channels running_world !! "Wind") as [c|] eqn:Hc;
    [|vm_compute in Hc; discriminate].
  destruct (value_labels running_world !! "Wind") as [l|] eqn:Hl;
    [|vm_compute in Hl; discriminate].
  exists c, l. split; [reflexivity|]. split; [reflexivity|].
  apply (on_volume_change_floor "Wind" (Py.float_of_int (-20)) running_world c l).
  - right. vm_compute. reflexivity.
  - exact Hc.
  - exact Hl.
  - vm_compute. reflexivity.
  - vm_compute. reflexivity.
Defined.

(** ** Start-up *)

(** A file name without directories, as the table has them. *)
Lemma entry_inj (name filename name' filename' : string) :
  entry name filename = entry name' filename' ->
  name = name' /\ filename = filename'.
Proof.
  intros H.
  pose proof (f_equal (fun p : profile => p !! "name") H) as Hn.
  pose proof (f_equal (fun p : profile => p !! "filename") H) as Hf.
  unfold entry in Hn, Hf. cbv beta in Hn, Hf.
  rewrite !lookup_insert_eq in Hn.
  rewrite !(lookup_insert_ne _ "name" "filename") in Hf by discriminate.
  rewrite !lookup_insert_eq in Hf.
  injection Hn as ->. injection Hf as ->. split; reflexivity.
Qed.

Lemma profiles_plain (h : host) (ps : list (string * string)) :
  SOUND_PROFILES = (fun p => entry p.1 p.2) <$> ps ->
  Forall (fun p => Path.join (SOUNDS_DIR h) p.2 = SOUNDS_DIR h +:+ "/" +:+ p.2) ps.
Proof.
  intros Htable.
  assert (Hplain : forall p : profile, p ∈ SOUND_PROFILES ->
            forall name filename, p = entry name filename ->
            Path.join (SOUNDS_DIR h) filename = SOUNDS_DIR h +:+ "/" +:+ filename).
  { intros p Hin name filename Hp. unfold SOUND_PROFILES in Hin.
    repeat (apply elem_of_cons in Hin as [-> | Hin]);
      try (apply entry_inj in Hp as [<- <-];
           apply join_plain; [reflexivity | reflexivity | apply sounds_dir_no_slash]).
    apply elem_of_nil in Hin. contradiction. }
  apply Forall_forall. intros [name filename] Hin.
  refine (Hplain (entry name filename) _ name filename eq_refl).
  rewrite Htable. apply (list_elem_of_fmap_2 (fun p => entry p.1 p.2) _ _ Hin).
Qed.

Lemma build_sounds_step (h : host) (name filename : string) (w : world)
    (rest : M world unit) :
  mixer_initialized w = true ->
  Path.join (SOUNDS_DIR h) filename = SOUNDS_DIR h +:+ "/" +:+ filename ->
  let file_path := SOUNDS_DIR h +:+ "/" +:+ filename in
  let step :=
    (s ← _load_sound h (entry name filename);
     name ← lift (Py.getitem (entry name filename) "name" ≫= as_str);
     channel_play name s;;
     channel_set_volume name half;;
     modify (fun w => World (stdout w) (random w) (mixer_initialized w)
                        (window_destroyed w) (<[name := s]> (sounds w))
                        (channels w) (volume_vars w) (value_labels w)));;
    rest in
  (path_exists h file_path = true -> decode_error h file_path = None ->
   step w = rest (with_loaded h w (name, filename))) /\
  (path_exists h file_path = false \/ decode_error h file_path <> None ->
   exists line,
     step w = (Raise (KeyError "fallback"), snd (print line w))).
Proof.
  intros Hinit Hplain file_path step. split.
  - intros Hex Hdec. unfold step, _load_sound.
    rewrite getitem_entry_filename, getitem_entry_name.
    run_monad. cbn [as_str]. rewrite Hplain. fold file_path. rewrite Hex, Hdec.
    unfold channel_play, channel_set_volume, mixer_init_check, set_channels.
    run_monad. destruct w as [so rn mi wd sd ch vv vl].
    cbn [stdout random mixer_initialized window_destroyed sounds channels
         volume_vars value_labels] in *.
    subst mi. unfold with_loaded.
    cbn [stdout random mixer_initialized window_destroyed sounds channels
         volume_vars value_labels fst snd].
    fold file_path. f_equal. f_equal.
    apply map_eq. intros k. rewrite lookup_alter.
    destruct (decide (name = k)) as [->|Hne];
      [rewrite !lookup_insert_eq; reflexivity
      | rewrite !lookup_insert_ne by assumption; reflexivity].
  - intros Hbad.
    destruct (load_sound_entry h w name filename) as [Hmiss Hdec].
    cbv zeta in Hmiss, Hdec. rewrite Hplain in Hmiss, Hdec.
    fold file_path in Hmiss, Hdec.
    assert (Hload : exists line,
               _load_sound h (entry name filename) w
               = (Raise (KeyError "fallback"), snd (print line w))).
    { destruct (path_exists h file_path) eqn:Hpe.
      - destruct (decode_error h file_path) as [err|] eqn:Hde.
        + eexists. apply (Hdec err); reflexivity.
        + destruct Hbad as [Hb|Hb]; [discriminate | contradiction].
      - eexists. apply Hmiss. reflexivity. }
    destruct Hload as (line & Hload).
    exists line. unfold step. run_monad. rewrite Hload. reflexivity.
Qed.

(** The loop of [_build_sounds] over a table of names and file names: it
    loads every file in order, and stops at the first one that is missing
    or does not decode. *)
Lemma build_sounds_loop (h : host) (ps : list (string * string)) (w : world) :
  mixer_initialized w = true ->
  Forall (fun p => Path.join (SOUNDS_DIR h) p.2 = SOUNDS_DIR h +:+ "/" +:+ p.2) ps ->
  let file_path := fun p : string * string => SOUNDS_DIR h +:+ "/" +:+ p.2 in
  let ok := fun p => path_exists h (file_path p) = true /\
                     decode_error h (file_path p) = None in
  let loop :=
    for_each ((fun p => entry p.1 p.2) <$> ps) (fun p =>
      s ← _load_sound h p;
      name ← lift (Py.getitem p "name" ≫= as_str);
      channel_play name s;;
      channel_set_volume name half;;
      modify (fun w => World (stdout w) (random w) (mixer_initialized w)
                         (window_destroyed w) (<[name := s]> (sounds w))
                         (channels w) (volume_vars w) (value_labels w))) in
  (Forall ok ps -> loop w = (Ok tt, foldl (with_loaded h) w ps)) /\
  (forall loaded bad later,
     ps = loaded ++ bad :: later -> Forall ok loaded ->
     path_exists h (file_path bad) = false \/ decode_error h (file_path bad) <> None ->
     exists line,
       loop w = (Raise (KeyError "fallback"),
                 snd (print line (foldl (with_loaded h) w loaded)))).
Proof.
  intros Hinit Hplain file_path ok. revert w Hinit.
  induction ps as [|[name filename] ps IH]; intros w Hinit loop.
  - split; [reflexivity|]. intros [|? ?] ? ? Heq; discriminate.
  - unfold loop. rewrite fmap_cons. cbn [for_each fst snd].
    match goal with
    | |- context [for_each (_ <$> ps) ?body] =>
        set (rest := for_each ((fun p => entry p.1 p.2) <$> ps) body)
    end.
    apply Forall_cons in Hplain as [Hplain1 Hplain].
    destruct (build_sounds_step h name filename w rest Hinit Hplain1) as [Hok Hbad].
    cbv zeta in Hok, Hbad. fold (file_path (name, filename)) in Hok, Hbad.
    assert (Hinit' : mixer_initialized (with_loaded h w (name, filename)) = true)
      by exact Hinit.
    destruct (IH Hplain _ Hinit') as [IHok IHbad]. fold rest in IHok, IHbad.
    split.
    + intros Hall. apply Forall_cons in Hall as [[Hex Hdec] Hall].
      rewrite (Hok Hex Hdec). rewrite (IHok Hall). reflexivity.
    + intros loaded bad later Heq Hloaded Hb.
      destruct loaded as [|first loaded].
      * simpl in Heq. injection Heq as <- <-. apply Hbad. exact Hb.
      * simpl in Heq. injection Heq as <- ->.
        apply Forall_cons in Hloaded as [[Hex Hdec] Hloaded].
        rewrite (Hok Hex Hdec). cbn [foldl].
        apply (IHbad loaded bad later eq_refl Hloaded Hb).
Qed.





Lemma loaded_channel_stays (h : host) (l : list (string * string)) (w : world)
    (k : string) :
  (exists c, channels w !! k = Some c /\ chan_looping c = true) ->
  exists c, channels (foldl (with_loaded h) w l) !! k = Some c /\
            chan_looping c = true.
Proof.
  revert w. induction l as [|p l IH]; intros w Hk; [exact Hk|].
  cbn [foldl]. apply IH. unfold with_loaded. cbn [channels].
  rewrite lookup_insert. destruct (decide (p.1 = k)); [eauto | exact Hk].
Qed.

Lemma loaded_channels (h : host) (l : list (string * string)) (w : world)
    (p : string * string) :
  p ∈ l ->
  exists c, channels (foldl (with_loaded h) w l) !! p.1 = Some c /\
            chan_looping c = true.
Proof.
  revert w. induction l as [|q l IH]; intros w Hin.
  - apply elem_of_nil in Hin. contradiction.
  - cbn [foldl]. apply elem_of_cons in Hin as [-> | Hin]; [|apply IH; exact Hin].
    apply loaded_channel_stays. unfold with_loaded. cbn [channels].
    rewrite lookup_insert_eq. eauto.
Qed.

Lemma loaded_frame (h : host) (l : list (string * string)) (w : world) :
  let w' := foldl (with_loaded h) w l in
  stdout w' = stdout w /\ random w' = random w /\
  mixer_initialized w' = mixer_initialized w /\
  window_destroyed w' = window_destroyed w /\
  volume_vars w' = volume_vars w /\ value_labels w' = value_labels w.
Proof.
  revert w. induction l as [|p l IH]; intros w; [cbn; auto 10|].
  cbn [foldl]. destruct (IH (with_loaded h w p)) as (H1 & H2 & H3 & H4 & H5 & H6).
  cbv zeta. rewrite H1, H2, H3, H4, H5, H6. cbn. auto 10.
Qed.

Lemma init_first_bad_file_run (h : host) (w : world)
    (loaded later : list (string * string)) (bad : string * string) :
  init_error h = None ->
  SOUND_PROFILES = (fun p => entry p.1 p.2) <$> (loaded ++ bad :: later) ->
  Forall (fun p => path_exists h (SOUNDS_DIR h +:+ "/" +:+ p.2) = true /\
                   decode_error h (SOUNDS_DIR h +:+ "/" +:+ p.2) = None) loaded ->
  path_exists h (SOUNDS_DIR h +:+ "/" +:+ bad.2) = false \/
  decode_error h (SOUNDS_DIR h +:+ "/" +:+ bad.2) <> None ->
  exists line w',
    __init__ h w = (Raise (KeyError "fallback"), w') /\
    stdout w' = stdout w ++ [line] /\
    mixer_initialized w' = true /\
    volume_vars w' = ∅ /\ value_labels w' = ∅ /\
    forall p, p ∈ loaded ->
      exists c, channels w' !! p.1 = Some c /\ chan_looping c = true.
Proof.
  intros Hinit Htable Hloaded Hbad.
  set (w0 := World (stdout w) (random w) true (window_destroyed w) ∅ ∅ ∅ ∅).
  destruct (build_sounds_loop h (loaded ++ bad :: later) w0 eq_refl
              (profiles_plain h _ Htable)) as [_ Hloop].
  cbv zeta in Hloop.
  destruct (Hloop loaded bad later eq_refl Hloaded Hbad) as (line & Hrun).
  clear Hloop. rewrite <- Htable in Hrun.
  exists line. eexists. split.
  { unfold __init__, _init_audio. rewrite Hinit. run_monad.
    cbn [stdout random mixer_initialized window_destroyed sounds channels
         volume_vars value_labels].
    fold w0. unfold _build_sounds. rewrite Hrun. reflexivity. }
  destruct (loaded_frame h loaded w0) as (H1 & H2 & H3 & H4 & H5 & H6).
  cbv zeta in H1, H2, H3, H4, H5, H6.
  unfold print, modify. cbn [snd stdout mixer_initialized volume_vars value_labels channels].
  rewrite H1, H3, H5, H6. repeat split.
  intros p Hp. apply loaded_channels. exact Hp.
Qed.

(** X19. Start-up stops at the first profile whose file is missing or does not
    decode, with [KeyError: 'fallback'], and undoes nothing: the mixer stays
    open, the profiles before it keep looping on their channels, one
    diagnostic line has been printed, and no slider or label exists. *)
Theorem init_stops_at_first_bad_file (h : host) (w : world)
    (loaded later : list (string * string)) (bad : string * string) :
  init_error h = None ->
  SOUND_PROFILES = (fun p => entry p.1 p.2) <$> (loaded ++ bad :: later) ->
  Forall (fun p => path_exists h (SOUNDS_DIR h +:+ "/" +:+ p.2) = true /\
                   decode_error h (SOUNDS_DIR h +:+ "/" +:+ p.2) = None) loaded ->
  path_exists h (SOUNDS_DIR h +:+ "/" +:+ bad.2) = false \/
  decode_error h (SOUNDS_DIR h +:+ "/" +:+ bad.2) <> None ->
  exists line w',
    __init__ h w = (Raise (KeyError "fallback"), w') /\
    stdout w' = stdout w ++ [line] /\
    mixer_initialized w' = true /\
    volume_vars w' = ∅ /\ value_labels w' = ∅ /\
    forall p, p ∈ loaded ->
      exists c, channels w' !! p.1 = Some c /\ chan_looping c = true.
Proof. exact (init_first_bad_file_run h w loaded later bad). Qed.

Lemma init_stops_at_first_bad_file_witness :
  exists line w',
    __init__ host_missing_fire fresh_world = (Raise (KeyError "fallback"), w') /\
    stdout w' = stdout fresh_world ++ [line] /\
    mixer_initialized w' = true /\
    volume_vars w' = ∅ /\ value_labels w' = ∅ /\
    forall p, p ∈ [("Birds", "birds.wav"); ("Crickets", "cricket.wav")] ->
      exists c, channels w' !! p.1 = Some c /\ chan_looping c = true.
Proof.
  apply (init_stops_at_first_bad_file host_missing_fire fresh_world
           [("Birds", "birds.wav"); ("Crickets", "cricket.wav")]
           [("Rainfall", "rain.wav");
            ("Singing Bowl", "singingbowl.wav"); ("Ocean Waves", "waves.wav");
            ("Wind", "wind.wav"); ("Coffee Shop", "coffeeshop.wav")]
           ("Fire", "fire.wav")).
  - reflexivity.
  - reflexivity.
  - repeat constructor.
  - left. reflexivity.
Defined.

(** ** The script: how the process ends *)

(** X20. The two failures the script handles end the process with status 1 and
    one line of output: a window system that cannot start (before the mixer
    is touched), and a mixer that cannot be opened (before any sound is
    loaded).  The event loop is not entered. *)
Theorem script_clean_exits (h : host) (mainloop : world -> world) (w : world) :
  (forall err,
     script (Some err) h mainloop w =
     (SystemExit 1, snd (print ("Unable to start the GUI: " +:+ err) w))) /\
  (forall err,
     init_error h = Some err ->
     script None h mainloop w =
     (SystemExit 1,
      snd (print ("Audio subsystem error: " +:+ err)
             (World (stdout w) (random w) (mixer_initialized w)
                    (window_destroyed w) ∅ ∅ ∅ ∅)))).
Proof.
  split; [reflexivity|].
  intros err Hinit. unfold script, main, __init__, _init_audio. rewrite Hinit.
  reflexivity.
Qed.

Lemma script_clean_exits_witness :
  script None host_without_audio window_closed fresh_world =
  (SystemExit 1,
   snd (print ("Audio subsystem error: " +:+ "No available audio device")
          (World (stdout fresh_world) (random fresh_world)
                 (mixer_initialized fresh_world)
                 (window_destroyed fresh_world) ∅ ∅ ∅ ∅))).
Proof.
  apply (proj2 (script_clean_exits host_without_audio window_closed fresh_world)).
  reflexivity.
Defined.

(** X21. A missing or undecodable sound file is not among them: the [KeyError]
    of the absent fallback is no [pygame.error], so it leaves the script
    unhandled, with the mixer still open and the event loop never entered. *)
Theorem script_bad_file_uncaught (h : host) (mainloop : world -> world) (w : world)
    (loaded later : list (string * string)) (bad : string * string) :
  init_error h = None ->
  SOUND_PROFILES = (fun p => entry p.1 p.2) <$> (loaded ++ bad :: later) ->
  Forall (fun p => path_exists h (SOUNDS_DIR h +:+ "/" +:+ p.2) = true /\
                   decode_error h (SOUNDS_DIR h +:+ "/" +:+ p.2) = None) loaded ->
  path_exists h (SOUNDS_DIR h +:+ "/" +:+ bad.2) = false \/
  decode_error h (SOUNDS_DIR h +:+ "/" +:+ bad.2) <> None ->
  exists w',
    script None h mainloop w = (Uncaught (KeyError "fallback"), w') /\
    mixer_initialized w' = true.
Proof.
  intros Hinit Htable Hloaded Hbad.
  destruct (init_first_bad_file_run h w loaded later bad Hinit Htable Hloaded Hbad)
    as (line & w' & Hrun & _ & Hmixer & _).
  exists w'. split; [|exact Hmixer].
  unfold script, main. run_monad. rewrite Hrun. reflexivity.
Qed.

Lemma script_bad_file_uncaught_witness :
  exists w',
    script None host_missing_fire window_closed fresh_world
    = (Uncaught (KeyError "fallback"), w') /\
    mixer_initialized w' = true.
Proof.
  apply (script_bad_file_uncaught host_missing_fire window_closed fresh_world
           [("Birds", "birds.wav"); ("Crickets", "cricket.wav")]
           [("Rainfall", "rain.wav");
            ("Singing Bowl", "singingbowl.wav"); ("Ocean Waves", "waves.wav");
            ("Wind", "wind.wav"); ("Coffee Shop", "coffeeshop.wav")]
           ("Fire", "fire.wav")).
  - reflexivity.
  - reflexivity.
  - repeat constructor.
  - left. reflexivity.
Defined.



(** ** From generator to 16-bit buffer *)


(** A sample of magnitude at most one is encoded within [-32767, 32767]
    (the value -32768 is never produced), and a zero is encoded as 0. *)
Lemma to_int16_within_unit (h : host) (x : spec_float) :
  finite_in float32 x = true -> within_unit x ->
  -32767 <= to_int16 h x <= 32767 /\
  (forall s, x = S754_zero s -> to_int16 h x = 0).
Proof.
  intros Hx Hu. unfold finite_in in Hx. apply andb_true_iff in Hx as [Hf Hv].
  destruct x as [s|s| |s p e]; try discriminate.
  - assert (H0 : to_int16 h (S754_zero s) = 0) by (destruct s; reflexivity).
    rewrite H0. split; [lia | auto].
  - split; [|intros s' [=]].
    simpl in Hv. apply within_unit_finite in Hu.
    assert (Hgrid : fexp 24 128 (Zdigits2 16776704 + -9) <= -9)
      by (vm_compute; discriminate).
    destruct (Rounding.SFmul_upper 24 128 ltac:(lia) ltac:(lia) s false
                p 16776704 16776704 e (-9) (-9) Hv ltac:(reflexivity) Hgrid
                ltac:(lia)) as (Hrf & _ & Hle & Hshape).
    { apply dyadic_mul_le_one; [lia | exact Hu]. }
    unfold to_int16.
    set (r := mul float32 (S754_finite s p e) (of_Z float32 32767)).
    change (SFmul 24 128 (S754_finite s p e) (S754_finite false 16776704 (-9)))
      with r in Hrf, Hle, Hshape.
    rewrite clip_then_truncate by (destruct r; try discriminate; reflexivity).
    destruct Hshape as [Hz | (p' & e' & Hr)].
    + rewrite Hz. change (saturate16 (S754_zero (xorb s false))) with 0. lia.
    + rewrite Hr in Hle |- *.
      apply leb_finite in Hle; [|reflexivity|reflexivity].
      assert (Hcmp : dyadic_compare (Z.pos p', e') (16776704, -9) <> Gt)
        by exact Hle.
      pose proof (trunc_mag_le p' 16776704 e' (-9) 32767 ltac:(lia)
                    ltac:(reflexivity) Hcmp) as Hmag.
      unfold saturate16, trunc. cbn [default from_option]. unfold id.
      destruct (xorb s false); cbn [cond_Zopp]; lia.
Qed.



(** ** Encoding is symmetric about zero *)

Lemma binary_round_aux_opp (pr em : Z) (s : bool) (m e : Z) (l : location) :
  binary_round_aux pr em (negb s) m e l = SFopp (binary_round_aux pr em s m e l).
Proof.
  unfold binary_round_aux.
  destruct (shr_fexp pr em m e l) as [mrs e'].
  destruct (shr_fexp pr em _ e' loc_Exact) as [mrs' e''].
  destruct (shr_m mrs'); try reflexivity.
  destruct (e'' <=? em - pr); reflexivity.
Qed.

Lemma SFmul_opp_l (pr em : Z) (x y : spec_float) :
  is_finite x = true -> is_finite y = true ->
  SFmul pr em (SFopp x) y = SFopp (SFmul pr em x y).
Proof.
  intros Hx Hy.
  destruct x as [sx|sx| |sx px ex], y as [sy|sy| |sy py ey]; try discriminate;
    cbn [SFopp SFmul]; try (destruct sx, sy; reflexivity).
  rewrite <- binary_round_aux_opp. f_equal. destruct sx, sy; reflexivity.
Qed.

(** X24. For samples of magnitude at most one the encoding is an odd function:
    negating the sample negates the 16-bit value, so the encoded signal has
    no bias of its own ([astype] truncates toward zero on both sides). *)
Theorem to_int16_odd (h : host) (x : spec_float) :
  finite_in float32 x = true -> within_unit x ->
  to_int16 h (SFopp x) = - to_int16 h x.
Proof.
  intros Hx Hu.
  pose proof (proj1 (to_int16_within_unit h x Hx Hu)) as Hrange.
  assert (Hox : finite_in float32 (SFopp x) = true /\ within_unit (SFopp x)).
  { destruct x; try discriminate; auto. }
  pose proof (proj1 (to_int16_within_unit h (SFopp x) (proj1 Hox) (proj2 Hox)))
    as Hrange'.
  assert (Hfin : is_finite x = true) by (apply (finite_in_finite float32); exact Hx).
  unfold to_int16 in *.
  change (mul float32 (SFopp x) (of_Z float32 32767))
    with (SFmul 24 128 (SFopp x) (of_Z float32 32767)) in *.
  rewrite SFmul_opp_l in * by (exact Hfin || reflexivity).
  change (SFmul 24 128 x (of_Z float32 32767))
    with (mul float32 x (of_Z float32 32767)) in *.
  set (r := mul float32 x (of_Z float32 32767)) in *.
  assert (Hnan : is_nan r = false).
  { unfold r. destruct x as [s|s| |s p e]; try discriminate.
    - destruct s; reflexivity.
    - apply SFmul_finite_not_nan. }
  rewrite !clip_then_truncate in *
    by (destruct r; try discriminate; reflexivity).
  destruct r as [s|s| |s p e]; try discriminate.
  - reflexivity.
  - destruct s; simpl in Hrange, Hrange'; lia.
  - unfold saturate16, trunc, SFopp in *. cbn [default from_option] in *.
    unfold id in *.
    set (m := if 0 <=? e then Z.pos p * 2 ^ e else Z.pos p / 2 ^ (- e)) in *.
    destruct s; cbn [negb cond_Zopp] in *; lia.
Qed.

Lemma to_int16_odd_witness :
  to_int16 host_with_files (SFopp (S754_finite false 8388608 (-25)))
  = - to_int16 host_with_files (S754_finite false 8388608 (-25)).
Proof.
  apply (to_int16_odd host_with_files (S754_finite false 8388608 (-25)));
    reflexivity.
Defined.
